(** * Citation scanner of obsidian-pandoc-reference-list

    A shallow embedding of the parser part of [src/editorExtension.ts]
    (the Segmenter [getCitationSegments], the Aggregator [getCitations]
    and the Crossref Renderer [renderCrossrefType]) together with the
    properties of the specification that concern them.

    A JavaScript string is a list of UTF-16 code units, and a code unit is
    a number [N].  The Unicode character database is no part of the
    sources: the general categories that the source tests ([\p{L}],
    [\p{N}], [\p{P}]) are tabulated here for the code units below 256 and
    are parameters ([Unicode]) for the others. *)

From Stdlib Require Import Ascii String List Arith Lia Bool ZArith NArith.
Import ListNotations.

Local Open Scope char_scope.
Local Open Scope nat_scope.
Local Open Scope list_scope.

(** ** Text *)

#[warnings="-notation-for-abbreviation"]
Notation jstr := (list N).

(** The code unit of an ASCII character. *)
Definition ch (a : ascii) : N := N_of_ascii a.

(** The string of an ASCII literal. *)
Definition text (s : string) : jstr := map ch (list_ascii_of_string s).

(** [s.slice(a, b)] for [0 <= a], [0 <= b]. *)
Definition slice (s : jstr) (a b : nat) : jstr := firstn (b - a) (skipn a s).

(** [s[i]]; [None] is JavaScript's [undefined] (index out of range). *)
Definition charAt (s : jstr) (i : Z) : option N :=
  if (i <? 0)%Z then None else nth_error s (Z.to_nat i).

Definition str_eqb (a b : jstr) : bool :=
  if list_eq_dec N.eq_dec a b then true else false.

(** [c === 'x'] for a possibly undefined [c]. *)
Definition chr_is (c : option N) (x : ascii) : bool :=
  match c with Some y => N.eqb y (ch x) | None => false end.

(** ** Character classes *)

(** The general categories of the code units from 256 on: [letter],
    [number] and [punctuation] for a code unit that is a character of its
    own, and [number_pair] for the character that a pair of surrogates
    encodes. *)
Record Unicode : Type := mkUnicode {
  letter : N -> bool;
  number : N -> bool;
  punctuation : N -> bool;
  number_pair : N -> N -> bool;
}.

Module Chars.

Definition between (lo hi c : N) : bool := ((lo <=? c) && (c <=? hi))%N.

Definition one_of (l : jstr) (c : N) : bool := existsb (N.eqb c) l.

(** The surrogates U+D800 to U+DFFF: the high ones U+D800 to U+DBFF, the
    low ones U+DC00 to U+DFFF.  A surrogate on its own has the category Cs
    and is in none of the classes below. *)
Definition high (c : N) : bool := between 55296 56319 c.
Definition low (c : N) : bool := between 56320 57343 c.
Definition surrogate (c : N) : bool := between 55296 57343 c.

(** A category: tabulated below 256, a parameter above. *)
Definition category (latin1 other : N -> bool) (c : N) : bool :=
  if (c <? 256)%N then latin1 c
  else if surrogate c then false
  else other c.

(** General category L on the code units below 256. *)
Definition latin1_L (c : N) : bool :=
  between 65 90 c || between 97 122 c
  || (c =? 170)%N || (c =? 181)%N || (c =? 186)%N
  || between 192 214 c || between 216 246 c || between 248 255 c.

(** General category N on the code units below 256. *)
Definition latin1_N (c : N) : bool :=
  between 48 57 c || (c =? 178)%N || (c =? 179)%N || (c =? 185)%N
  || between 188 190 c.

(** General category P on the code units below 256. *)
Definition latin1_P (c : N) : bool :=
  one_of (text "!#%&'()*,-./:;?@[\]_{}") c || (c =? 34)%N
  || (c =? 161)%N || (c =? 167)%N || (c =? 171)%N
  || (c =? 182)%N || (c =? 183)%N || (c =? 187)%N
  || (c =? 191)%N.

Definition cat_L (U : Unicode) : N -> bool := category latin1_L (letter U).
Definition cat_N (U : Unicode) : N -> bool := category latin1_N (number U).
Definition cat_P (U : Unicode) : N -> bool :=
  category latin1_P (punctuation U).

Definition TAB : N := 9.
Definition LF : N := 10.
Definition VT : N := 11.
Definition CR : N := 13.

(** [const alphaNumeric = /[\p{L}\p{N}]/u] *)
Definition alphaNumeric (U : Unicode) (c : N) : bool :=
  cat_L U c || cat_N U c.

(** [const punct = /[:.#$%&\-+?<>~_/]/] *)
Definition punct (c : N) : bool := one_of (text ":.#$%&-+?<>~_/") c.

(** [const nonKeyPunct = /\p{P}/u] *)
Definition nonKeyPunct (U : Unicode) (c : N) : bool := cat_P U c.

(** [const space = /[ \t\v]/] *)
Definition space (c : N) : bool := one_of [ch " "; TAB; VT] c.

(** [const preKey = /[ \t\v[\-\r\n;|]/] *)
Definition preKey (c : N) : bool :=
  one_of [ch " "; TAB; VT; ch "["; ch "-"; CR; LF; ch ";"; ch "|"] c.

(** [const postKeyPunct = /[.?,;):]/] *)
Definition postKeyPunct (c : N) : bool := one_of (text ".?,;):") c.

(** [re.test(c)] for a one-character class [re] and a possibly undefined
    [c]: [RegExp.prototype.test] converts its argument to a string, so
    [undefined] is searched as the nine characters of ["undefined"]. *)
Definition test (cls : N -> bool) (c : option N) : bool :=
  match c with
  | Some x => cls x
  | None => existsb cls (text "undefined")
  end.

End Chars.

(** [function isTerminus(s?: string)] *)
Definition isTerminus (s : option N) : bool :=
  match s with
  | None => true
  | Some c => N.eqb c Chars.CR || N.eqb c Chars.LF
  end.

(** [function isValidPreKey(s?: string)] *)
Definition isValidPreKey (s : option N) : bool :=
  match s with
  | None => true
  | Some c => Chars.preKey c
  end.

(** [s.includes(pat)]: does [pat] occur in [s]? *)
Fixpoint starts_with (pat s : jstr) : bool :=
  match pat, s with
  | [], _ => true
  | p :: pat', c :: s' => N.eqb p c && starts_with pat' s'
  | _ :: _, [] => false
  end.

Fixpoint includes (pat s : jstr) : bool :=
  starts_with pat s ||
  match s with
  | [] => false
  | _ :: s' => includes pat s'
  end.

(** [const citeTypes = /(fig|tbl|eq|sec)/]: an unanchored search. *)
Definition citeTypes_test (s : jstr) : bool :=
  includes (text "fig") s || includes (text "tbl") s
  || includes (text "eq") s || includes (text "sec") s.

(** [citeTypes.test(x)] for a possibly undefined [x]. *)
Definition citeTypes_test_opt (s : option jstr) : bool :=
  match s with
  | Some x => citeTypes_test x
  | None => citeTypes_test (text "undefined")
  end.

(** ** A backtracking matcher for the regular expression [locatorRe] *)

Module Re.

(** Regular expressions with the flag [u]: a class [Cls p q] reads one
    character, which is a pair of surrogates ([q] decides) or else one
    code unit ([p] decides). *)
Inductive re : Type :=
| Cls (p : N -> bool) (q : N -> N -> bool)
| Cat (a b : re)
| Alt (a b : re)
| Opt (a : re)
| Star (a : re).

(** A class without characters beyond U+FFFF. *)
Definition Chr (p : N -> bool) : re := Cls p (fun _ _ => false).

Definition Plus (a : re) : re := Cat a (Star a).

(** [run r s k]: match [r] at the head of [s] and continue with [k] on
    what is left; alternatives are tried in priority order (first
    alternative, greedy quantifiers) and the first success is returned.
    An iteration of [Star] that consumes nothing is rejected, as in
    ECMAScript. *)
Fixpoint run (r : re) (s : jstr) (k : jstr -> option jstr) : option jstr :=
  match r with
  | Cls p q =>
      match s with
      | c :: s' =>
          match s' with
          | d :: s'' =>
              if Chars.high c && Chars.low d
              then if q c d then k s'' else None
              else if p c then k s' else None
          | [] => if p c then k s' else None
          end
      | [] => None
      end
  | Cat a b => run a s (fun s' => run b s' k)
  | Alt a b =>
      match run a s k with
      | Some x => Some x
      | None => run b s k
      end
  | Opt a =>
      match run a s k with
      | Some x => Some x
      | None => k s
      end
  | Star a =>
      (fix loop (n : nat) (s : jstr) : option jstr :=
         match n with
         | 0 => k s
         | S n' =>
             match run a s (fun s' =>
                     if length s' <? length s then loop n' s' else None) with
             | Some x => Some x
             | None => k s
             end
         end) (length s) s
  end.

(** The prefix of [s] matched by [^r], when there is a match. *)
Definition match_prefix (r : re) (s : jstr) : option jstr :=
  match run r s Some with
  | Some rest => Some (firstn (length s - length rest) s)
  | None => None
  end.

Fixpoint nullable (r : re) : bool :=
  match r with
  | Cls _ _ => false
  | Cat a b => nullable a && nullable b
  | Alt a b => nullable a || nullable b
  | Opt _ => true
  | Star _ => true
  end.

End Re.

Module LocatorRe.
Import Re.

Section Classes.

Variable U : Unicode.

(** Classes of [locatorRe], under its flags [i] and [u].  With both flags
    characters are compared after simple case folding, which takes the
    long s (U+017F) to [s] and the Kelvin sign (U+212A) to [k]. *)
Definition az (c : N) : bool :=
  Chars.between 97 122 c || Chars.between 65 90 c
  || (c =? 383)%N || (c =? 8490)%N.

(** [[a-z\p{N}]] *)
Definition azN : re :=
  Cls (fun c => az c || Chars.cat_N U c) (number_pair U).

(** [[a-z\p{N}()[\]]] *)
Definition azNbr : re :=
  Cls (fun c => az c || Chars.cat_N U c || Chars.one_of (text "()[]") c)
    (number_pair U).

(** [\p{N}] *)
Definition digit : re := Cls (Chars.cat_N U) (number_pair U).

(** [[mdclxvi]] *)
Definition roman : re := Chr (Chars.one_of (text "mdclxviMDCLXVI")).

(** [[-—:]]; the em dash is U+2014. *)
Definition dash : re :=
  Chr (fun c => Chars.one_of (text "-:") c || (c =? 8212)%N).

(** [[[(]?[a-z\p{N}]+[\])]?] *)
Definition side : re :=
  Cat (Opt (Chr (Chars.one_of (text "[("))))
    (Cat (Plus azN) (Opt (Chr (Chars.one_of (text "])"))))).

(** The three alternatives of one locator value. *)
Definition range : re := Cat side (Cat dash side).
Definition numbered : re := Cat (Star azNbr) (Cat (Plus digit) (Star azNbr)).
Definition numeral : re := Plus roman.

Definition value : re := Alt range (Alt numbered numeral).

(** [[ \t]*,[ \t]*] *)
Definition comma : re :=
  let sp := Star (Chr (Chars.one_of [ch " "; Chars.TAB])) in
  Cat sp (Cat (Chr (N.eqb (ch ","))) sp).

(** [const locatorRe]: anchored at the start, one group around a value
    followed by any number of comma-separated values; flags [i], [u]. *)
Definition locatorRe : re := Cat value (Star (Cat comma value)).

(** [sliced.match(locatorRe)]: the first group, which is the whole match
    and starts at index 0. *)
Definition exec (s : jstr) : option jstr := match_prefix locatorRe s.

End Classes.

End LocatorRe.

(** ** Data model *)

Module SegmentType.

(** [export enum SegmentType]; [at] is reserved in Rocq, hence [at_]. *)
Inductive t : Set :=
  | at_
  | key
  | curlyBracket
  | suppressor
  | bracket
  | prefix
  | suffix
  | locatorSuffix
  | locator
  | locatorLabel
  | separator
  | litNote
  | linkSeparator
  | citeType
  | typeSeparator.

Definition eqb (a b : t) : bool :=
  match a, b with
  | at_, at_ | key, key | curlyBracket, curlyBracket
  | suppressor, suppressor | bracket, bracket | prefix, prefix
  | suffix, suffix | locatorSuffix, locatorSuffix | locator, locator
  | locatorLabel, locatorLabel | separator, separator | litNote, litNote
  | linkSeparator, linkSeparator | citeType, citeType
  | typeSeparator, typeSeparator => true
  | _, _ => false
  end.

End SegmentType.

(** [export interface Segment] *)
Record Segment : Set := mkSegment {
  type : SegmentType.t;
  from : nat;
  to : nat;
  val : jstr;
}.

(** [interface State] *)
Record State : Set := mkState {
  inBrackets : bool;
  inExplicitKey : bool;
  inExplicitLocator : bool;
  inKey : bool;
  inLink : bool;
  inSuffix : bool;
  seekingSuffix : bool;
  seekingLocator : bool;
  encounteredKey : bool;
  shouldCancelSeek : bool;
  segment : list Segment;
  currentSegment : Segment;
  bracketDepth : Z;
}.

(** Field assignments [state.f = v]. *)
Definition set_inBrackets v s :=
  mkState v (inExplicitKey s) (inExplicitLocator s) (inKey s) (inLink s)
    (inSuffix s) (seekingSuffix s) (seekingLocator s) (encounteredKey s)
    (shouldCancelSeek s) (segment s) (currentSegment s) (bracketDepth s).

Definition set_inExplicitKey v s :=
  mkState (inBrackets s) v (inExplicitLocator s) (inKey s) (inLink s)
    (inSuffix s) (seekingSuffix s) (seekingLocator s) (encounteredKey s)
    (shouldCancelSeek s) (segment s) (currentSegment s) (bracketDepth s).

Definition set_inExplicitLocator v s :=
  mkState (inBrackets s) (inExplicitKey s) v (inKey s) (inLink s) (inSuffix s)
    (seekingSuffix s) (seekingLocator s) (encounteredKey s)
    (shouldCancelSeek s) (segment s) (currentSegment s) (bracketDepth s).

Definition set_inKey v s :=
  mkState (inBrackets s) (inExplicitKey s) (inExplicitLocator s) v (inLink s)
    (inSuffix s) (seekingSuffix s) (seekingLocator s) (encounteredKey s)
    (shouldCancelSeek s) (segment s) (currentSegment s) (bracketDepth s).

Definition set_inLink v s :=
  mkState (inBrackets s) (inExplicitKey s) (inExplicitLocator s) (inKey s) v
    (inSuffix s) (seekingSuffix s) (seekingLocator s) (encounteredKey s)
    (shouldCancelSeek s) (segment s) (currentSegment s) (bracketDepth s).

Definition set_inSuffix v s :=
  mkState (inBrackets s) (inExplicitKey s) (inExplicitLocator s) (inKey s)
    (inLink s) v (seekingSuffix s) (seekingLocator s) (encounteredKey s)
    (shouldCancelSeek s) (segment s) (currentSegment s) (bracketDepth s).

Definition set_seekingSuffix v s :=
  mkState (inBrackets s) (inExplicitKey s) (inExplicitLocator s) (inKey s)
    (inLink s) (inSuffix s) v (seekingLocator s) (encounteredKey s)
    (shouldCancelSeek s) (segment s) (currentSegment s) (bracketDepth s).

Definition set_seekingLocator v s :=
  mkState (inBrackets s) (inExplicitKey s) (inExplicitLocator s) (inKey s)
    (inLink s) (inSuffix s) (seekingSuffix s) v (encounteredKey s)
    (shouldCancelSeek s) (segment s) (currentSegment s) (bracketDepth s).

Definition set_encounteredKey v s :=
  mkState (inBrackets s) (inExplicitKey s) (inExplicitLocator s) (inKey s)
    (inLink s) (inSuffix s) (seekingSuffix s) (seekingLocator s) v
    (shouldCancelSeek s) (segment s) (currentSegment s) (bracketDepth s).

Definition set_shouldCancelSeek v s :=
  mkState (inBrackets s) (inExplicitKey s) (inExplicitLocator s) (inKey s)
    (inLink s) (inSuffix s) (seekingSuffix s) (seekingLocator s)
    (encounteredKey s) v (segment s) (currentSegment s) (bracketDepth s).

Definition set_segment v s :=
  mkState (inBrackets s) (inExplicitKey s) (inExplicitLocator s) (inKey s)
    (inLink s) (inSuffix s) (seekingSuffix s) (seekingLocator s)
    (encounteredKey s) (shouldCancelSeek s) v (currentSegment s)
    (bracketDepth s).

Definition set_currentSegment v s :=
  mkState (inBrackets s) (inExplicitKey s) (inExplicitLocator s) (inKey s)
    (inLink s) (inSuffix s) (seekingSuffix s) (seekingLocator s)
    (encounteredKey s) (shouldCancelSeek s) (segment s) v (bracketDepth s).

Definition set_bracketDepth v s :=
  mkState (inBrackets s) (inExplicitKey s) (inExplicitLocator s) (inKey s)
    (inLink s) (inSuffix s) (seekingSuffix s) (seekingLocator s)
    (encounteredKey s) (shouldCancelSeek s) (segment s) (currentSegment s) v.

(** [state.currentSegment.type = ty], [state.currentSegment.to = i]. *)
Definition set_type (ty : SegmentType.t) (g : Segment) : Segment :=
  mkSegment ty (from g) (to g) (val g).
Definition set_to (i : nat) (g : Segment) : Segment :=
  mkSegment (type g) (from g) i (val g).
Definition retype (ty : SegmentType.t) (s : State) : State :=
  set_currentSegment (set_type ty (currentSegment s)) s.

(** The characters a defined [c] contributes to a string ([val: c],
    [val += c]).  Every use in the scanner is behind a test that makes [c]
    defined ([c === '['], [c === '@'], [isTerminus(c)] false). *)
Definition chars_of (c : option N) : jstr :=
  match c with Some x => [x] | None => [] end.

(** [state.currentSegment.val += c] *)
Definition append (c : option N) (s : State) : State :=
  let g := currentSegment s in
  set_currentSegment
    (mkSegment (type g) (from g) (to g) (val g ++ chars_of c)) s.

(** [currentSegment: null as Segment]: the two callers of [newState] assign
    [currentSegment] before anything reads it. *)
Definition nullSegment : Segment := mkSegment SegmentType.bracket 0 0 [].

(** [function newState(): State] *)
Definition newState : State :=
  {| bracketDepth := 0;
     inBrackets := false;
     inKey := false;
     inExplicitKey := false;
     inExplicitLocator := false;
     inSuffix := false;
     inLink := false;
     seekingSuffix := false;
     seekingLocator := false;
     encounteredKey := false;
     shouldCancelSeek := false;
     segment := [];
     currentSegment := nullSegment |}.

(** The result of [s.match(re)] for a regular expression with three
    groups: [index], the whole match [[0]] and the groups [[1]], [[2]],
    [[3]].  A group that did not take part is [undefined] in JavaScript and
    the empty string here: the source tests groups 1 and 3 for truth only,
    and both values are false; it reads the length of group 2, which is
    taken to be part of every match. *)
Record RegExpMatch : Set := mkMatch {
  index : nat;
  whole : jstr;
  group1 : jstr;
  group2 : jstr;
  group3 : jstr;
}.

(** The scanner's variables [state], [seekState] and [segments]. *)
Record Scan : Set := mkScan {
  state : option State;
  seekState : option State;
  segments : list (list Segment);
}.

(** JavaScript truth of a string: it is not empty. *)
Definition truthy {A : Type} (v : list A) : bool :=
  match v with [] => false | _ :: _ => true end.

(** ** The Segmenter *)

Section Segmenter.

Variable U : Unicode.

(** [import { locators } from './locators']: the regular expression
    [locators] is declared outside the files at hand; [locators v] is the
    result of [v.match(locators)]. *)
Variable locators : jstr -> option RegExpMatch.

(** [segments.push({ from: index, to: index + v.length, val: v, type });
    index = index + v.length] *)
Definition push_span (ty : SegmentType.t) (v : jstr)
    (acc : list Segment * nat) : list Segment * nat :=
  let '(segs, idx) := acc in
  (segs ++ [mkSegment ty idx (idx + length v) v], idx + length v).

(** The same under [if (v)]. *)
Definition push_span_if (ty : SegmentType.t) (v : jstr)
    (acc : list Segment * nat) : list Segment * nat :=
  if truthy v then push_span ty v acc else acc.

(** The part shared by the two locator parsers: the separator, the label
    and the separator after it. *)
Definition label_spans (cur : Segment) (m : RegExpMatch)
    : list Segment * nat :=
  push_span_if SegmentType.locatorSuffix (group3 m)
    (push_span SegmentType.locatorLabel (group2 m)
      (push_span_if SegmentType.locatorSuffix (group1 m)
        ([], from cur))).

(** [const parsePossibleLocator = (state: State) => ...] *)
Definition parsePossibleLocator (state : State) : list Segment :=
  let cur := currentSegment state in
  match locators (val cur) with
  | Some m =>
      let acc := label_spans cur m in
      let sliced := skipn (index m + length (whole m)) (val cur) in
      match LocatorRe.exec U sliced with
      | Some loc =>
          let acc := push_span SegmentType.locator loc acc in
          let suffix := skipn (0 + length loc) sliced in
          fst (push_span_if SegmentType.suffix suffix acc)
      | None => []
      end
  | None => []
  end.

(** [const parseExplicitLocator = (state: State) => ...]; the state is
    returned too, since the parser may retype [state.currentSegment]. *)
Definition parseExplicitLocator (state : State) : list Segment * State :=
  let cur := currentSegment state in
  match locators (val cur) with
  | Some m =>
      let acc := label_spans cur m in
      let sliced := skipn (index m + length (whole m)) (val cur) in
      if truthy sliced
      then (fst (push_span SegmentType.locator sliced acc), state)
      else ([], state)
  | None => ([], retype SegmentType.locator state)
  end.

(** [const newCurrent = (i, c, type): Segment => ...] *)
Definition newCurrent (i : nat) (c : option N) (ty : SegmentType.t)
    : Segment :=
  {| from := i; to := i + 1; val := chars_of c; type := ty |}.

(** [state.currentSegment.to = i; state.segment.push(state.currentSegment)] *)
Definition push_current (i : nat) (state : State) : State :=
  let cur := set_to i (currentSegment state) in
  set_segment (segment state ++ [cur]) (set_currentSegment cur state).

Definition opt_flag (f : State -> bool) (s : option State) : bool :=
  match s with Some x => f x | None => false end.

(** [const endCurrent = (i: number) => ...] *)
Definition endCurrent (i : nat) (seekState : option State) (state : State)
    : State :=
  if seekingLocator state || opt_flag seekingLocator seekState then
    if SegmentType.eqb (type (currentSegment state)) SegmentType.suffix then
      let segs := parsePossibleLocator state in
      if truthy segs
      then set_seekingLocator false (set_segment (segment state ++ segs) state)
      else push_current i state
    else if SegmentType.eqb (type (currentSegment state))
              SegmentType.locatorSuffix then
      let '(segs, state) := parseExplicitLocator state in
      if truthy segs
      then set_seekingLocator false (set_segment (segment state ++ segs) state)
      else push_current i state
    else push_current i state
  else push_current i state.

(** [const endSegment = () => ...]: it empties the variable [state]. *)
Definition endSegment (state : State) (seekState : option State)
    (segments : list (list Segment)) : Scan :=
  mkScan None seekState
    (if encounteredKey state then segments ++ [segment state] else segments).

Variable str : jstr.
Variable ignoreLinks : bool.

Section Step.

Variable i : nat.

Let prev : option N := charAt str (Z.of_nat i - 1).
Let c : option N := charAt str (Z.of_nat i).
Let next : option N := charAt str (Z.of_nat i + 1).

(** [endCurrent(i); state.currentSegment = newCurrent(i, c, ty)] *)
Definition restart (ty : SegmentType.t) (seekState : option State)
    (state : State) : State :=
  set_currentSegment (newCurrent i c ty) (endCurrent i seekState state).

(** The block [if (state?.inBrackets) { ... }]; every path ends in
    [continue]. *)
Definition inBracketsBlock (state : State) (seekState : option State)
    (segments : list (list Segment)) : Scan :=
  if isTerminus c then mkScan None seekState segments
  else
    let state :=
      if chr_is c "]"
      then set_bracketDepth (bracketDepth state - 1) state
      else state in
    if chr_is c "]" && (bracketDepth state =? 0)%Z then
      if ignoreLinks && (inLink state || chr_is next "(") then
        mkScan None None segments
      else
        let state := endCurrent i seekState state in
        let state :=
          set_segment
            (segment state ++ [newCurrent i c SegmentType.bracket]) state in
        match seekState with
        | None => endSegment state seekState segments
        | Some sk =>
            mkScan None None (segments ++ [segment sk ++ segment state])
        end
    else if chr_is c ";" then
      mkScan
        (Some (restart SegmentType.separator seekState
                 (set_shouldCancelSeek false state)))
        seekState segments
    else if chr_is c "-" && chr_is next "@" then
      mkScan
        (Some (restart SegmentType.suppressor seekState
                 (set_shouldCancelSeek false state)))
        seekState segments
    else if chr_is c "|" && chr_is next "@" then
      mkScan
        (Some (restart SegmentType.linkSeparator seekState
                 (retype SegmentType.litNote
                    (set_shouldCancelSeek false state))))
        seekState segments
    else if chr_is c "{" then
      let state := restart SegmentType.curlyBracket seekState state in
      mkScan
        (Some (if opt_flag seekingLocator seekState
               then set_inExplicitLocator true state
               else state))
        seekState segments
    else if chr_is c "}" then
      let state :=
        if inExplicitLocator state
           && SegmentType.eqb (type (currentSegment state))
                SegmentType.suffix
        then set_seekingLocator false
               (retype SegmentType.locatorSuffix state)
        else state in
      mkScan (Some (restart SegmentType.curlyBracket seekState state))
        seekState segments
    else if chr_is prev "{" then
      let state := endCurrent i seekState state in
      let ty :=
        if seekingLocator state && encounteredKey state
        then SegmentType.locatorSuffix
        else SegmentType.suffix in
      mkScan
        (Some (set_inSuffix true
                 (set_currentSegment (newCurrent i c ty) state)))
        seekState segments
    else if chr_is prev "}" || chr_is prev "{" then
      mkScan
        (Some (set_inSuffix true
                 (restart SegmentType.suffix seekState state)))
        seekState segments
    else
      let plain :=
        if inKey state then
          mkScan
            (Some (set_seekingLocator true
                     (set_inKey false
                        (set_inSuffix true
                           (restart SegmentType.suffix seekState state)))))
            seekState segments
        else mkScan (Some (append c state)) seekState segments in
      match seekState with
      | Some _ =>
          if chr_is prev ";" then
            mkScan
              (Some (set_inSuffix false
                       (restart SegmentType.prefix seekState state)))
              seekState segments
          else if chr_is prev "[" && (bracketDepth state =? 1)%Z then
            mkScan
              (Some (set_inSuffix true
                       (restart SegmentType.suffix seekState state)))
              seekState segments
          else plain
      | None =>
          if chr_is prev "[" || chr_is prev ";" then
            mkScan (Some (restart SegmentType.prefix seekState state))
              seekState segments
          else plain
      end.

(** [if (!state.inBrackets) { endCurrent(i); endSegment(); } state = null] *)
Definition closeBare (state : State) (seekState : option State)
    (segments : list (list Segment)) : Scan :=
  if negb (inBrackets state)
  then endSegment (endCurrent i seekState state) seekState segments
  else mkScan None seekState segments.

(** [state.currentSegment = newCurrent(i, c, suffix);
    state.inSuffix = true; state.seekingLocator = true] *)
Definition toSuffix (state : State) : State :=
  set_seekingLocator true
    (set_inSuffix true
       (set_currentSegment (newCurrent i c SegmentType.suffix) state)).

(** The block [if (punct.test(c)) { ... }] inside the key block. *)
Definition punctBlock (state : State) (seekState : option State)
    (segments : list (list Segment)) : Scan :=
  if isTerminus next then closeBare state seekState segments
  else if citeTypes_test (val (currentSegment state)) then
    mkScan
      (Some (restart SegmentType.typeSeparator seekState
               (retype SegmentType.citeType state)))
      seekState segments
  else if match next with Some n => Chars.punct n | None => false end then
    let state := set_inKey false (endCurrent i seekState state) in
    if negb (inBrackets state)
    then endSegment state seekState segments
    else mkScan (Some (toSuffix state)) seekState segments
  else if Chars.test Chars.space next then
    if negb (inBrackets state) && Chars.test Chars.postKeyPunct c then
      endSegment (endCurrent i seekState state) seekState segments
    else if negb (inBrackets state) then
      endSegment state seekState segments
    else
      mkScan
        (Some (toSuffix (set_inKey false (endCurrent i seekState state))))
        seekState segments
  else mkScan (Some (append c state)) seekState segments.

(** The block [if (state?.inKey) { ... }]; its last path falls through
    to the block for brackets. *)
Definition inKeyBlock (state : State) (seekState : option State)
    (segments : list (list Segment)) : Scan :=
  if isTerminus c then closeBare state seekState segments
  else if chr_is prev "@" || chr_is prev ":" then
    if Chars.test (Chars.alphaNumeric U) c || chr_is c "_" then
      mkScan (Some (restart SegmentType.key seekState state))
        seekState segments
    else if chr_is c "{" then
      mkScan
        (Some (set_inExplicitKey true
                 (restart SegmentType.curlyBracket seekState state)))
        seekState segments
    else mkScan None seekState segments
  else if inExplicitKey state && negb (chr_is c "}") then
    if negb (SegmentType.eqb (type (currentSegment state))
               SegmentType.key)
    then mkScan (Some (restart SegmentType.key seekState state))
           seekState segments
    else mkScan (Some (append c state)) seekState segments
  else if chr_is c "}" then
    let state :=
      set_seekingLocator true
        (set_inExplicitKey true
           (set_inKey false (endCurrent i seekState state))) in
    if negb (inBrackets state) then
      mkScan
        (Some (set_shouldCancelSeek true
                 (set_seekingSuffix true
                    (set_segment
                       (segment state
                          ++ [newCurrent i c SegmentType.curlyBracket])
                       state))))
        seekState segments
    else
      mkScan
        (Some (set_inSuffix true
                 (set_currentSegment
                    (newCurrent i c SegmentType.curlyBracket) state)))
        seekState segments
  else if chr_is c "{" then
    mkScan
      (Some (set_inExplicitLocator true
               (set_seekingLocator true
                  (set_inSuffix true
                     (set_inKey false
                        (restart SegmentType.curlyBracket seekState
                           state))))))
      seekState segments
  else if Chars.test (Chars.alphaNumeric U) c then
    mkScan (Some (append c state)) seekState segments
  else if Chars.test Chars.space c then
    let state :=
      set_seekingLocator true
        (set_inKey false (endCurrent i seekState state)) in
    if negb (inBrackets state) then
      mkScan
        (Some (set_shouldCancelSeek true (set_seekingSuffix true state)))
        seekState segments
    else
      mkScan
        (Some (set_inSuffix true
                 (set_currentSegment
                    (newCurrent i c SegmentType.suffix) state)))
        seekState segments
  else if Chars.test Chars.punct c then
    punctBlock state seekState segments
  else if negb (inBrackets state) then
    if Chars.test (Chars.nonKeyPunct U) c
    then endSegment (endCurrent i seekState state) seekState segments
    else mkScan None seekState segments
  else inBracketsBlock state seekState segments.

(** The block [if (c === '@' && isValidPreKey(prev)) { ... }].  Reading
    [state.shouldCancelSeek] while [state] is [null] is a [TypeError]:
    the result is [None]. *)
Definition atBlock (sc : Scan) : option Scan :=
  let cancelled : option Scan :=
    match seekState sc with
    | Some sk =>
        match state sc with
        | None => None
        | Some st =>
            if shouldCancelSeek st
            then Some (mkScan (state sc) None
                         (segments sc ++ [segment sk]))
            else Some sc
        end
    | None => Some sc
    end in
  match cancelled with
  | None => None
  | Some sc =>
      let st :=
        match state sc with
        | Some st =>
            if inBrackets st then endCurrent i (seekState sc) st
            else newState
        | None => newState
        end in
      Some (mkScan
              (Some (set_encounteredKey true
                       (set_inKey true
                          (set_currentSegment
                             (newCurrent i c SegmentType.at_) st))))
              (seekState sc) (segments sc))
  end.

(** What follows the block for ['[']: the remaining tests of the loop
    body, in order. *)
Definition afterBracket (sc : Scan) : option Scan :=
  if chr_is c "@" && isValidPreKey prev then atBlock sc
  else
    match state sc with
    | Some st =>
        if seekingSuffix st && negb (Chars.test Chars.space c) then
          Some (endSegment st (seekState sc) (segments sc))
        else if inKey st then
          Some (inKeyBlock st (seekState sc) (segments sc))
        else if inBrackets st then
          Some (inBracketsBlock st (seekState sc) (segments sc))
        else if negb (seekingSuffix st) then
          Some (mkScan None (seekState sc) (segments sc))
        else Some sc
    | None => Some sc
    end.

(** [state = newState(); state.bracketDepth = 1; ...] of the block for
    ['[']. *)
Definition openBracket : State :=
  let st :=
    set_inBrackets true
      (set_currentSegment (newCurrent i c SegmentType.bracket)
         (set_bracketDepth 1 newState)) in
  if chr_is prev "[" then set_inLink true st else st.

(** One iteration of the loop body. *)
Definition step (sc : Scan) : option Scan :=
  if chr_is c "[" then
    match state sc with
    | None =>
        if chr_is next "[" then Some sc
        else Some (mkScan (Some openBracket) (seekState sc) (segments sc))
    | Some st =>
        let st := set_bracketDepth (bracketDepth st + 1) st in
        if (bracketDepth st =? 1)%Z then
          Some (mkScan (Some openBracket)
                  (if seekingSuffix st then Some st else seekState sc)
                  (segments sc))
        else afterBracket (mkScan (Some st) (seekState sc) (segments sc))
    end
  else afterBracket sc.

End Step.

(** [for (let i = 0, len = str.length + 1; i < len; i++) { ... }] from
    iteration [i] on, [n] iterations. *)
Fixpoint loop (n i : nat) (sc : Scan) : option Scan :=
  match n with
  | 0 => Some sc
  | S n' =>
      match step i sc with
      | Some sc' => loop n' (S i) sc'
      | None => None
      end
  end.

(** [export function getCitationSegments(str, ignoreLinks)]; [None] is an
    uncaught [TypeError]. *)
Definition getCitationSegments : option (list (list Segment)) :=
  match loop (length str + 1) 0 (mkScan None None []) with
  | Some sc =>
      Some (if opt_flag seekingSuffix (state sc)
            then segments sc
                   ++ [match state sc with
                       | Some st => segment st
                       | None => []
                       end]
            else segments sc)
  | None => None
  end.

End Segmenter.

(** ** A sample of the absent tables *)

Module Sample.

(** A character database for texts below U+0100: it puts no character from
    U+0100 on into a category. *)
Definition unicode : Unicode :=
  mkUnicode (fun _ => false) (fun _ => false) (fun _ => false)
    (fun _ _ => false).

Fixpoint span (p : N -> bool) (s : jstr) : jstr * jstr :=
  match s with
  | c :: s' =>
      if p c then let '(a, b) := span p s' in (c :: a, b) else ([], s)
  | [] => ([], [])
  end.

Definition labels : list jstr :=
  map text ["pp."; "p."; "chap."; "sec."; "vol."; "page"]%string.

(** Modelled from the spec: the regular expression [locators] of
    [./locators], which is not among the sources.  The spec describes its
    three groups as an optional leading separator span, a label out of a
    fixed vocabulary and the white space after the label; this sample
    takes commas and blanks as separators and a short vocabulary. *)
Definition locators (v : jstr) : option RegExpMatch :=
  let '(sp0, rest) := span (Chars.one_of (text ", ")) v in
  match find (fun l => starts_with l rest) labels with
  | Some label =>
      let '(sp1, _) := span Chars.space (skipn (length label) rest) in
      Some (mkMatch 0 (sp0 ++ label ++ sp1) sp0 label sp1)
  | None => None
  end.

End Sample.

(** ** The Aggregator *)

Module Citation.

(** [export interface Citation]; [None] is an absent field.  A flag is
    only ever stored as [true]. *)
Record t : Set := mk {
  prefix : option jstr;
  suffix : option jstr;
  infix : option jstr;
  locator : option jstr;
  label : option jstr;
  litNote : option jstr;
  citeType : option jstr;
  suppress_author : option bool;
  author_only : option bool;
  composite : option bool;
  id : option jstr;
}.

(** [{ id: key }] *)
Definition of_id (key : option jstr) : t :=
  mk None None None None None None None None None None key.

(** The number of flags that are set. *)
Definition flags_set (c : t) : nat :=
  length (filter (fun f => match f with Some _ => true | None => false end)
            [composite c; suppress_author c; author_only c]).

End Citation.

(** [export interface CitationGroup]; its [from] and [to] are [group_from]
    and [group_to] here, next to the fields of [Segment]. *)
Record CitationGroup : Set := mkGroup {
  data : list Segment;
  citations : list Citation.t;
  group_from : nat;
  group_to : nat;
}.

(** [export interface RenderedCitation extends CitationGroup]: the group
    and [val]; the optional [noteIndex] and [note] are never assigned by
    the code at hand. *)
Record RenderedCitation : Set := mkRendered {
  rendered_group : CitationGroup;
  rendered_val : jstr;
}.

(** [String.prototype.trim]: white space and line terminators are U+0009
    to U+000D, U+0020, U+00A0, U+1680, U+2000 to U+200A, U+2028, U+2029,
    U+202F, U+205F, U+3000 and U+FEFF. *)
Definition white (c : N) : bool :=
  Chars.between 9 13 c
  || Chars.one_of [32; 160; 5760; 8232; 8233; 8239; 8287; 12288; 65279]%N c
  || Chars.between 8192 8202 c.

Fixpoint trimStart (s : jstr) : jstr :=
  match s with
  | c :: s' => if white c then trimStart s' else s
  | [] => []
  end.

Definition trim (s : jstr) : jstr := rev (trimStart (rev (trimStart s))).

(** [if (x?.trim()) cite.f = x.trim()]: the value stored, if any. *)
Definition trimmed (x : option jstr) : option jstr :=
  match x with
  | Some v => if truthy (trim v) then Some (trim v) else None
  | None => None
  end.

(** [if (x) cite.f = x] *)
Definition nonempty (x : option jstr) : option jstr :=
  match x with
  | Some v => if truthy v then Some v else None
  | None => None
  end.

Definition flag (b : bool) : option bool := if b then Some true else None.

Section Aggregator.

(** [import { locatorToTerm } from './locators']: the table
    [locale -> label -> term] is declared outside the files at hand;
    [None] is [undefined]. *)
Variable locatorToTerm : jstr -> option (jstr -> option jstr).

Variable locale : jstr.

(** [label && locatorToTerm[locale] && locatorToTerm[locale][label]],
    and the term stored when that is true. *)
Definition resolve (label : option jstr) : option jstr :=
  match nonempty label with
  | Some l =>
      match locatorToTerm locale with
      | Some terms => nonempty (terms l)
      | None => None
      end
  | None => None
  end.

(** The variables of [getCitations] that its closure [push] and its loop
    share. *)
Record Vars : Set := mkVars {
  cites : list Citation.t;
  key : option jstr;
  prefix : option jstr;
  suffix : option jstr;
  infix : option jstr;
  locator : option jstr;
  label : option jstr;
  litNote : option jstr;
  citeType : option jstr;
  suppressAuthor : bool;
  onlyAuthor : bool;
  composite : bool;
}.

Definition init : Vars :=
  mkVars [] None None None None None None None None false false false.

(** The record [cite] that [push] builds. *)
Definition cite_of (v : Vars) : Citation.t :=
  {| Citation.id := key v;
     Citation.prefix := trimmed (prefix v);
     Citation.suffix := trimmed (suffix v);
     Citation.infix := trimmed (infix v);
     Citation.litNote := trimmed (litNote v);
     Citation.citeType := trimmed (citeType v);
     Citation.locator := nonempty (locator v);
     Citation.label := resolve (label v);
     Citation.composite := flag (composite v);
     Citation.suppress_author :=
       flag (negb (composite v) && suppressAuthor v);
     Citation.author_only :=
       flag (negb (composite v) && negb (suppressAuthor v) && onlyAuthor v)
  |}.

(** [const push = () => ...] *)
Definition push (v : Vars) : Vars :=
  mkVars (cites v ++ [cite_of v]) (key v) (prefix v) (suffix v) (infix v)
    (locator v) (label v) (litNote v) (citeType v) false false false.

(** The body of the loop for [seg = segments[i]]. *)
Definition visit (i : nat) (seg : Segment) (v : Vars) : Vars :=
  match type seg with
  | SegmentType.at_ =>
      if i =? 0
      then mkVars (cites v) (key v) (prefix v) (suffix v) (infix v)
             (locator v) (label v) (litNote v) (citeType v)
             (suppressAuthor v) (onlyAuthor v) true
      else v
  | SegmentType.suppressor =>
      let v :=
        if composite v
        then push (mkVars (cites v) (key v) (prefix v) None (infix v)
                     None None (litNote v) (citeType v)
                     (suppressAuthor v) true false)
        else v in
      mkVars (cites v) (key v) (prefix v) (suffix v) (infix v)
        (locator v) (label v) (litNote v) (citeType v)
        true (onlyAuthor v) (composite v)
  | SegmentType.separator =>
      let v := push v in
      mkVars (cites v) (key v) None None None None None None (citeType v)
        false false false
  | SegmentType.key =>
      mkVars (cites v) (Some (val seg)) (prefix v) (suffix v) (infix v)
        (locator v) (label v) (litNote v) (citeType v)
        (suppressAuthor v) (onlyAuthor v) (composite v)
  | SegmentType.prefix =>
      mkVars (cites v) (key v) (Some (val seg)) (suffix v) (infix v)
        (locator v) (label v) (litNote v) (citeType v)
        (suppressAuthor v) (onlyAuthor v) (composite v)
  | SegmentType.suffix =>
      mkVars (cites v) (key v) (prefix v) (Some (val seg)) (infix v)
        (locator v) (label v) (litNote v) (citeType v)
        (suppressAuthor v) (onlyAuthor v) (composite v)
  | SegmentType.locator =>
      mkVars (cites v) (key v) (prefix v) (suffix v) (infix v)
        (Some (val seg)) (label v) (litNote v) (citeType v)
        (suppressAuthor v) (onlyAuthor v) (composite v)
  | SegmentType.locatorLabel =>
      mkVars (cites v) (key v) (prefix v) (suffix v) (infix v)
        (locator v) (Some (val seg)) (litNote v) (citeType v)
        (suppressAuthor v) (onlyAuthor v) (composite v)
  | SegmentType.litNote =>
      mkVars (cites v) (key v) (prefix v) (suffix v) (infix v)
        (locator v) (label v) (Some (val seg)) (citeType v)
        (suppressAuthor v) (onlyAuthor v) true
  | SegmentType.citeType =>
      mkVars (cites v) (key v) (prefix v) (suffix v) (infix v)
        (locator v) (label v) (litNote v) (Some (val seg))
        (suppressAuthor v) (onlyAuthor v) (composite v)
  | _ => v
  end.

(** [for (let i = 0; i < segments.length; i++) { ... }] from index [i]. *)
Fixpoint visit_all (i : nat) (segs : list Segment) (v : Vars) : Vars :=
  match segs with
  | [] => v
  | seg :: rest => visit_all (S i) rest (visit i seg v)
  end.

(** [export function getCitations(segments, locale)]; reading
    [segments[0].from] of an empty list is a [TypeError]: [None]. *)
Definition getCitations (segments : list Segment) : option CitationGroup :=
  let v := push (visit_all 0 segments init) in
  match segments with
  | first :: _ =>
      Some {| data := segments;
              citations := cites v;
              group_from := from first;
              group_to := to (last segments first) |}
  | [] => None
  end.

End Aggregator.

(** ** The Crossref Renderer *)

(** [String(x)] of a possibly undefined string, as in ["[" + label]. *)
Definition to_string (x : option jstr) : jstr :=
  match x with Some v => v | None => text "undefined" end.

(** [xs.join(sep)]: an undefined element is joined as the empty string. *)
Fixpoint join (sep : jstr) (xs : list (option jstr)) : jstr :=
  match xs with
  | [] => []
  | [x] => match x with Some v => v | None => [] end
  | x :: rest =>
      match x with Some v => v | None => [] end ++ sep ++ join sep rest
  end.

(** [s.citations.some((c) => citeTypes.test(c.citeType))] *)
Definition isCrossref (s : CitationGroup) : bool :=
  existsb (fun c => citeTypes_test_opt (Citation.citeType c)) (citations s).

(** The [switch] on the first citation's [citeType]: the new value of the
    variable [label]. *)
Definition pick_label (label : option jstr) (citation : CitationGroup)
    (first : Citation.t) : option jstr :=
  let many := 1 <? length (citations citation) in
  let is_type (s : string) :=
    match Citation.citeType first with
    | Some v => str_eqb v (text s)
    | None => false
    end in
  let pick (one more : string) := Some (text (if many then more else one)) in
  if is_type "fig"%string then pick "Figure "%string "Figures "%string
  else if is_type "eq"%string then pick "Equation "%string "Equations "%string
  else if is_type "tbl"%string then pick "Table "%string "Tables "%string
  else if is_type "sec"%string then pick "Section "%string "Sections "%string
  else label.

(** The loop over [crossrefType]; [label] is declared outside the loop and
    keeps its value from one iteration to the next.  [citations[0]] of an
    empty list is [undefined] and reading its [citeType] a [TypeError]:
    [None]. *)
Fixpoint render_all (label : option jstr) (crossrefType : list CitationGroup)
    : option (list RenderedCitation) :=
  match crossrefType with
  | [] => Some []
  | citation :: rest =>
      match citations citation with
      | first :: _ =>
          let label := pick_label label citation first in
          let citeId :=
            join (text ", ") (map Citation.id (citations citation)) in
          let citeLabel := text "[" ++ to_string label ++ citeId ++ text "]" in
          match render_all label rest with
          | Some cites => Some (mkRendered citation citeLabel :: cites)
          | None => None
          end
      | [] => None
      end
  end.

(** [export function renderCrossrefType(group: CitationGroup[])] *)
Definition renderCrossrefType (group : list CitationGroup)
    : option (list RenderedCitation) :=
  render_all None (filter isCrossref group).

Module SampleTerms.

(** Modelled from the spec: the table [locatorToTerm] of [./locators],
    which is not among the sources; the spec describes it as
    [locale -> label -> display term].  This sample knows one locale and
    the page labels. *)
Definition locatorToTerm (locale : jstr) : option (jstr -> option jstr) :=
  if str_eqb locale (text "en-US") then
    Some (fun label =>
            if str_eqb label (text "p.") || str_eqb label (text "pp.")
            then Some (text "page")
            else None)
  else None.

End SampleTerms.

(** ** The caller's pipeline *)

(** Each group of the Segmenter handed to the Aggregator, as the callers
    do. *)
Fixpoint aggregate (locatorToTerm : jstr -> option (jstr -> option jstr))
    (locale : jstr) (groups : list (list Segment))
    : option (list CitationGroup) :=
  match groups with
  | [] => Some []
  | g :: rest =>
      match getCitations locatorToTerm locale g,
            aggregate locatorToTerm locale rest with
      | Some G, Some Gs => Some (G :: Gs)
      | _, _ => None
      end
  end.

(** Segmenter, then Aggregator, then Crossref Renderer: the display
    strings. *)
Definition rendered_vals (U : Unicode)
    (locators : jstr -> option RegExpMatch)
    (locatorToTerm : jstr -> option (jstr -> option jstr)) (locale : jstr)
    (str : jstr) (ignoreLinks : bool) : option (list jstr) :=
  match getCitationSegments U locators str ignoreLinks with
  | Some groups =>
      match aggregate locatorToTerm locale groups with
      | Some Gs => option_map (map rendered_val) (renderCrossrefType Gs)
      | None => None
      end
  | None => None
  end.

(** ** Properties of segments and groups *)

Definition has_type (ty : SegmentType.t) (g : Segment) : bool :=
  SegmentType.eqb (type g) ty.

(** A group contains a segment of type [key]. *)
Definition has_key (g : list Segment) : bool :=
  existsb (has_type SegmentType.key) g.

(** The span of a group, as [getCitations] computes it:
    [segments[0].from] and [segments[segments.length - 1].to]. *)
Definition span (g : list Segment) : option (nat * nat) :=
  match g with
  | first :: _ => Some (from first, to (last g first))
  | [] => None
  end.

(** The [val]s of a group, concatenated in order. *)
Definition vals (g : list Segment) : jstr := concat (map val g).

(** Each segment starts where the one before it ends. *)
Fixpoint contiguous (g : list Segment) : Prop :=
  match g with
  | a :: (b :: _) as rest => to a = from b /\ contiguous rest
  | _ => True
  end.

(** Sorted by position and pairwise disjoint. *)
Definition sorted (g : list Segment) : Prop :=
  forall a b x y, a < b ->
    nth_error g a = Some x -> nth_error g b = Some y -> to x <= from y.

Section Wellformed.

Variable str : jstr.

(** A segment lies inside the text and carries the text it spans. *)
Definition seg_ok (g : Segment) : Prop :=
  from g < to g /\ to g <= length str /\ val g = slice str (from g) (to g).

(** Segments in order between [lo] and [hi], each of them [seg_ok]. *)
Fixpoint chain (lo : nat) (l : list Segment) (hi : nat) : Prop :=
  match l with
  | [] => lo <= hi
  | g :: r => lo <= from g /\ seg_ok g /\ chain (to g) r hi
  end.

End Wellformed.

(** What the scanner relies on when it turns a match of [locators] into
    spans: the match starts the string, its three groups follow one
    another and make up the whole match, and the label is not empty. *)
Definition locators_ok (locators : jstr -> option RegExpMatch) : Prop :=
  forall v m, locators v = Some m ->
    index m = 0
    /\ whole m = group1 m ++ group2 m ++ group3 m
    /\ (exists rest, v = whole m ++ rest)
    /\ group2 m <> [].

(** Some citation of the group has a [citeType] in which [fig], [tbl],
    [eq] or [sec] occurs. *)
Definition has_crossref_type (G : CitationGroup) : bool :=
  existsb
    (fun c =>
       match Citation.citeType c with
       | Some ty =>
           existsb (fun p => includes (text p) ty)
             ["fig"; "tbl"; "eq"; "sec"]%string
       | None => false
       end)
    (citations G).

(** The first citation of the group has such a [citeType]. *)
Definition first_has_crossref_type (G : CitationGroup) : bool :=
  match citations G with
  | c :: _ =>
      match Citation.citeType c with
      | Some ty =>
          existsb (fun p => includes (text p) ty)
            ["fig"; "tbl"; "eq"; "sec"]%string
      | None => false
      end
  | [] => false
  end.

(** The label of a crossref type for a group of [n] citations. *)
Definition type_label (ty : jstr) (n : nat) : option jstr :=
  let pick (one more : string) := Some (text (if 1 <? n then more else one)) in
  if str_eqb ty (text "fig") then pick "Figure "%string "Figures "%string
  else if str_eqb ty (text "tbl") then pick "Table "%string "Tables "%string
  else if str_eqb ty (text "eq")
  then pick "Equation "%string "Equations "%string
  else if str_eqb ty (text "sec")
  then pick "Section "%string "Sections "%string
  else None.

(** The label has no mapping under the locale. *)
Definition unmapped (locatorToTerm : jstr -> option (jstr -> option jstr))
    (locale label : jstr) : Prop :=
  match locatorToTerm locale with
  | Some terms => terms label = None
  | None => True
  end.

(** A citation without its [label] field. *)
Definition without_label (c : Citation.t) : Citation.t :=
  Citation.mk (Citation.prefix c) (Citation.suffix c) (Citation.infix c)
    (Citation.locator c) None (Citation.litNote c) (Citation.citeType c)
    (Citation.suppress_author c) (Citation.author_only c)
    (Citation.composite c) (Citation.id c).

(** ** Segment lists used in the examples *)

Module Examples.

(** The segments of the bare citation [@doe2020]. *)
Definition bare : list Segment :=
  [mkSegment SegmentType.at_ 0 1 (text "@");
   mkSegment SegmentType.key 1 8 (text "doe2020")].

(** The segments of the bracketed citation [[@doe2020]]. *)
Definition bracketed : list Segment :=
  [mkSegment SegmentType.bracket 0 1 (text "[");
   mkSegment SegmentType.at_ 1 2 (text "@");
   mkSegment SegmentType.key 2 9 (text "doe2020");
   mkSegment SegmentType.bracket 9 10 (text "]")].

(** The only segment of the group that the text [@] yields. *)
Definition lone_at : list Segment :=
  [mkSegment SegmentType.at_ 0 1 (text "@")].

(** The segments of [@a []]: a bare citation merged with the bracket group
    after it. *)
Definition merged : list Segment :=
  [mkSegment SegmentType.at_ 0 1 (text "@");
   mkSegment SegmentType.key 1 2 (text "a");
   mkSegment SegmentType.bracket 3 4 (text "[");
   mkSegment SegmentType.bracket 4 5 (text "]")].

(** The segments of [[@fig:plot1]]. *)
Definition figure : list Segment :=
  [mkSegment SegmentType.bracket 0 1 (text "[");
   mkSegment SegmentType.at_ 1 2 (text "@");
   mkSegment SegmentType.citeType 2 5 (text "fig");
   mkSegment SegmentType.typeSeparator 5 6 (text ":");
   mkSegment SegmentType.key 6 11 (text "plot1");
   mkSegment SegmentType.bracket 11 12 (text "]")].

(** A citation with an [id] and nothing else but, possibly, the flag
    [composite] and a [citeType]. *)
Definition cite (id : string) (composite : bool) (citeType : option string)
    : Citation.t :=
  Citation.mk None None None None None None (option_map text citeType)
    None None (flag composite) (Some (text id)).

(** The segments of [[@doe2020, p. 12]], with the given label in the
    place of [p.]. *)
Definition labelled (label : string) : list Segment :=
  [mkSegment SegmentType.bracket 0 1 (text "[");
   mkSegment SegmentType.at_ 1 2 (text "@");
   mkSegment SegmentType.key 2 9 (text "doe2020");
   mkSegment SegmentType.locatorSuffix 9 11 (text ", ");
   mkSegment SegmentType.locatorLabel 11 13 (text label);
   mkSegment SegmentType.locatorSuffix 13 14 (text " ");
   mkSegment SegmentType.locator 14 16 (text "12");
   mkSegment SegmentType.bracket 16 17 (text "]")].

End Examples.

Module CrossrefExamples.

(** The segments of [[@a;@fig:b]]. *)
Definition mixed_segments : list Segment :=
  [mkSegment SegmentType.bracket 0 1 (text "[");
   mkSegment SegmentType.at_ 1 2 (text "@");
   mkSegment SegmentType.key 2 3 (text "a");
   mkSegment SegmentType.separator 3 4 (text ";");
   mkSegment SegmentType.at_ 4 5 (text "@");
   mkSegment SegmentType.citeType 5 8 (text "fig");
   mkSegment SegmentType.typeSeparator 8 9 (text ":");
   mkSegment SegmentType.key 9 10 (text "b");
   mkSegment SegmentType.bracket 10 11 (text "]")].

(** The group that the Aggregator makes of them: the first citation has no
    [citeType], the second has [fig]. *)
Definition mixed : CitationGroup :=
  mkGroup mixed_segments
    [Examples.cite "a" false None; Examples.cite "b" false (Some "fig"%string)]
    0 11.

End CrossrefExamples.

Module LinkExamples.

(** The text of a citation used as the text of a Markdown link. *)
Definition link : jstr := text "[@doe2020](http://x)".

(** A bare citation with a wiki link after it. *)
Definition after_bare : jstr := text "@a [[Some Page]]".

(** The group that the Segmenter makes of it, also with [ignoreLinks]: the
    citation and, from the first ['['] on, the link. *)
Definition after_bare_group : list Segment :=
  [mkSegment SegmentType.at_ 0 1 (text "@");
   mkSegment SegmentType.key 1 2 (text "a");
   mkSegment SegmentType.bracket 3 15 (text "[[Some Page]");
   mkSegment SegmentType.bracket 15 16 (text "]")].

(** A wiki link to a literature note, with its citation. *)
Definition note_link : jstr := text "[[notes|@b]]".

(** The group of [note_link] when links are not ignored. *)
Definition note_link_group : list Segment :=
  [mkSegment SegmentType.bracket 1 2 (text "[");
   mkSegment SegmentType.litNote 2 7 (text "notes");
   mkSegment SegmentType.linkSeparator 7 8 (text "|");
   mkSegment SegmentType.at_ 8 9 (text "@");
   mkSegment SegmentType.key 9 10 (text "b");
   mkSegment SegmentType.bracket 10 11 (text "]")].

(** The group of [@a [[notes|@b]]] under the sample of [locators], with
    or without [ignoreLinks]. *)
Definition note_after_bare_group : list Segment :=
  [mkSegment SegmentType.at_ 0 1 (text "@");
   mkSegment SegmentType.key 1 2 (text "a");
   mkSegment SegmentType.litNote 3 10 (text "[[notes");
   mkSegment SegmentType.linkSeparator 10 11 (text "|");
   mkSegment SegmentType.at_ 11 12 (text "@");
   mkSegment SegmentType.key 12 13 (text "b");
   mkSegment SegmentType.suffix 13 14 (text "]");
   mkSegment SegmentType.bracket 14 15 (text "]")].

End LinkExamples.

Module MergedExamples.

(** A bare citation followed by a bracketed locator. *)
Definition input : jstr := text "@key [p. 4]".

(** The one group that the Segmenter makes of it under the sample of
    [locators]: the bare citation merged with the bracket group. *)
Definition group : list Segment :=
  [mkSegment SegmentType.at_ 0 1 (text "@");
   mkSegment SegmentType.key 1 4 (text "key");
   mkSegment SegmentType.bracket 5 6 (text "[");
   mkSegment SegmentType.locatorLabel 6 8 (text "p.");
   mkSegment SegmentType.locatorSuffix 8 9 (text " ");
   mkSegment SegmentType.locator 9 10 (text "4");
   mkSegment SegmentType.bracket 10 11 (text "]")].

(** Two citations in one text. *)
Definition two : jstr := text "see [@a, p. 4] and @b.".

Definition two_groups : list (list Segment) :=
  [[mkSegment SegmentType.bracket 4 5 (text "[");
    mkSegment SegmentType.at_ 5 6 (text "@");
    mkSegment SegmentType.key 6 7 (text "a");
    mkSegment SegmentType.locatorSuffix 7 9 (text ", ");
    mkSegment SegmentType.locatorLabel 9 11 (text "p.");
    mkSegment SegmentType.locatorSuffix 11 12 (text " ");
    mkSegment SegmentType.locator 12 13 (text "4");
    mkSegment SegmentType.bracket 13 14 (text "]")];
   [mkSegment SegmentType.at_ 19 20 (text "@");
    mkSegment SegmentType.key 20 21 (text "b")]].

End MergedExamples.

(** ** [getSegmentData] and [onlyKey] *)

Module SegmentData.

(** The object that [getSegmentData] returns; [None] is a variable that
    was never assigned. *)
Record t : Set := mk {
  key : option jstr;
  locator : option jstr;
  locatorLabel : option jstr;
  prefix : option jstr;
  suffix : option jstr;
  litNote : option jstr;
  citeType : option jstr;
}.

(** The variables as declared: all of them [undefined]. *)
Definition undefined : t := mk None None None None None None None.

(** The body of the loop for one segment: the first test that holds
    assigns, the others are skipped by [continue]. *)
Definition assign (d : t) (seg : Segment) : t :=
  match type seg with
  | SegmentType.prefix =>
      mk (key d) (locator d) (locatorLabel d) (Some (val seg)) (suffix d)
        (litNote d) (citeType d)
  | SegmentType.litNote =>
      mk (key d) (locator d) (locatorLabel d) (prefix d) (suffix d)
        (Some (val seg)) (citeType d)
  | SegmentType.citeType =>
      mk (key d) (locator d) (locatorLabel d) (prefix d) (suffix d)
        (litNote d) (Some (val seg))
  | SegmentType.locator =>
      mk (key d) (Some (val seg)) (locatorLabel d) (prefix d) (Some [])
        (litNote d) (citeType d)
  | SegmentType.locatorLabel =>
      mk (key d) (locator d) (Some (val seg)) (prefix d) (suffix d)
        (litNote d) (citeType d)
  | SegmentType.key =>
      mk (Some (val seg)) (locator d) (locatorLabel d) (prefix d) (suffix d)
        (litNote d) (citeType d)
  | SegmentType.suffix =>
      mk (key d) (locator d) (locatorLabel d) (prefix d) (Some (val seg))
        (litNote d) (citeType d)
  | _ => d
  end.

End SegmentData.

(** [export function getSegmentData(segments: Segment[])] *)
Definition getSegmentData (segments : list Segment) : SegmentData.t :=
  fold_left SegmentData.assign segments SegmentData.undefined.

(** [function onlyKey(segs: Segment[])], declared alike in
    [editorExtension.ts] and in [markdownPostprocessor.ts]; an object
    [{ type, val }] is a pair. *)
Definition onlyKey (segs : list Segment) : list (SegmentType.t * jstr) :=
  let valType := map (fun s => (type s, val s)) segs in
  filter (fun s => SegmentType.eqb (fst s) SegmentType.key) valType.

(** ** Notions for the properties of these functions *)

(** The number of segments of a type. *)
Definition count_type (ty : SegmentType.t) (segs : list Segment) : nat :=
  length (filter (has_type ty) segs).

(** The last segment of a type, if there is one. *)
Definition last_of (ty : SegmentType.t) (segs : list Segment)
    : option Segment :=
  find (has_type ty) (rev segs).

(** The texts of the [key] segments, in order. *)
Definition key_vals (segs : list Segment) : list jstr :=
  map val (filter (has_type SegmentType.key) segs).

(** A text with a first and a last character, neither of them white
    space. *)
Definition tight (s : jstr) : Prop :=
  s <> []
  /\ (forall c, hd_error s = Some c -> white c = false)
  /\ (forall c, hd_error (rev s) = Some c -> white c = false).

(** The same of a field that may be absent. *)
Definition tight_field (x : option jstr) : Prop :=
  match x with Some s => tight s | None => True end.

(** The labels that [renderCrossrefType] writes: the eight of its
    [switch], and [undefined] as a string for a label never assigned. *)
Definition crossref_labels : list jstr :=
  text "undefined"
  :: map text ["Figure "; "Figures "; "Equation "; "Equations ";
               "Table "; "Tables "; "Section "; "Sections "]%string.

(** ** Notions for the proofs about the Aggregator *)

(** [x] is absent or the text of a [key] segment of [all]. *)
Definition keyed (all : list Segment) (x : option jstr) : Prop :=
  x = None
  \/ exists s, In s all /\ type s = SegmentType.key /\ x = Some (val s).

(** The state in which a group that starts with ['@'] leaves the loop's
    variables: no record yet and [composite] set, or a first record that
    is composite or author-only. *)
Definition bare_first (v : Vars) : Prop :=
  (cites v = [] /\ composite v = true /\ suppressAuthor v = false)
  \/ exists c rest,
       cites v = c :: rest
       /\ (Citation.composite c = Some true
           \/ Citation.author_only c = Some true).

(** The loop's variables and the variables of [getSegmentData] agree;
    [b] tells whether the two [suffix] variables are compared too. *)
Definition agree (b : bool) (v : Vars) (d : SegmentData.t) : Prop :=
  cites v = []
  /\ key v = SegmentData.key d
  /\ prefix v = SegmentData.prefix d
  /\ locator v = SegmentData.locator d
  /\ label v = SegmentData.locatorLabel d
  /\ litNote v = SegmentData.litNote d
  /\ citeType v = SegmentData.citeType d
  /\ (b = true -> suffix v = SegmentData.suffix d).

(** ** Notions for more properties of the Segmenter *)

(** A group holds a segment for an ['@']. *)
Definition has_at (g : list Segment) : bool :=
  existsb (has_type SegmentType.at_) g.

(** A state that has met no ['@']. *)
Definition calm (st : State) : Prop :=
  encounteredKey st = false /\ inKey st = false /\ seekingSuffix st = false.

(** The scanner's variables as long as the text had no ['@']. *)
Definition quiet (sc : Scan) : Prop :=
  seekState sc = None
  /\ segments sc = []
  /\ forall st, state sc = Some st -> calm st.

(** A state that reads a citation or has read one. *)
Definition marked (st : State) : bool :=
  encounteredKey st || inKey st || seekingSuffix st.

(** The state opened by the ['@'] just before index [i]: the ['@'] is
    still the current segment. *)
Definition fresh_at (str : jstr) (i : nat) (st : State) : Prop :=
  has_type SegmentType.at_ (currentSegment st) = true
  /\ inKey st = true
  /\ seekingSuffix st = false
  /\ chr_is (charAt str (Z.of_nat i - 1)) "@" = true.

(** A state of a citation holds the segment of its ['@']. *)
Definition holds_at (str : jstr) (i : nat) (st : State) : Prop :=
  (seekingSuffix st = true -> inBrackets st = false)
  /\ (marked st = true ->
      has_at (segment st) = true \/ fresh_at str i st).

(** The invariant of the loop before iteration [i], as far as ['@'] is
    concerned. *)
Definition At (str : jstr) (i : nat) (sc : Scan) : Prop :=
  Forall (fun g => has_at g = true) (segments sc)
  /\ (forall sk, seekState sc = Some sk -> has_at (segment sk) = true)
  /\ (forall st, state sc = Some st -> holds_at str i st).



Module ParserExamples.

(** A state whose current segment is the suffix of [[@doe2020, p. 12 and
    more]]. *)
Definition in_suffix : State :=
  set_currentSegment
    (mkSegment SegmentType.suffix 9 25 (text ", p. 12 and more")) newState.


End ParserExamples.

(** ** Notions for the matcher of [locatorRe] *)

(** The code units that a match of an expression may hold: those that one
    of its classes accepts, and the halves of a pair of surrogates. *)
Fixpoint accepts (r : Re.re) (c : N) : bool :=
  match r with
  | Re.Cls p _ => p c || Chars.surrogate c
  | Re.Cat a b | Re.Alt a b => accepts a c || accepts b c
  | Re.Opt a | Re.Star a => accepts a c
  end.

(** The code units of a locator: a letter from [a] to [z] in either case
    (or what folds to one), a number, a bracket or parenthesis, a dash or
    colon, a comma, a blank or tab, and the halves of a character beyond
    U+FFFF. *)
Definition locator_char (U : Unicode) (c : N) : bool :=
  LocatorRe.az c || Chars.cat_N U c
  || Chars.one_of (text "()[]") c
  || Chars.one_of (text "-:") c || (c =? 8212)%N
  || Chars.one_of [ch " "; Chars.TAB] c || (c =? ch ",")%N
  || Chars.surrogate c.

(** A decimal digit of ASCII. *)
Definition ascii_digit (c : N) : bool := Chars.between 48 57 c.

(** A text at which a locator ends: the empty text, or one that starts
    with a character that no locator holds. *)
Definition ends_locator (U : Unicode) (rest : jstr) : bool :=
  match rest with
  | [] => true
  | c :: _ => negb (locator_char U c)
  end.

(** The four citation types of the Crossref Renderer, each with the label
    it gives to a single citation. *)
Definition crossref_types : list (string * string) :=
  [("fig", "Figure "); ("eq", "Equation "); ("tbl", "Table ");
   ("sec", "Section ")]%string.

(** The test that leads to the block for ['@'] at index [i]: the character
    is an ['@'], and it stands at the start of the text or after a
    character of [preKey]. *)
Definition opens_citation (str : jstr) (i : nat) : bool :=
  chr_is (charAt str (Z.of_nat i)) "@"
  && isValidPreKey (charAt str (Z.of_nat i - 1)).

(** No index of the text passes that test. *)
Definition no_citation_start (str : jstr) : bool :=
  forallb (fun i => negb (opens_citation str i)) (seq 0 (length str)).

(** ** Notions for the citations of a group with several of them *)





Module LabelExamples.

(** The segments of [[@a, p. 2; @b, chap. 1]] up to the separator. *)
Definition first : list Segment :=
  [mkSegment SegmentType.bracket 0 1 (text "[");
   mkSegment SegmentType.at_ 1 2 (text "@");
   mkSegment SegmentType.key 2 3 (text "a");
   mkSegment SegmentType.locatorSuffix 3 5 (text ", ");
   mkSegment SegmentType.locatorLabel 5 7 (text "p.");
   mkSegment SegmentType.locatorSuffix 7 8 (text " ");
   mkSegment SegmentType.locator 8 9 (text "2");
   mkSegment SegmentType.separator 9 10 (text ";")].

(** The label of the second citation. *)
Definition chap : Segment :=
  mkSegment SegmentType.locatorLabel 15 20 (text "chap.").

(** The segments after the separator. *)
Definition second : list Segment :=
  [mkSegment SegmentType.prefix 10 11 (text " ");
   mkSegment SegmentType.at_ 11 12 (text "@");
   mkSegment SegmentType.key 12 13 (text "b");
   mkSegment SegmentType.locatorSuffix 13 15 (text ", ");
   chap;
   mkSegment SegmentType.locatorSuffix 20 21 (text " ");
   mkSegment SegmentType.locator 21 22 (text "1");
   mkSegment SegmentType.bracket 22 23 (text "]")].

(** The two citations under the sample table, which maps [p.] and not
    [chap.]. *)
Definition cites : list Citation.t :=
  [Citation.mk None None None (Some (text "2")) (Some (text "page")) None
     None None None None (Some (text "a"));
   Citation.mk None None None (Some (text "1")) None None None None None
     None (Some (text "b"))].

End LabelExamples.

(** ** Notions for the text of a group *)

(** Segments one after the other without a gap, from index [f] to index
    [t]. *)
Fixpoint joined (f : nat) (l : list Segment) (t : nat) : Prop :=
  match l with
  | [] => f = t
  | g :: r => from g = f /\ joined (to g) r t
  end.

(** The first segment, if there is one, is the segment of an ['@']. *)
Definition at_first (l : list Segment) : Prop :=
  forall s, hd_error l = Some s -> type s = SegmentType.at_.

(** The segments that one state collects, from index [f] to index [t]:
    they are joined; read inside brackets ([br]) they start at a ['['] of
    the text, and otherwise with the segment of an ['@']. *)
Definition run (str : jstr) (br : bool) (f : nat) (l : list Segment)
    (t : nat) : Prop :=
  joined f l t
  /\ if br then chr_is (charAt str (Z.of_nat f)) "[" = true
     else at_first l.

(** The segments of a state, with the one it accumulates unless it waits
    for a bracket. *)
Definition held (st : State) : list Segment :=
  if seekingSuffix st then segment st
  else segment st ++ [currentSegment st].

Definition glued_state (str : jstr) (st : State) : Prop :=
  exists f t, run str (inBrackets st) f (held st) t.

(** A group is the run of a bare citation, the run of a bracket group, or
    the first followed by the second. *)
Definition glued (str : jstr) (g : list Segment) : Prop :=
  exists bare rest,
    g = bare ++ rest
    /\ (exists f e, run str false f bare e)
    /\ (rest = [] \/ exists p t, run str true p rest t).

(** The invariant of the loop, as far as gaps are concerned. *)
Definition Glue (str : jstr) (sc : Scan) : Prop :=
  Forall (glued str) (segments sc)
  /\ (forall sk, seekState sc = Some sk ->
        exists f t, run str false f (segment sk) t)
  /\ (forall st, state sc = Some st -> glued_state str st).

(** ** Auxiliary notions for the proofs *)

(** The variable [label] of [getCitations] holds nothing that the table
    maps. *)
Definition label_unmapped (locatorToTerm : jstr -> option (jstr -> option jstr))
    (locale : jstr) (v : Vars) : Prop :=
  match label v with
  | Some l => unmapped locatorToTerm locale l
  | None => True
  end.

Definition no_label (c : Citation.t) : Prop := Citation.label c = None.

(** What a run of the loop leaves in the variables, the labels of the
    records in [cites] apart. *)
Definition label_free (v : Vars) :=
  (map without_label (cites v), key v, prefix v, suffix v, infix v,
   locator v, label v, (litNote v, citeType v, suppressAuthor v,
   onlyAuthor v, composite v)).

(** The spans [(type, text)] laid out one after the other from index
    [f]. *)
Fixpoint tile (f : nat) (pieces : list (SegmentType.t * jstr))
    : list Segment :=
  match pieces with
  | [] => []
  | (ty, v) :: rest =>
      mkSegment ty f (f + length v) v :: tile (f + length v) rest
  end.

Definition texts (pieces : list (SegmentType.t * jstr)) : jstr :=
  concat (map snd pieces).

(** A span, unless its text is empty. *)
Definition piece_if (ty : SegmentType.t) (v : jstr)
    : list (SegmentType.t * jstr) :=
  if truthy v then [(ty, v)] else [].

(** The spans of [label_spans]. *)
Definition label_pieces (m : RegExpMatch) : list (SegmentType.t * jstr) :=
  piece_if SegmentType.locatorSuffix (group1 m)
    ++ [(SegmentType.locatorLabel, group2 m)]
    ++ piece_if SegmentType.locatorSuffix (group3 m).

(** The segments that [endCurrent] adds to [state.segment]. *)
Definition pushed (U : Unicode) (locators : jstr -> option RegExpMatch)
    (i : nat)
    (seekState : option State) (state : State) : list Segment :=
  skipn (length (segment state))
    (segment (endCurrent U locators i seekState state)).

Definition segs_of (s : option State) : list Segment :=
  match s with Some x => segment x | None => [] end.

Section Invariant.

Variable str : jstr.

(** The segment being accumulated at index [i]: it starts before [i] and
    its [val] is the text from its start up to [i]. *)
Definition open_ok (i : nat) (g : Segment) : Prop :=
  from g < i /\ i <= length str /\ val g = slice str (from g) i.

(** A state whose [currentSegment] is being accumulated; [X] is what has
    been emitted or is held by [seekState]. *)
Definition live (X : list Segment) (i : nat) (st : State) : Prop :=
  seekingSuffix st = false
  /\ chain str 0 (X ++ segment st) (from (currentSegment st))
  /\ open_ok i (currentSegment st)
  /\ (inKey st = true -> segment st = [] ->
      val (currentSegment st) = [ch "@"]).

(** A bare citation whose key has ended and that waits for a bracket. *)
Definition seeking (X : list Segment) (i : nat) (st : State) : Prop :=
  seekingSuffix st = true
  /\ inKey st = false
  /\ inBrackets st = false
  /\ segment st <> []
  /\ chain str 0 (X ++ segment st) i.

(** The invariant of the loop before iteration [i]. *)
Definition Inv (i : nat) (sc : Scan) : Prop :=
  Forall (fun g => g <> []) (segments sc)
  /\ (forall sk, seekState sc = Some sk ->
        segment sk <> []
        /\ forall st, state sc = Some st -> inBrackets st = true)
  /\ match state sc with
     | Some st =>
         live (concat (segments sc) ++ segs_of (seekState sc)) i st
         \/ seeking (concat (segments sc) ++ segs_of (seekState sc)) i st
     | None =>
         chain str 0 (concat (segments sc) ++ segs_of (seekState sc)) i
     end.

End Invariant.

(** What the blocks of the loop body need of the state [st] they work on,
    of [seekState] and of the output so far. *)
Definition pre (str : jstr) (i : nat) (st : State) (sk : option State)
    (out : list (list Segment)) : Prop :=
  Forall (fun g => g <> []) out
  /\ (forall k, sk = Some k -> segment k <> [] /\ inBrackets st = true)
  /\ live str (concat out ++ segs_of sk) i st.

(** * Theorems *)

(** ** The Aggregator *)

Section AggregatorFacts.

Variable locatorToTerm : jstr -> option (jstr -> option jstr).
Variable locale : jstr.

Lemma cite_of_flags v :
  Citation.flags_set (cite_of locatorToTerm locale v) <= 1.
Proof.
  unfold Citation.flags_set, cite_of; simpl.
  destruct (composite v), (suppressAuthor v), (onlyAuthor v); simpl; lia.
Qed.

(** Every record in [cites] stays there, and the ones added by one
    iteration are built by [cite_of]. *)
Lemma visit_cites (P : Citation.t -> Prop) i seg v :
  (forall w, P (cite_of locatorToTerm locale w)) ->
  Forall P (cites v) -> Forall P (cites (visit locatorToTerm locale i seg v)).
Proof.
  intros HP Hv. unfold visit.
  destruct (type seg); simpl; auto.
  - destruct (i =? 0); simpl; auto.
  - destruct (composite v); simpl; auto.
    apply Forall_app; split; auto.
  - apply Forall_app; split; auto.
Qed.

Lemma visit_all_cites (P : Citation.t -> Prop) segs :
  (forall w, P (cite_of locatorToTerm locale w)) ->
  forall i v,
    Forall P (cites v) ->
    Forall P (cites (visit_all locatorToTerm locale i segs v)).
Proof.
  intros HP. induction segs as [|seg rest IH]; simpl; intros i v Hv; auto.
  apply IH. now apply visit_cites.
Qed.

Lemma getCitations_some segs :
  segs <> [] ->
  exists G, getCitations locatorToTerm locale segs = Some G
    /\ data G = segs
    /\ citations G
       = cites (visit_all locatorToTerm locale 0 segs init)
           ++ [cite_of locatorToTerm locale
                 (visit_all locatorToTerm locale 0 segs init)].
Proof.
  intros Hne. unfold getCitations.
  destruct segs as [|first rest]; [contradiction|].
  eexists; split; [reflexivity|]. split; reflexivity.
Qed.

Lemma getCitations_cites (P : Citation.t -> Prop) segs G :
  (forall w, P (cite_of locatorToTerm locale w)) ->
  getCitations locatorToTerm locale segs = Some G ->
  Forall P (citations G).
Proof.
  intros HP HG.
  destruct segs as [|first rest]; [discriminate|].
  destruct (getCitations_some (first :: rest)) as (G' & HG' & _ & Hc);
    [discriminate|].
  rewrite HG in HG'. injection HG' as <-. rewrite Hc.
  apply Forall_app; split.
  - apply visit_all_cites; [assumption | constructor].
  - constructor; [apply HP | constructor].
Qed.

(** No iteration assigns [key] unless the segment is a [key]. *)
Lemma visit_key i seg v :
  has_type SegmentType.key seg = false ->
  key (visit locatorToTerm locale i seg v) = key v.
Proof.
  unfold has_type, visit.
  destruct (type seg); simpl; try discriminate; auto.
  - destruct (i =? 0); reflexivity.
  - destruct (composite v); reflexivity.
Qed.

Lemma visit_all_key segs :
  has_key segs = false ->
  forall i v, key (visit_all locatorToTerm locale i segs v) = key v.
Proof.
  unfold has_key.
  induction segs as [|seg rest IH]; simpl; intros Hk i v; auto.
  apply orb_false_iff in Hk as [Hs Hr].
  rewrite IH by assumption. now apply visit_key.
Qed.

End AggregatorFacts.

(** C7, as amended: every Citation record that [getCitations] produces has
    at most one of the three flags [composite], [suppress-author] and
    [author-only] set; a record may have none of them. *)
Theorem citation_flags_at_most_one :
  forall locatorToTerm locale segs G c,
    getCitations locatorToTerm locale segs = Some G ->
    In c (citations G) ->
    Citation.flags_set c <= 1.
Proof.
  intros T locale segs G c HG Hin.
  pose proof (getCitations_cites T locale
                (fun c => Citation.flags_set c <= 1) segs G
                (cite_of_flags T locale) HG) as Hall.
  rewrite Forall_forall in Hall. now apply Hall.
Qed.

Lemma citation_flags_at_most_one_witness :
  getCitations SampleTerms.locatorToTerm (text "en-US") Examples.bare
    = Some (mkGroup Examples.bare [Examples.cite "doe2020" true None] 0 8)
  /\ In (Examples.cite "doe2020" true None)
       (citations
          (mkGroup Examples.bare [Examples.cite "doe2020" true None] 0 8))
  /\ Citation.flags_set (Examples.cite "doe2020" true None) <= 1.
Proof.
  assert (H1 : getCitations SampleTerms.locatorToTerm (text "en-US")
                 Examples.bare
               = Some (mkGroup Examples.bare
                         [Examples.cite "doe2020" true None] 0 8))
    by reflexivity.
  assert (H2 : In (Examples.cite "doe2020" true None)
                 (citations
                    (mkGroup Examples.bare
                       [Examples.cite "doe2020" true None] 0 8)))
    by (simpl; auto).
  split; [exact H1|]. split; [exact H2|].
  exact (citation_flags_at_most_one SampleTerms.locatorToTerm (text "en-US")
           _ _ _ H1 H2).
Defined.

(** C7, as stated, fails: the record for the bracketed citation
    [[@doe2020]] has none of the three flags set. *)
Lemma citation_flags_exactly_one_counterexample :
  ~ (forall segs G c,
       getCitations SampleTerms.locatorToTerm (text "en-US") segs = Some G ->
       In c (citations G) ->
       Citation.flags_set c = 1).
Proof.
  intros H.
  specialize (H Examples.bracketed _ (Examples.cite "doe2020" false None)
                eq_refl).
  simpl in H. specialize (H (or_introl eq_refl)). discriminate H.
Qed.

(** C10: for a non-empty segment list [getCitations] returns a group, and
    the group's citation list ends in the record pushed after the loop;
    when no segment is a [key], that record's [id] is undefined. *)
Theorem getCitations_pushes_final_citation :
  forall locatorToTerm locale segs,
    segs <> [] ->
    exists G front final,
      getCitations locatorToTerm locale segs = Some G
      /\ data G = segs
      /\ citations G = front ++ [final]
      /\ citations G <> []
      /\ (has_key segs = false -> Citation.id final = None).
Proof.
  intros T locale segs Hne.
  destruct (getCitations_some T locale segs Hne) as (G & HG & Hd & Hc).
  exists G, (cites (visit_all T locale 0 segs init)),
    (cite_of T locale (visit_all T locale 0 segs init)).
  repeat split; auto.
  - rewrite Hc. intros Habs. now apply app_eq_nil in Habs as [_ Habs].
  - intros Hk. simpl. now rewrite visit_all_key.
Qed.

Lemma getCitations_pushes_final_citation_witness :
  Examples.lone_at <> []
  /\ exists G front final,
      getCitations SampleTerms.locatorToTerm (text "en-US") Examples.lone_at
        = Some G
      /\ data G = Examples.lone_at
      /\ citations G = front ++ [final]
      /\ citations G <> []
      /\ (has_key Examples.lone_at = false -> Citation.id final = None).
Proof.
  assert (H : Examples.lone_at <> []) by discriminate.
  split; [exact H|].
  exact (getCitations_pushes_final_citation SampleTerms.locatorToTerm
           (text "en-US") Examples.lone_at H).
Defined.

(** *** Labels without a mapping *)

Section Labels.

Variable locatorToTerm : jstr -> option (jstr -> option jstr).
Variable locale : jstr.

Lemma resolve_unmapped v :
  label_unmapped locatorToTerm locale v ->
  resolve locatorToTerm locale (label v) = None.
Proof.
  unfold label_unmapped, resolve, unmapped.
  destruct (label v) as [l|]; simpl; auto.
  destruct (truthy l); auto.
  destruct (locatorToTerm locale) as [terms|]; auto.
  now intros ->.
Qed.

(** Whatever the segments before: when the label in effect at a flush has
    no mapping, the record gets no [label], and its [id] and [locator] are
    the key and the locator in effect. *)
Lemma cite_of_unmapped v l :
  label v = Some l ->
  unmapped locatorToTerm locale l ->
  Citation.label (cite_of locatorToTerm locale v) = None
  /\ Citation.id (cite_of locatorToTerm locale v) = key v
  /\ Citation.locator (cite_of locatorToTerm locale v)
     = nonempty (locator v).
Proof.
  intros Hl Hu. split; [|split; reflexivity].
  simpl. apply resolve_unmapped. unfold label_unmapped. now rewrite Hl.
Qed.

Lemma visit_unmapped i seg v :
  (type seg = SegmentType.locatorLabel ->
   unmapped locatorToTerm locale (val seg)) ->
  label_unmapped locatorToTerm locale v -> Forall no_label (cites v) ->
  label_unmapped locatorToTerm locale (visit locatorToTerm locale i seg v)
  /\ Forall no_label (cites (visit locatorToTerm locale i seg v)).
Proof.
  intros Hseg Hl Hc. unfold visit.
  destruct (type seg) eqn:Hty; simpl; try (split; assumption).
  - destruct (i =? 0); split; assumption.
  - destruct (composite v); simpl; [|split; assumption].
    split; [exact I|].
    apply Forall_app; split; [assumption|].
    constructor; [reflexivity | constructor].
  - split; [|assumption]. unfold label_unmapped; simpl. now apply Hseg.
  - split; [exact I|].
    apply Forall_app; split; [assumption|].
    constructor; [|constructor].
    unfold no_label; simpl. now apply resolve_unmapped.
Qed.

Lemma visit_all_unmapped segs :
  (forall s, In s segs -> type s = SegmentType.locatorLabel ->
             unmapped locatorToTerm locale (val s)) ->
  forall i v,
    label_unmapped locatorToTerm locale v -> Forall no_label (cites v) ->
    label_unmapped locatorToTerm locale
      (visit_all locatorToTerm locale i segs v)
    /\ Forall no_label (cites (visit_all locatorToTerm locale i segs v)).
Proof.
  induction segs as [|seg rest IH]; simpl; intros Hs i v Hl Hc; auto.
  destruct (visit_unmapped i seg v) as [Hl' Hc']; auto.
Qed.

End Labels.

Lemma cite_of_label_free T1 l1 T2 l2 v w :
  label_free v = label_free w ->
  without_label (cite_of T1 l1 v) = without_label (cite_of T2 l2 w).
Proof.
  unfold label_free. intros H.
  injection H as Hc Hk Hp Hs Hi Hl Hb Hn Ht Ha Ho Hm.
  unfold without_label, cite_of; simpl. congruence.
Qed.

Lemma push_label_free T1 l1 T2 l2 v w :
  label_free v = label_free w ->
  label_free (push T1 l1 v) = label_free (push T2 l2 w).
Proof.
  intros H. pose proof (cite_of_label_free T1 l1 T2 l2 v w H) as Hc.
  unfold label_free in *. injection H as H0 Hk Hp Hs Hi Hl Hb Hn Ht Ha Ho Hm.
  unfold push; simpl. rewrite !map_app; simpl. congruence.
Qed.

Lemma visit_label_free T1 l1 T2 l2 i seg v w :
  label_free v = label_free w ->
  label_free (visit T1 l1 i seg v) = label_free (visit T2 l2 i seg w).
Proof.
  intros H. unfold visit.
  destruct (type seg); try assumption;
    try (unfold label_free in *; simpl; congruence).
  - destruct (i =? 0); [|assumption].
    unfold label_free in *; simpl; congruence.
  - assert (Hm : composite v = composite w)
      by (unfold label_free in H; congruence).
    rewrite <- Hm. destruct (composite v).
    + match goal with
      | |- label_free (mkVars (cites (push _ _ ?a)) _ _ _ _ _ _ _ _ _ _ _)
           = label_free (mkVars (cites (push _ _ ?b)) _ _ _ _ _ _ _ _ _ _ _) =>
          assert (Hp : label_free (push T1 l1 a) = label_free (push T2 l2 b))
      end.
      { apply push_label_free. unfold label_free in *; simpl; congruence. }
      unfold label_free in *; simpl in *; congruence.
    + unfold label_free in *; simpl; congruence.
  - pose proof (push_label_free T1 l1 T2 l2 v w H) as Hp.
    unfold label_free in *; simpl in *; congruence.
Qed.

Lemma visit_all_label_free T1 l1 T2 l2 segs :
  forall i v w,
    label_free v = label_free w ->
    label_free (visit_all T1 l1 i segs v)
    = label_free (visit_all T2 l2 i segs w).
Proof.
  induction segs as [|seg rest IH]; simpl; intros i v w H; auto.
  apply IH. now apply visit_label_free.
Qed.

Lemma without_label_id cs :
  Forall no_label cs -> map without_label cs = cs.
Proof.
  induction 1 as [|c cs Hc _ IH]; simpl; [reflexivity|].
  rewrite IH. f_equal. destruct c; unfold no_label in Hc; simpl in *.
  now subst.
Qed.

(** When the values of all the group's [locatorLabel] segments have no
    mapping under the locale, [getCitations] raises no error, no record of
    the result has a [label], and every other field ([id] and [locator]
    among them) is what it is under any other table and locale. *)
Lemma unmapped_labels_leave_other_fields :
  forall locatorToTerm locale segs,
    segs <> [] ->
    (forall s, In s segs -> type s = SegmentType.locatorLabel ->
               unmapped locatorToTerm locale (val s)) ->
    exists G,
      getCitations locatorToTerm locale segs = Some G
      /\ Forall (fun c => Citation.label c = None) (citations G)
      /\ forall otherTable otherLocale,
           exists G',
             getCitations otherTable otherLocale segs = Some G'
             /\ citations G = map without_label (citations G')
             /\ map Citation.id (citations G)
                = map Citation.id (citations G')
             /\ map Citation.locator (citations G)
                = map Citation.locator (citations G').
Proof.
  intros T locale segs Hne Hun.
  destruct (getCitations_some T locale segs Hne) as (G & HG & _ & Hc).
  exists G. split; [exact HG|].
  destruct (visit_all_unmapped T locale segs Hun 0 init) as [Hl Hcs];
    [exact I | constructor |].
  assert (Hall : Forall no_label (citations G)).
  { rewrite Hc. apply Forall_app; split; [assumption|].
    constructor; [|constructor].
    unfold no_label; simpl. now apply resolve_unmapped. }
  split; [exact Hall|].
  intros T' locale'.
  destruct (getCitations_some T' locale' segs Hne) as (G' & HG' & _ & Hc').
  exists G'. split; [exact HG'|].
  assert (Heq : map without_label (citations G)
                = map without_label (citations G')).
  { pose proof (visit_all_label_free T locale T' locale' segs 0 init init
                  eq_refl) as Hv.
    pose proof (push_label_free T locale T' locale' _ _ Hv) as Hp.
    unfold label_free in Hp. injection Hp as Hp _.
    unfold push in Hp; simpl in Hp. now rewrite Hc, Hc'. }
  rewrite without_label_id in Heq by assumption.
  split; [exact Heq|].
  rewrite Heq, !map_map. split; apply map_ext; intros c; reflexivity.
Qed.

(** The citation of [[@doe2020, q. 12]] under the sample table, where
    [q.] has no mapping: [id] and [locator] are there, [label] is not. *)
Example unmapped_label_example :
  option_map citations
    (getCitations SampleTerms.locatorToTerm (text "en-US")
       (Examples.labelled "q."))
  = Some [Citation.mk None None None (Some (text "12")) None None None
            None None None (Some (text "doe2020"))]
  /\ option_map citations
       (getCitations SampleTerms.locatorToTerm (text "en-US")
          (Examples.labelled "p."))
     = Some [Citation.mk None None None (Some (text "12"))
               (Some (text "page")) None None None None None
               (Some (text "doe2020"))].
Proof. split; reflexivity. Qed.

(** ** The Crossref Renderer *)

Lemma isCrossref_has_crossref_type G :
  isCrossref G = has_crossref_type G.
Proof.
  unfold isCrossref, has_crossref_type.
  induction (citations G) as [|c cs IH]; simpl; [reflexivity|].
  rewrite IH. f_equal.
  destruct (Citation.citeType c) as [ty|]; [|reflexivity].
  unfold citeTypes_test_opt, citeTypes_test; simpl.
  now rewrite orb_false_r, !orb_assoc.
Qed.

Lemma isCrossref_citations G : isCrossref G = true -> citations G <> [].
Proof.
  unfold isCrossref. destruct (citations G); [discriminate|discriminate].
Qed.

(** The loop renders every group it is given, in order, unless a group has
    no citation. *)
Lemma render_all_groups l :
  Forall (fun G => citations G <> []) l ->
  forall label, exists out,
    render_all label l = Some out /\ map rendered_group out = l.
Proof.
  induction 1 as [|G l HG _ IH]; intros label; simpl.
  - now exists [].
  - destruct (citations G) as [|first rest] eqn:Hc; [contradiction|].
    destruct (IH (pick_label label G first)) as (out & -> & Hout).
    eexists; split; [reflexivity|]. simpl. now rewrite Hout.
Qed.

(** C4, as amended: [renderCrossrefType] returns, in the order of the
    input, exactly the groups in which some citation (the first or a later
    one) has a [citeType] containing [fig], [tbl], [eq] or [sec], each as a
    [RenderedCitation] around the group; an undefined [citeType] does not
    match, and no error is raised. *)
Theorem renderCrossrefType_keeps_groups_with_any_typed_citation :
  forall groups, exists out,
    renderCrossrefType groups = Some out
    /\ map rendered_group out = filter has_crossref_type groups.
Proof.
  intros groups. unfold renderCrossrefType.
  rewrite <- (filter_ext _ _ isCrossref_has_crossref_type).
  apply render_all_groups.
  apply Forall_forall. intros G HG. apply filter_In in HG as [_ HG].
  now apply isCrossref_citations.
Qed.

(** C4, as stated, fails on the group of [[@a;@fig:b]]: its first citation
    has no [citeType], yet the group is returned because the second has
    one. *)
Lemma renderCrossrefType_first_citation_counterexample :
  ~ (exists out,
       renderCrossrefType [CrossrefExamples.mixed] = Some out
       /\ map rendered_group out
          = filter first_has_crossref_type [CrossrefExamples.mixed]).
Proof.
  intros (out & Hout & Hmap).
  vm_compute in Hout. injection Hout as <-. discriminate Hmap.
Qed.

(** The group of [[@a;@fig:b]] is what the Segmenter and the Aggregator
    make of that text. *)
Example mixed_group_from_text :
  forall U locators locatorToTerm locale,
    getCitationSegments U locators (text "[@a;@fig:b]") false
      = Some [CrossrefExamples.mixed_segments]
    /\ getCitations locatorToTerm locale CrossrefExamples.mixed_segments
       = Some CrossrefExamples.mixed.
Proof. intros. split; reflexivity. Qed.

Lemma str_eqb_eq a b : str_eqb a b = true -> a = b.
Proof. unfold str_eqb. now destruct (list_eq_dec N.eq_dec a b). Qed.

Lemma pick_label_typed label G first ty l :
  Citation.citeType first = Some ty ->
  type_label ty (length (citations G)) = Some l ->
  pick_label label G first = Some l.
Proof.
  intros Hty. unfold type_label, pick_label. rewrite Hty.
  destruct (str_eqb ty (text "fig")) eqn:E1.
  { apply str_eqb_eq in E1. subst ty. auto. }
  destruct (str_eqb ty (text "tbl")) eqn:E2.
  { apply str_eqb_eq in E2. subst ty. auto. }
  destruct (str_eqb ty (text "eq")) eqn:E3.
  { apply str_eqb_eq in E3. subst ty. auto. }
  destruct (str_eqb ty (text "sec")) eqn:E4.
  { apply str_eqb_eq in E4. subst ty. auto. }
  discriminate.
Qed.

Lemma render_all_typed l :
  forall label out,
    render_all label l = Some out ->
    forall r first rest ty lbl,
      In r out ->
      citations (rendered_group r) = first :: rest ->
      Citation.citeType first = Some ty ->
      type_label ty (length (citations (rendered_group r))) = Some lbl ->
      rendered_val r
      = text "[" ++ lbl
          ++ join (text ", ") (map Citation.id (citations (rendered_group r)))
          ++ text "]".
Proof.
  induction l as [|G l IH]; simpl; intros label out Hout.
  - injection Hout as <-. contradiction.
  - destruct (citations G) as [|c cs] eqn:Hc; [discriminate|].
    destruct (render_all (pick_label label G c) l) as [cites|] eqn:Hr;
      [|discriminate].
    injection Hout as <-.
    intros r first rest ty lbl [<- | Hin] Hcit Hty Hlbl.
    + cbn [rendered_group rendered_val] in *.
      rewrite Hc in Hcit. injection Hcit as <- <-.
      now rewrite (pick_label_typed label G c ty lbl Hty Hlbl), Hc.
    + eapply IH; eassumption.
Qed.

(** Where the claim C6 does hold: a rendered group whose first citation has
    exactly one of the four types gets that type's label, singular for one
    citation and plural for more, then the ids joined by commas, in square
    brackets. *)
Lemma rendered_val_of_typed_group :
  forall groups out r first rest ty lbl,
    renderCrossrefType groups = Some out ->
    In r out ->
    citations (rendered_group r) = first :: rest ->
    Citation.citeType first = Some ty ->
    type_label ty (length (citations (rendered_group r))) = Some lbl ->
    rendered_val r
    = text "[" ++ lbl
        ++ join (text ", ") (map Citation.id (citations (rendered_group r)))
        ++ text "]".
Proof.
  intros groups out r first rest ty lbl Hout.
  eapply render_all_typed; eassumption.
Qed.

Example figure_label :
  forall U locators locatorToTerm locale,
    rendered_vals U locators locatorToTerm locale (text "[@fig:plot1]") false
    = Some [text "[Figure plot1]"].
Proof. intros. reflexivity. Qed.

(** C6 fails on the code: the label is chosen by a [switch] on the first
    citation's [citeType] that has no default case, and the variable
    [label] lives outside the loop.  In [[@fig:x][@a;@fig:b]] the second
    group has two citations and is rendered with the singular label left
    over from the first group; alone, it is rendered with the label
    [undefined]. *)
Theorem crossref_label_left_over :
  forall U locators locatorToTerm locale,
    rendered_vals U locators locatorToTerm locale
      (text "[@fig:x][@a;@fig:b]") false
    = Some [text "[Figure x]"; text "[Figure a, b]"]
    /\ rendered_vals U locators locatorToTerm locale
         (text "[@a;@fig:b]") false
       = Some [text "[undefineda, b]"].
Proof. intros. split; reflexivity. Qed.

(** ** The Segmenter: proof tools *)

(** Replace a closed test by its value. *)
Ltac ev t := let v := eval vm_compute in t in change t with v.

(** Read the fields of a state through the assignments. *)
Ltac fields :=
  cbn [inBrackets inExplicitKey inExplicitLocator inKey inLink inSuffix
       seekingSuffix seekingLocator encounteredKey shouldCancelSeek segment
       currentSegment bracketDepth
       set_inBrackets set_inExplicitKey set_inExplicitLocator set_inKey
       set_inLink set_inSuffix set_seekingSuffix set_seekingLocator
       set_encounteredKey set_shouldCancelSeek set_segment
       set_currentSegment set_bracketDepth retype append
       type from to val set_type set_to newCurrent chars_of
       state seekState segments opt_flag] in *.

(** ** The Segmenter on particular texts *)

(** C1 fails on the code: [encounteredKey] is set when the ['@'] is read,
    not when a key is, and the test for the end of the line comes before
    the test of the character after ['@'].  The text [@], alone or before a
    line feed, yields a group whose only segment is the [at] segment. *)
Theorem lone_at_is_emitted :
  forall U locators ignoreLinks,
    getCitationSegments U locators (text "@") ignoreLinks
      = Some [Examples.lone_at]
    /\ getCitationSegments U locators [ch "@"; Chars.LF] ignoreLinks
       = Some [Examples.lone_at]
    /\ has_key Examples.lone_at = false.
Proof. intros. repeat split; vm_compute; reflexivity. Qed.

(** C5, as amended: the text [[@doe2020]] yields one group whose citations
    are exactly [{id: "doe2020"}], without the flag [composite]: the [at]
    segment is at index 1, after the bracket.  The flag is set for the bare
    citation [@doe2020], whose [at] segment is at index 0. *)
Theorem bracketed_citation_is_not_composite :
  forall U locators locatorToTerm locale,
    getCitationSegments U locators (text "[@doe2020]") false
      = Some [Examples.bracketed]
    /\ option_map type (nth_error Examples.bracketed 0)
       = Some SegmentType.bracket
    /\ option_map type (nth_error Examples.bracketed 1)
       = Some SegmentType.at_
    /\ option_map citations
         (getCitations locatorToTerm locale Examples.bracketed)
       = Some [Examples.cite "doe2020" false None]
    /\ getCitationSegments U locators (text "@doe2020") false
       = Some [Examples.bare]
    /\ option_map citations (getCitations locatorToTerm locale Examples.bare)
       = Some [Examples.cite "doe2020" true None].
Proof. intros. repeat split; vm_compute; reflexivity. Qed.

(** C5, as stated, fails: the record of [[@doe2020]] has no flag
    [composite]. *)
Lemma bracketed_citation_composite_counterexample :
  ~ (exists g G,
       getCitationSegments Sample.unicode Sample.locators
         (text "[@doe2020]") false
       = Some [g]
       /\ getCitations SampleTerms.locatorToTerm (text "en-US") g = Some G
       /\ citations G = [Examples.cite "doe2020" true None]).
Proof.
  intros (g & G & Hg & HG & Hc).
  vm_compute in Hg. injection Hg as <-.
  vm_compute in HG. injection HG as <-.
  discriminate Hc.
Qed.

(** C8 fails on the code: [inLink] is set when a group is opened by a
    ['['] that follows a ['['], and the first ['['] of a wiki link is
    passed over only when no state is at hand.  After a bare citation the
    state that waits for a bracket is at hand, the group is opened by the
    first ['['] and [inLink] stays unset: with [ignoreLinks], the link of
    [@a [[Some Page]]] is emitted in the group of [@a].  The same scan
    drops a wiki link that no citation precedes, though the link holds a
    citation that is read without [ignoreLinks], and it drops the texts
    [[@doe2020](http://x)] and [[[Some Page]]]. *)
Theorem wiki_link_after_bare_citation_is_emitted :
  forall U locators,
    getCitationSegments U locators LinkExamples.after_bare true
      = Some [LinkExamples.after_bare_group]
    /\ vals LinkExamples.after_bare_group = text "@a[[Some Page]]"
    /\ getCitationSegments U locators LinkExamples.note_link true = Some []
    /\ getCitationSegments U locators LinkExamples.note_link false
       = Some [LinkExamples.note_link_group]
    /\ getCitationSegments U locators LinkExamples.link true = Some []
    /\ getCitationSegments U locators (text "[[Some Page]]") true = Some [].
Proof. intros. repeat split; vm_compute; reflexivity. Qed.

(** With [ignoreLinks], the citation inside a wiki link is read too when
    the link follows a bare citation: [@b] of [@a [[notes|@b]]] (under the
    sample of [locators], which is asked about the text ["]"]). *)
Example wiki_link_citation_after_bare_citation :
  getCitationSegments Sample.unicode Sample.locators
    (text "@a [[notes|@b]]") true
  = Some [LinkExamples.note_after_bare_group]
  /\ key_vals LinkExamples.note_after_bare_group = [text "a"; text "b"].
Proof. split; vm_compute; reflexivity. Qed.

(** ** Slices and chains *)

Lemma slice_length (s : jstr) a b :
  a <= b -> b <= length s -> length (slice s a b) = b - a.
Proof.
  intros Hab Hb. unfold slice.
  rewrite length_firstn, length_skipn. lia.
Qed.

Lemma firstn_plus (A : Type) m n (l : list A) :
  firstn (m + n) l = firstn m l ++ firstn n (skipn m l).
Proof.
  revert l. induction m as [|m IH]; intros l; [reflexivity|].
  destruct l as [|x l]; simpl.
  - now rewrite firstn_nil.
  - now rewrite IH.
Qed.

Lemma slice_app (s : jstr) a b c :
  a <= b -> b <= c -> slice s a b ++ slice s b c = slice s a c.
Proof.
  intros Hab Hbc. unfold slice.
  replace (c - a) with ((b - a) + (c - b)) by lia.
  rewrite firstn_plus. f_equal.
  rewrite skipn_skipn. now replace (b - a + a) with b by lia.
Qed.

Lemma slice_one (s : jstr) i ch :
  nth_error s i = Some ch -> slice s i (i + 1) = [ch].
Proof.
  intros H. unfold slice. replace (i + 1 - i) with 1 by lia.
  revert s H. induction i as [|i IH]; intros [|x s] H; try discriminate.
  - simpl in *. now injection H as ->.
  - simpl in *. now apply IH.
Qed.

Lemma slice_split (s : jstr) a b (p q : jstr) :
  a <= b -> b <= length s ->
  slice s a b = p ++ q ->
  p = slice s a (a + length p) /\ q = slice s (a + length p) b
  /\ a + length p <= b.
Proof.
  intros Hab Hb H.
  assert (Hlen : length p + length q = b - a).
  { rewrite <- length_app, <- H. now apply slice_length. }
  assert (Hs : slice s a b
               = slice s a (a + length p) ++ slice s (a + length p) b)
    by (symmetry; apply slice_app; lia).
  rewrite Hs in H.
  assert (Hp : length (slice s a (a + length p)) = length p)
    by (rewrite slice_length; lia).
  apply app_eq_app in H as (l & [[H1 H2] | [H1 H2]]).
  - assert (l = []).
    { apply (f_equal (@length _)) in H1. rewrite length_app in H1.
      destruct l; [reflexivity | simpl in H1; lia]. }
    subst l. rewrite app_nil_r in H1. simpl in H2.
    repeat split; [congruence | congruence | lia].
  - assert (l = []).
    { apply (f_equal (@length _)) in H1. rewrite length_app in H1.
      destruct l; [reflexivity | simpl in H1; lia]. }
    subst l. rewrite app_nil_r in H1. simpl in H2.
    repeat split; [congruence | congruence | lia].
Qed.

Lemma charAt_nat (s : jstr) i : charAt s (Z.of_nat i) = nth_error s i.
Proof.
  unfold charAt. destruct (Z.ltb_spec (Z.of_nat i) 0); [lia|].
  now rewrite Nat2Z.id.
Qed.

Lemma charAt_next (s : jstr) i :
  charAt s (Z.of_nat i + 1) = nth_error s (S i).
Proof.
  replace (Z.of_nat i + 1)%Z with (Z.of_nat (S i)) by lia.
  apply charAt_nat.
Qed.

Lemma charAt_prev (s : jstr) i :
  charAt s (Z.of_nat (S i) - 1) = nth_error s i.
Proof.
  replace (Z.of_nat (S i) - 1)%Z with (Z.of_nat i) by lia.
  apply charAt_nat.
Qed.

Section Chains.

Variable str : jstr.

Lemma chain_le lo l hi : chain str lo l hi -> lo <= hi.
Proof.
  revert lo. induction l as [|g l IH]; simpl; intros lo H; [assumption|].
  destruct H as (H1 & (H2 & _) & H3). apply IH in H3. lia.
Qed.

Lemma chain_weaken lo l hi lo' hi' :
  chain str lo l hi -> lo' <= lo -> hi <= hi' -> chain str lo' l hi'.
Proof.
  revert lo lo'. induction l as [|g l IH]; simpl; intros lo lo' H Hlo Hhi.
  - lia.
  - destruct H as (H1 & H2 & H3).
    split; [lia|]. split; [assumption|]. eapply IH; eauto.
Qed.

Lemma chain_app lo a b hi :
  chain str lo (a ++ b) hi <->
  exists mid, chain str lo a mid /\ chain str mid b hi.
Proof.
  revert lo. induction a as [|g a IH]; simpl; intros lo.
  - split.
    + intros H. exists lo. split; [lia | assumption].
    + intros (mid & H1 & H2). eapply chain_weaken; eauto.
  - split.
    + intros (H1 & H2 & H3). apply IH in H3 as (mid & H3 & H4).
      exists mid. tauto.
    + intros (mid & (H1 & H2 & H3) & H4).
      split; [assumption|]. split; [assumption|]. apply IH. eauto.
Qed.

Lemma chain_prefix lo a b hi :
  chain str lo (a ++ b) hi -> chain str lo a hi.
Proof.
  intros H. apply chain_app in H as (mid & H1 & H2).
  eapply chain_weaken; eauto. now apply chain_le in H2.
Qed.

Lemma chain_suffix lo a b hi :
  chain str lo (a ++ b) hi -> chain str lo b hi.
Proof.
  intros H. apply chain_app in H as (mid & H1 & H2).
  eapply chain_weaken; eauto. now apply chain_le in H1.
Qed.

Lemma chain_join lo a mid b hi :
  chain str lo a mid -> chain str mid b hi -> chain str lo (a ++ b) hi.
Proof. intros. apply chain_app. eauto. Qed.

Lemma chain_In lo l hi g :
  chain str lo l hi -> In g l ->
  lo <= from g /\ to g <= hi /\ seg_ok str g.
Proof.
  revert lo. induction l as [|x l IH]; simpl; intros lo H Hin; [contradiction|].
  destruct H as (H1 & H2 & H3). destruct Hin as [<- | Hin].
  - apply chain_le in H3. tauto.
  - destruct (IH _ H3 Hin) as (H4 & H5 & H6). destruct H2 as (H2 & _).
    split; [lia|]. split; assumption.
Qed.

(** In a chain, what comes first ends before what comes later starts. *)
Lemma chain_before lo a b hi x y :
  chain str lo (a ++ b) hi -> In x a -> In y b -> to x <= from y.
Proof.
  intros H Hx Hy. apply chain_app in H as (mid & Ha & Hb).
  destruct (chain_In _ _ _ _ Ha Hx) as (_ & H1 & _).
  destruct (chain_In _ _ _ _ Hb Hy) as (H2 & _). lia.
Qed.

Lemma chain_sorted lo l hi : chain str lo l hi -> sorted l.
Proof.
  intros H a b x y Hab Hx Hy.
  destruct (nth_error_split _ _ Hy) as (l1 & l2 & -> & Hlen).
  assert (Hin : In x l1).
  { rewrite nth_error_app1 in Hx by lia. eapply nth_error_In; eauto. }
  eapply chain_before with (a := l1) (b := y :: l2); eauto.
  now left.
Qed.

(** Spans laid out one after the other are a chain when they spell the
    text they cover. *)
Lemma chain_tile pieces :
  forall f i,
    i <= length str ->
    slice str f i = texts pieces ->
    f + length (texts pieces) = i ->
    Forall (fun p => snd p <> []) pieces ->
    chain str f (tile f pieces) i.
Proof.
  induction pieces as [|[ty v] rest IH]; simpl; intros f i Hi Hs Hlen Hne.
  - unfold texts in Hlen; simpl in Hlen. lia.
  - unfold texts in *; simpl in *. rewrite length_app in Hlen.
    apply Forall_cons_iff in Hne as [Hv Hrest]. simpl in Hv.
    destruct (slice_split str f i v (concat (map snd rest)))
      as (H1 & H2 & H3); try lia; try assumption.
    assert (0 < length v) by (destruct v; [contradiction | simpl; lia]).
    split; [lia|]. split.
    + unfold seg_ok; simpl. split; [lia|]. split; [lia|]. exact H1.
    + apply IH; auto. lia.
Qed.

End Chains.

Lemma tile_app f a b :
  tile f (a ++ b) = tile f a ++ tile (f + length (texts a)) b.
Proof.
  revert f. induction a as [|[ty v] a IH]; intros f.
  - unfold texts; simpl. now rewrite Nat.add_0_r.
  - simpl. rewrite IH. unfold texts; simpl. rewrite length_app.
    now rewrite Nat.add_assoc.
Qed.

Lemma texts_app a b : texts (a ++ b) = texts a ++ texts b.
Proof. unfold texts. now rewrite map_app, concat_app. Qed.

Lemma texts_piece_if ty v : texts (piece_if ty v) = v.
Proof.
  unfold piece_if, texts. destruct v; simpl; [reflexivity|].
  now rewrite app_nil_r.
Qed.

Lemma piece_if_nonempty ty v :
  Forall (fun p : SegmentType.t * jstr => snd p <> []) (piece_if ty v).
Proof.
  unfold piece_if. destruct v; simpl; constructor; [discriminate|constructor].
Qed.

Lemma tile_nonempty f pieces : pieces <> [] -> tile f pieces <> [].
Proof. destruct pieces as [|[ty v] rest]; [contradiction | discriminate]. Qed.

(** ** The matcher of [locatorRe] *)

Module ReFacts.
Import Re.

(** A successful run consumed a prefix of the text before it called the
    continuation, and not the empty prefix unless the expression is
    nullable. *)
Lemma run_sound r :
  forall s k x,
    run r s k = Some x ->
    exists p s', s = p ++ s' /\ k s' = Some x
                 /\ (nullable r = false -> p <> []).
Proof.
  induction r as [p q | a IHa b IHb | a IHa b IHb | a IHa | a IHa];
    intros s k x H; simpl in H.
  - destruct s as [|c s']; [discriminate|].
    destruct s' as [|d s''].
    + destruct (p c); [|discriminate].
      exists [c], []. repeat split; auto. discriminate.
    + destruct (Chars.high c && Chars.low d).
      * destruct (q c d); [|discriminate].
        exists [c; d], s''. repeat split; auto. discriminate.
      * destruct (p c); [|discriminate].
        exists [c], (d :: s''). repeat split; auto. discriminate.
  - apply IHa in H as (p1 & s1 & -> & H & N1).
    apply IHb in H as (p2 & s2 & -> & H & N2).
    exists (p1 ++ p2), s2. rewrite app_assoc. repeat split; auto.
    simpl. intros N. apply andb_false_iff in N as [N | N].
    + intros E. apply app_eq_nil in E as [E _]. now apply N1.
    + intros E. apply app_eq_nil in E as [_ E]. now apply N2.
  - destruct (run a s k) eqn:Ea.
    + injection H as ->. apply IHa in Ea as (p & s' & -> & H & N).
      exists p, s'. repeat split; auto.
      simpl. intros E. apply orb_false_iff in E as [E _]. auto.
    + apply IHb in H as (p & s' & -> & H & N).
      exists p, s'. repeat split; auto.
      simpl. intros E. apply orb_false_iff in E as [_ E]. auto.
  - destruct (run a s k) eqn:Ea.
    + injection H as ->. apply IHa in Ea as (p & s' & -> & H & N).
      exists p, s'. repeat split; auto. discriminate.
    + exists [], s. repeat split; auto. discriminate.
  - remember (length s) as n eqn:En. clear En.
    revert s x H. induction n as [|n IHn]; intros s x H.
    + exists [], s. repeat split; auto. discriminate.
    + match type of H with
      | match ?e with _ => _ end = _ => destruct e eqn:Ea
      end.
      * injection H as ->. apply IHa in Ea as (p1 & s1 & -> & H & _).
        destruct (length s1 <? length (p1 ++ s1)); [|discriminate].
        apply IHn in H as (p2 & s2 & -> & H & _).
        exists (p1 ++ p2), s2. rewrite app_assoc. repeat split; auto.
        discriminate.
      * exists [], s. repeat split; auto. discriminate.
Qed.

Lemma match_prefix_sound r s loc :
  match_prefix r s = Some loc ->
  (exists rest, s = loc ++ rest) /\ (nullable r = false -> loc <> []).
Proof.
  unfold match_prefix. destruct (run r s Some) as [rest|] eqn:E;
    [|discriminate].
  intros [= <-]. apply run_sound in E as (p & s' & -> & [= ->] & N).
  rewrite length_app.
  replace (length p + length rest - length rest) with (length p + 0) by lia.
  rewrite firstn_app_2. simpl. rewrite app_nil_r. split; eauto.
Qed.

End ReFacts.

Lemma locatorRe_exec_sound U s loc :
  LocatorRe.exec U s = Some loc -> loc <> [] /\ exists rest, s = loc ++ rest.
Proof.
  intros H. apply ReFacts.match_prefix_sound in H as [H N].
  split; [apply N; reflexivity | assumption].
Qed.

(** ** The locator parsers and [endCurrent] *)

Section Parsers.

Variable U : Unicode.
Variable locators : jstr -> option RegExpMatch.
Hypothesis locators_good : locators_ok locators.
Variable str : jstr.

Lemma push_span_tile ty v ps f :
  push_span ty v (tile f ps, f + length (texts ps))
  = (tile f (ps ++ [(ty, v)]), f + length (texts (ps ++ [(ty, v)]))).
Proof.
  unfold push_span. rewrite tile_app, texts_app, length_app. simpl.
  f_equal. unfold texts at 3. simpl. rewrite app_nil_r. lia.
Qed.

Lemma push_span_if_tile ty v ps f :
  push_span_if ty v (tile f ps, f + length (texts ps))
  = (tile f (ps ++ piece_if ty v),
     f + length (texts (ps ++ piece_if ty v))).
Proof.
  unfold push_span_if, piece_if. destruct (truthy v).
  - apply push_span_tile.
  - now rewrite app_nil_r.
Qed.

Lemma label_spans_tile cur m :
  label_spans cur m
  = (tile (from cur) (label_pieces m),
     from cur + length (texts (label_pieces m))).
Proof.
  unfold label_spans, label_pieces.
  replace ([], from cur)
    with (tile (from cur) [], from cur + length (texts []))
    by (simpl; f_equal; unfold texts; simpl; lia).
  rewrite push_span_if_tile, push_span_tile, push_span_if_tile.
  now rewrite <- !app_assoc.
Qed.

Lemma texts_label_pieces m :
  texts (label_pieces m) = group1 m ++ group2 m ++ group3 m.
Proof.
  unfold label_pieces. rewrite !texts_app, !texts_piece_if.
  unfold texts. simpl. now rewrite app_nil_r.
Qed.

Lemma label_pieces_nonempty v m :
  locators v = Some m ->
  Forall (fun p : SegmentType.t * jstr => snd p <> []) (label_pieces m).
Proof.
  intros H. destruct (locators_good v m H) as (_ & _ & _ & Hl).
  unfold label_pieces. apply Forall_app; split; [apply piece_if_nonempty|].
  constructor; [exact Hl | apply piece_if_nonempty].
Qed.

(** What is left of [val] after the match of [locators]. *)
Lemma sliced_spec v m :
  locators v = Some m ->
  v = texts (label_pieces m) ++ skipn (index m + length (whole m)) v.
Proof.
  intros H. destruct (locators_good v m H) as (Hi & Hw & (rest & Hv) & _).
  rewrite Hi, texts_label_pieces, <- Hw. simpl.
  rewrite Hv at 2. rewrite skipn_app, skipn_all, Nat.sub_diag. simpl.
  exact Hv.
Qed.

Lemma parsePossibleLocator_chain i st :
  open_ok str i (currentSegment st) ->
  parsePossibleLocator U locators st <> [] ->
  chain str (from (currentSegment st)) (parsePossibleLocator U locators st) i.
Proof.
  intros (Hf & Hi & Hv) Hne. unfold parsePossibleLocator in *.
  destruct (locators (val (currentSegment st))) as [m|] eqn:Hm;
    [|contradiction].
  pose proof (sliced_spec _ _ Hm) as Hs.
  pose proof (label_pieces_nonempty _ _ Hm) as Hp.
  set (sliced := skipn (index m + length (whole m))
                   (val (currentSegment st))) in *.
  destruct (LocatorRe.exec U sliced) as [loc|] eqn:Hloc; [|contradiction].
  apply locatorRe_exec_sound in Hloc as (Hl & rest & Hrest).
  rewrite label_spans_tile, push_span_tile.
  replace (skipn (0 + length loc) sliced) with rest
    by (rewrite Hrest; simpl; now rewrite skipn_app, skipn_all,
          Nat.sub_diag).
  rewrite push_span_if_tile. simpl fst.
  assert (Ht : texts ((label_pieces m ++ [(SegmentType.locator, loc)])
                        ++ piece_if SegmentType.suffix rest)
               = val (currentSegment st)).
  { rewrite !texts_app, texts_piece_if. unfold texts at 2. simpl.
    rewrite app_nil_r, <- app_assoc, <- Hrest. now symmetry. }
  apply chain_tile; auto.
  - now rewrite Ht.
  - rewrite Ht, Hv, slice_length; lia.
  - apply Forall_app; split; [|apply piece_if_nonempty].
    apply Forall_app; split; [assumption|].
    constructor; [exact Hl | constructor].
Qed.

Lemma parseExplicitLocator_chain i st :
  open_ok str i (currentSegment st) ->
  fst (parseExplicitLocator locators st) <> [] ->
  chain str (from (currentSegment st))
    (fst (parseExplicitLocator locators st)) i
  /\ snd (parseExplicitLocator locators st) = st.
Proof.
  intros (Hf & Hi & Hv) Hne. unfold parseExplicitLocator in *.
  destruct (locators (val (currentSegment st))) as [m|] eqn:Hm;
    [|contradiction].
  pose proof (sliced_spec _ _ Hm) as Hs.
  pose proof (label_pieces_nonempty _ _ Hm) as Hp.
  set (sliced := skipn (index m + length (whole m))
                   (val (currentSegment st))) in *.
  destruct (truthy sliced) eqn:Ht; [|contradiction].
  split; [|reflexivity]. simpl fst.
  rewrite label_spans_tile, push_span_tile. simpl fst.
  assert (Htx : texts (label_pieces m ++ [(SegmentType.locator, sliced)])
                = val (currentSegment st)).
  { rewrite texts_app. unfold texts at 2. simpl. rewrite app_nil_r.
    now symmetry. }
  apply chain_tile; auto.
  - now rewrite Htx.
  - rewrite Htx, Hv, slice_length; lia.
  - apply Forall_app; split; [assumption|].
    constructor; [|constructor]. simpl. now destruct sliced.
Qed.

(** The state after the parser that retypes [currentSegment]: nothing else
    changes. *)
Lemma parseExplicitLocator_state st :
  exists ty,
    snd (parseExplicitLocator locators st) = retype ty st.
Proof.
  unfold parseExplicitLocator.
  destruct (locators (val (currentSegment st))) as [m|].
  - exists (type (currentSegment st)).
    destruct (truthy _); simpl; destruct st as [? ? ? ? ? ? ? ? ? ? ? [] ?];
      reflexivity.
  - eexists. reflexivity.
Qed.

(** [endCurrent] adds segments to [state.segment], may replace
    [currentSegment] and [seekingLocator], and leaves the rest of the state
    as it is.  What it adds is not empty and, when the current segment
    carries the text from its start up to [i], is a chain from that start
    up to [i]. *)
Lemma endCurrent_shape i sk st :
  exists new cur sl,
    endCurrent U locators i sk st
    = mkState (inBrackets st) (inExplicitKey st) (inExplicitLocator st)
        (inKey st) (inLink st) (inSuffix st) (seekingSuffix st) sl
        (encounteredKey st) (shouldCancelSeek st) (segment st ++ new) cur
        (bracketDepth st)
    /\ new <> []
    /\ (open_ok str i (currentSegment st) ->
        chain str (from (currentSegment st)) new i).
Proof.
  assert (Hpush : forall ty,
            exists new cur sl,
              push_current i (retype ty st)
              = mkState (inBrackets st) (inExplicitKey st)
                  (inExplicitLocator st) (inKey st) (inLink st) (inSuffix st)
                  (seekingSuffix st) sl (encounteredKey st)
                  (shouldCancelSeek st) (segment st ++ new) cur
                  (bracketDepth st)
              /\ new <> []
              /\ (open_ok str i (currentSegment st) ->
                  chain str (from (currentSegment st)) new i)).
  { intros ty. eexists _, _, _. split; [reflexivity|].
    split; [discriminate|]. intros (Hf & Hi & Hv). simpl.
    split; [lia|]. split; [|lia]. unfold seg_ok; simpl. auto. }
  assert (Hplain : push_current i st
                   = push_current i (retype (type (currentSegment st)) st)).
  { destruct st as [? ? ? ? ? ? ? ? ? ? ? [] ?]; reflexivity. }
  unfold endCurrent.
  destruct (seekingLocator st || opt_flag seekingLocator sk);
    [|rewrite Hplain; apply Hpush].
  destruct (SegmentType.eqb (type (currentSegment st)) SegmentType.suffix).
  { destruct (truthy (parsePossibleLocator U locators st)) eqn:Ht;
      [|rewrite Hplain; apply Hpush].
    eexists _, _, _. split; [reflexivity|].
    assert (parsePossibleLocator U locators st <> [])
      by (destruct (parsePossibleLocator U locators st); discriminate).
    split; [assumption|]. intros Ho. now apply parsePossibleLocator_chain. }
  destruct (SegmentType.eqb (type (currentSegment st))
              SegmentType.locatorSuffix); [|rewrite Hplain; apply Hpush].
  destruct (parseExplicitLocator locators st) as [segs st'] eqn:Hp.
  destruct (truthy segs) eqn:Ht.
  - assert (Hne : segs <> []) by (destruct segs; discriminate).
    assert (Hne' : fst (parseExplicitLocator locators st) <> [])
      by now rewrite Hp.
    assert (st' = st \/ True) as _ by auto.
    exists segs, (currentSegment st'), false.
    destruct (parseExplicitLocator_state st) as (ty & Hst).
    rewrite Hp in Hst. simpl in Hst. subst st'.
    split; [reflexivity|]. split; [assumption|].
    intros Ho. destruct (parseExplicitLocator_chain i st Ho Hne') as [Hc _].
    now rewrite Hp in Hc.
  - destruct (parseExplicitLocator_state st) as (ty & Hst).
    rewrite Hp in Hst. simpl in Hst. subst st'. apply Hpush.
Qed.

End Parsers.

(** ** One iteration of the loop keeps the invariant *)

Section StepInv.

Variable U : Unicode.
Variable locators : jstr -> option RegExpMatch.
Hypothesis locators_good : locators_ok locators.
Variable str : jstr.
Variable ignoreLinks : bool.
Variable i : nat.

(** The three shapes of the invariant: no state, a state that accumulates
    a segment, a state that waits for a bracket. *)
Lemma inv_none sk out j :
  Forall (fun g => g <> []) out ->
  (forall k, sk = Some k -> segment k <> []) ->
  chain str 0 (concat out ++ segs_of sk) j ->
  Inv str j (mkScan None sk out).
Proof.
  intros H1 H2 H3. split; [exact H1|]. split; [|exact H3].
  simpl. intros k Hk. split; [now apply H2 | discriminate].
Qed.

Lemma inv_live st sk out j :
  Forall (fun g => g <> []) out ->
  (forall k, sk = Some k -> segment k <> [] /\ inBrackets st = true) ->
  live str (concat out ++ segs_of sk) j st ->
  Inv str j (mkScan (Some st) sk out).
Proof.
  intros H1 H2 H3. split; [exact H1|]. split; [|left; exact H3].
  simpl. intros k Hk. destruct (H2 k Hk). split; [assumption|].
  now intros ? [= <-].
Qed.

Lemma inv_seeking st out j :
  Forall (fun g => g <> []) out ->
  seeking str (concat out) j st ->
  Inv str j (mkScan (Some st) None out).
Proof.
  intros H1 H3. split; [exact H1|]. split; [discriminate|].
  right. simpl. now rewrite app_nil_r.
Qed.

Lemma chain_push X segs f new j :
  chain str 0 (X ++ segs) f -> chain str f new j ->
  chain str 0 (X ++ segs ++ new) j.
Proof. intros H1 H2. rewrite app_assoc. eapply chain_join; eauto. Qed.

Lemma chain_drop X segs f j :
  chain str 0 (X ++ segs) f -> f <= j -> chain str 0 X j.
Proof.
  intros H Hf. apply chain_prefix in H. eapply chain_weaken; eauto.
Qed.

Lemma chain_keep X f j :
  chain str 0 X f -> f <= j -> chain str 0 X j.
Proof. intros H Hf. eapply chain_weaken; eauto. Qed.

Lemma open_new ty x :
  nth_error str i = Some x ->
  open_ok str (S i) (mkSegment ty i (i + 1) [x]).
Proof.
  intros H. unfold open_ok; simpl.
  assert (i < length str) by (apply nth_error_Some; congruence).
  split; [lia|]. split; [lia|].
  rewrite <- Nat.add_1_r. symmetry. now apply slice_one.
Qed.

Lemma open_append ty f t v x :
  nth_error str i = Some x ->
  open_ok str i (mkSegment ty f t v) ->
  open_ok str (S i) (mkSegment ty f t (v ++ [x])).
Proof.
  intros H (Hf & Hi & Hv). unfold open_ok in *; simpl in *.
  assert (i < length str) by (apply nth_error_Some; congruence).
  split; [lia|]. split; [lia|].
  rewrite Hv, <- (slice_one str i x H), slice_app, Nat.add_1_r; auto; lia.
Qed.

(** A segment that carries one character ends where it starts plus one. *)
Lemma open_single g c :
  open_ok str i g -> val g = [c] -> nth_error str (from g) = Some c
                                  /\ S (from g) = i.
Proof.
  intros (Hf & Hi & Hv) E.
  assert (Hlen : length (val g) = i - from g)
    by (rewrite Hv; apply slice_length; lia).
  rewrite E in Hlen. simpl in Hlen.
  assert (Hi' : S (from g) = i) by lia. split; [|exact Hi'].
  rewrite E, <- Hi' in Hv.
  assert (from g < length str) by lia.
  destruct (nth_error str (from g)) as [x|] eqn:Hx.
  - rewrite <- Nat.add_1_r, (slice_one str _ x Hx) in Hv. congruence.
  - apply nth_error_None in Hx. lia.
Qed.


(** The one-character segment that [newCurrent] opens, once closed. *)
Lemma chain_single ty x :
  nth_error str i = Some x ->
  chain str i [mkSegment ty i (i + 1) [x]] (S i).
Proof.
  intros H. simpl.
  assert (i < length str) by (apply nth_error_Some; congruence).
  split; [lia|]. split; [|lia]. unfold seg_ok; simpl.
  split; [lia|]. split; [lia|]. symmetry. now apply slice_one.
Qed.

(** Replace each call of [endCurrent] by the state that [endCurrent_shape]
    describes. *)
Ltac shape :=
  repeat match goal with
  | |- context [endCurrent ?u ?l ?j ?sk ?s] =>
      let new := fresh "new" in
      let cur := fresh "cur" in
      let sl := fresh "sl" in
      let E := fresh "E" in
      let Hne := fresh "Hnew" in
      let Hch := fresh "Hpush" in
      destruct (endCurrent_shape u l locators_good str j sk s)
        as (new & cur & sl & E & Hne & Hch);
      rewrite E in *; clear E; fields
  end.

(** Follow the tests of the loop body, the outermost first. *)
Ltac split_if :=
  match goal with
  | |- Inv _ _ (if ?b then _ else _) => destruct b eqn:?
  | |- Inv _ _ (match ?x with Some _ => _ | None => _ end) => destruct x eqn:?
  | |- context [if ?b then _ else _] => destruct b eqn:?
  end.

(** Lists of segments, associated to the left and without [[]]. *)
Ltac norm :=
  rewrite ?concat_app in *; cbn [concat segs_of] in *;
  rewrite ?app_nil_r in *; rewrite ?app_assoc in *.

(** A chain from chains at hand: as it is, up to its bounds, extended by
    what [endCurrent] pushed or by a one-character segment, or cut at the
    end. *)
Ltac chains n :=
  first
    [ eassumption
    | eapply chain_weaken; [eassumption | lia | lia]
    | eapply chain_single; eassumption
    | lazymatch n with
      | S ?m =>
          first [ eapply chain_join; [chains m | chains m]
                | eapply chain_prefix; chains m ]
      end ].

(** A list that ends in a non-empty list is not empty. *)
Ltac nonnil :=
  let E := fresh "E" in
  intros E;
  repeat match type of E with
         | _ ++ _ = [] => apply app_eq_nil in E; destruct E as [? E]
         end;
  first [discriminate | contradiction | congruence | tauto].

(** No group of the output is empty. *)
Ltac outs :=
  first
    [ assumption
    | apply Forall_app; split;
      [assumption | constructor; [nonnil | constructor]] ].

(** What the invariant says of [seekState]. *)
Ltac skcond Hsk :=
  let k := fresh "k" in
  let Hk := fresh "Hk" in
  intros k Hk;
  first [ discriminate Hk
        | destruct (Hsk k Hk); first [assumption | split; assumption] ].

(** The current segment after this iteration: opened by it or extended
    by one character. *)
Ltac opens Hop :=
  first
    [ apply open_new; assumption
    | eapply open_append; [eassumption | exact Hop] ].

(** A state without segments that is in a key has just read its ['@']. *)
Ltac n3 :=
  let K := fresh "K" in
  let E := fresh "E" in
  intros K E;
  first
    [ discriminate K
    | reflexivity
    | exfalso; revert E; nonnil ].

(** The invariant after one path through the loop body: [state] is
    emptied, or accumulates a segment, or waits for a bracket. *)
Ltac leaf Hsk Hop :=
  shape; fields;
  repeat match goal with
         | H : open_ok _ _ _ -> _ |- _ => specialize (H Hop)
         end;
  first
    [ apply inv_none; [outs | skcond Hsk | norm; chains 4]
    | apply inv_live;
      [ outs
      | skcond Hsk
      | unfold live; fields;
        split; [first [assumption | reflexivity]|];
        split; [norm; chains 4|];
        split; [opens Hop | n3] ]
    | apply inv_seeking;
      [ outs
      | unfold seeking; fields;
        split; [reflexivity|];
        split; [reflexivity|];
        split; [first [assumption | reflexivity]|];
        split; [nonnil | norm; chains 4] ] ].

(** The block for a state inside brackets keeps the invariant. *)
Lemma inBracketsBlock_inv st sk out :
  pre str i st sk out ->
  inBrackets st = true ->
  (inKey st = true -> segment st <> []) ->
  Inv str (S i) (inBracketsBlock U locators str ignoreLinks i st sk out).
Proof.
  intros (Hout & Hsk & Hss & Hch & Hop & Hn3) Hbr Hne.
  unfold inBracketsBlock, restart, endSegment. cbv zeta.
  rewrite charAt_nat, charAt_next.
  destruct (nth_error str i) as [x|] eqn:Hc.
  2: { simpl. apply inv_none; auto.
       - intros k Hk. now destruct (Hsk k Hk).
       - eapply chain_drop; eauto. destruct Hop. lia. }
  assert (Hf : from (currentSegment st) < i) by apply Hop.
  repeat split_if.
  all: leaf Hsk Hop.
Qed.

(** While the key has just been opened by ['@'], the previous character
    is that ['@']. *)
Lemma fresh_key_prev st :
  open_ok str i (currentSegment st) ->
  (inKey st = true -> segment st = [] ->
   val (currentSegment st) = [ch "@"]) ->
  inKey st = true ->
  segment st = [] ->
  chr_is (charAt str (Z.of_nat i - 1)) "@" = true.
Proof.
  intros Hop Hn3 Hk Hs.
  destruct (open_single _ _ Hop (Hn3 Hk Hs)) as [Hat Hi].
  rewrite <- Hi, charAt_prev, Hat. reflexivity.
Qed.

(** Past the test of the character after ['@'], the state has segments. *)
Ltac have_segments Hprev :=
  try match goal with
      | H : chr_is ?p "@" || _ = false |- _ =>
          let E := fresh "E" in
          assert (segment _ <> [])
            by (intros E; apply Hprev in E; rewrite E in H; discriminate H)
      end.

(** The block for a state inside a key keeps the invariant; a bare state
    has no [seekState] beside it. *)
Lemma inKeyBlock_inv st sk out :
  pre str i st sk out ->
  inKey st = true ->
  Inv str (S i) (inKeyBlock U locators str ignoreLinks i st sk out).
Proof.
  intros Hpre Hkey. pose proof Hpre as (Hout & Hsk & Hss & Hch & Hop & Hn3).
  pose proof (fresh_key_prev st Hop Hn3 Hkey) as Hprev.
  unfold inKeyBlock, punctBlock, closeBare, toSuffix, restart, endSegment.
  cbv zeta. rewrite charAt_nat, charAt_next.
  assert (Hf : from (currentSegment st) < i) by apply Hop.
  destruct (inBrackets st) eqn:Hbr.
  - shape. rewrite ?Hbr. cbn [negb andb].
    destruct (nth_error str i) as [x|] eqn:Hc; cbn [isTerminus].
    + repeat split_if.
      all: have_segments Hprev.
      all: try (leaf Hsk Hop).
      apply inBracketsBlock_inv; [exact Hpre | exact Hbr | auto].
    + leaf Hsk Hop.
  - assert (sk = None) as ->
      by (destruct sk as [k|]; [destruct (Hsk k eq_refl); discriminate|];
          reflexivity).
    shape. rewrite ?Hbr. cbn [negb andb].
    destruct (nth_error str i) as [x|] eqn:Hc; cbn [isTerminus].
    + repeat split_if.
      all: have_segments Hprev.
      all: leaf Hsk Hop.
    + repeat split_if. all: leaf Hsk Hop.
Qed.


(** A state that waits for a bracket may wait longer. *)
Lemma seeking_step X st :
  seeking str X i st -> seeking str X (S i) st.
Proof.
  intros (H1 & H2 & H3 & H4 & H5). repeat (split; [assumption|]).
  eapply chain_weaken; eauto.
Qed.

(** A state that is left alone for one iteration. *)
Lemma inv_idle sc :
  Inv str i sc ->
  match state sc with
  | Some st => seekingSuffix st = true
  | None => True
  end ->
  Inv str (S i) sc.
Proof.
  intros (Hout & Hsk & Hst) Hidle. split; [exact Hout|]. split; [exact Hsk|].
  destruct (state sc) as [st|].
  - right. destruct Hst as [(Hss & _) | Hst]; [congruence|].
    now apply seeking_step.
  - eapply chain_weaken; eauto.
Qed.

(** From the invariant to what the blocks need. *)
Lemma inv_pre sc st :
  Inv str i sc ->
  state sc = Some st ->
  seekingSuffix st = false ->
  pre str i st (seekState sc) (segments sc).
Proof.
  intros (Hout & Hsk & Hst) Hs Hss. rewrite Hs in Hst.
  split; [exact Hout|]. split.
  - intros k Hk. destruct (Hsk k Hk) as [H1 H2]. split; [exact H1|].
    now apply H2.
  - destruct Hst as [Hl | (Hss' & _)]; [exact Hl | congruence].
Qed.

(** A state that waits for a bracket is bare, so that [seekState] is
    empty. *)
Lemma inv_seeking_state sc st :
  Inv str i sc ->
  state sc = Some st ->
  seekingSuffix st = true ->
  seekState sc = None /\ seeking str (concat (segments sc)) i st.
Proof.
  intros (Hout & Hsk & Hst) Hs Hss. rewrite Hs in Hst.
  destruct Hst as [(Hss' & _) | Hst]; [congruence|].
  destruct (seekState sc) as [k|] eqn:Hk.
  - destruct (Hsk k eq_refl) as [_ Hb]. specialize (Hb st Hs).
    destruct Hst as (_ & _ & Hb' & _). congruence.
  - split; [reflexivity|]. simpl in Hst. now rewrite app_nil_r in Hst.
Qed.

(** The block for ['@'] keeps the invariant whenever it returns. *)
Lemma atBlock_inv sc sc' :
  Inv str i sc ->
  chr_is (charAt str (Z.of_nat i)) "@" = true ->
  atBlock U locators str i sc = Some sc' ->
  Inv str (S i) sc'.
Proof.
  intros HI Hat. rewrite charAt_nat in Hat.
  destruct (nth_error str i) as [x|] eqn:Hc; [|discriminate].
  simpl in Hat. apply N.eqb_eq in Hat. subst x.
  pose proof HI as (Hout & Hsk & Hst).
  unfold atBlock. cbv zeta. rewrite charAt_nat, Hc.
  destruct sc as [s sk out]. fields.
  destruct s as [st|].
  - destruct (seekingSuffix st) eqn:Hss.
    + destruct (inv_seeking_state _ st HI eq_refl Hss) as [Hk Hseek].
      fields. subst sk. fields.
      destruct Hseek as (_ & _ & Hbr & Hne & Hch).
      rewrite Hbr. intros [= <-].
      apply inv_live; [assumption | discriminate |].
      unfold live; fields. split; [reflexivity|].
      split; [norm; chains 4|]. split; [opens I | n3].
    + pose proof (inv_pre _ st HI eq_refl Hss)
        as (_ & Hsk' & _ & Hch & Hop & Hn3).
      fields. assert (Hf : from (currentSegment st) < i) by apply Hop.
      destruct sk as [k|].
      * destruct (Hsk' k eq_refl) as [Hk Hbr].
        destruct (shouldCancelSeek st); fields; rewrite Hbr;
          intros [= <-]; leaf Hsk' Hop.
      * fields. destruct (inBrackets st) eqn:Hbr; intros [= <-];
          leaf Hsk' Hop.
  - destruct sk as [k|]; [discriminate|]. fields. intros [= <-].
    fields. apply inv_live; [assumption | discriminate |].
    unfold live; fields. split; [reflexivity|].
    split; [norm; chains 4|]. split; [opens I | n3].
Qed.

(** The tests after the block for ['['] keep the invariant. *)
Lemma afterBracket_inv sc sc' :
  Inv str i sc ->
  afterBracket U locators str ignoreLinks i sc = Some sc' ->
  Inv str (S i) sc'.
Proof.
  intros HI. unfold afterBracket. cbv zeta.
  destruct (chr_is (charAt str (Z.of_nat i)) "@"
            && isValidPreKey (charAt str (Z.of_nat i - 1))) eqn:Hat.
  { apply andb_true_iff in Hat as [Hat _]. now apply atBlock_inv. }
  destruct (state sc) as [st|] eqn:Hs.
  2: { intros [= <-]. apply inv_idle; [exact HI | now rewrite Hs]. }
  destruct (seekingSuffix st) eqn:Hss.
  - destruct (inv_seeking_state sc st HI Hs Hss) as [Hk Hseek].
    pose proof HI as (Hout & _).
    destruct Hseek as (_ & Hkey & Hbr & Hne & Hch).
    cbn [andb]. rewrite Hkey, Hbr. cbn [negb].
    destruct (negb (Chars.test Chars.space (charAt str (Z.of_nat i)))).
    + intros [= <-]. unfold endSegment. rewrite Hk.
      destruct (encounteredKey st).
      * apply inv_none; [outs | discriminate | norm; chains 4].
      * apply inv_none; [outs | discriminate | norm; chains 4].
    + intros [= <-]. apply inv_idle; [exact HI | now rewrite Hs].
  - pose proof (inv_pre sc st HI Hs Hss) as Hpre.
    cbn [andb negb].
    destruct (inKey st) eqn:Hkey.
    { intros [= <-]. now apply inKeyBlock_inv. }
    destruct (inBrackets st) eqn:Hbr.
    { intros [= <-]. apply inBracketsBlock_inv; [exact Hpre | exact Hbr|].
      congruence. }
    intros [= <-]. destruct Hpre as (Hout & Hsk & _ & Hch & Hop & _).
    assert (Hf : from (currentSegment st) < i) by apply Hop.
    apply inv_none; [outs | skcond Hsk | norm; chains 4].
Qed.

(** A bracket opens a state with no segment yet. *)
Lemma openBracket_inv sk out :
  Forall (fun g => g <> []) out ->
  (forall k, sk = Some k -> segment k <> []) ->
  chain str 0 (concat out ++ segs_of sk) i ->
  chr_is (charAt str (Z.of_nat i)) "[" = true ->
  Inv str (S i) (mkScan (Some (openBracket str i)) sk out).
Proof.
  intros Hout Hsk Hch Hc. rewrite charAt_nat in Hc.
  destruct (nth_error str i) as [x|] eqn:Hch'; [|discriminate].
  unfold openBracket. cbv zeta. rewrite charAt_nat, Hch'.
  apply inv_live; [assumption | |].
  - intros k Hk. split; [now apply Hsk|].
    destruct (chr_is (charAt str (Z.of_nat i - 1)) "["); reflexivity.
  - destruct (chr_is (charAt str (Z.of_nat i - 1)) "["); unfold live; fields;
      (split; [reflexivity|]; split; [norm; chains 4|];
       split; [opens I | n3]).
Qed.

(** The loop body keeps the invariant. *)
Lemma step_inv sc sc' :
  Inv str i sc ->
  step U locators str ignoreLinks i sc = Some sc' ->
  Inv str (S i) sc'.
Proof.
  intros HI. unfold step. cbv zeta.
  destruct (chr_is (charAt str (Z.of_nat i)) "[") eqn:Hc;
    [|now apply afterBracket_inv].
  pose proof HI as (Hout & Hsk & Hst).
  destruct (state sc) as [st|] eqn:Hs.
  - destruct (bracketDepth (set_bracketDepth (bracketDepth st + 1) st) =? 1)%Z.
    + intros [= <-]. fields.
      destruct (seekingSuffix st) eqn:Hss.
      * destruct (inv_seeking_state sc st HI Hs Hss) as [Hk Hseek].
        destruct Hseek as (_ & _ & _ & Hne & Hch).
        apply openBracket_inv;
          [ exact Hout
          | intros k [= <-]; exact Hne
          | simpl; eapply chain_weaken; eauto
          | exact Hc ].
      * destruct (inv_pre sc st HI Hs Hss) as (_ & Hsk' & _ & Hch & Hop & _).
        assert (Hf : from (currentSegment st) < i) by apply Hop.
        apply openBracket_inv;
          [ exact Hout
          | intros k Hk; now destruct (Hsk' k Hk)
          | chains 4
          | exact Hc ].
    + apply afterBracket_inv.
      split; [exact Hout|]. split.
      * intros k Hk. destruct (Hsk k Hk) as [H1 H2]. split; [exact H1|].
        intros st0 [= <-]. fields. now apply H2.
      * fields. destruct Hst as [Hl | Hl]; [left | right]; exact Hl.
  - destruct (chr_is (charAt str (Z.of_nat i + 1)) "[").
    + intros [= <-]. apply inv_idle; [exact HI | now rewrite Hs].
    + intros [= <-].
      apply openBracket_inv;
        [ exact Hout
        | intros k Hk; now destruct (Hsk k Hk)
        | exact Hst
        | exact Hc ].
Qed.

End StepInv.

(** ** The whole scan *)

Section Scan.

Variable U : Unicode.
Variable locators : jstr -> option RegExpMatch.
Hypothesis locators_good : locators_ok locators.
Variable str : jstr.
Variable ignoreLinks : bool.

Lemma loop_inv n :
  forall i sc sc',
    Inv str i sc ->
    loop U locators str ignoreLinks n i sc = Some sc' ->
    Inv str (i + n) sc'.
Proof.
  induction n as [|n IH]; simpl; intros i sc sc' HI H.
  - injection H as <-. now rewrite Nat.add_0_r.
  - destruct (step U locators str ignoreLinks i sc) as [sc1|] eqn:Hs;
      [|discriminate].
    rewrite <- Nat.add_succ_comm. eapply IH; [|exact H].
    eapply step_inv; eauto.
Qed.

Lemma inv_start : Inv str 0 (mkScan None None []).
Proof.
  split; [constructor|]. split; [discriminate|]. simpl. lia.
Qed.

(** The groups of the output, one after the other, are one chain of
    well-formed segments, and no group is empty. *)
Lemma output_chain out :
  getCitationSegments U locators str ignoreLinks = Some out ->
  Forall (fun g => g <> []) out
  /\ exists hi, chain str 0 (concat out) hi.
Proof.
  unfold getCitationSegments.
  destruct (loop U locators str ignoreLinks (length str + 1) 0
              (mkScan None None [])) as [sc|] eqn:Hl; [|discriminate].
  intros [= <-].
  pose proof (loop_inv _ _ _ _ inv_start Hl) as (Hout & Hsk & Hst).
  destruct (state sc) as [st|] eqn:Hs; simpl.
  - destruct (seekingSuffix st) eqn:Hss.
    + destruct Hst as [(Hss' & _) | (_ & _ & Hbr & Hne & Hch)];
        [congruence|].
      split.
      * apply Forall_app; split; [assumption|].
        constructor; [assumption | constructor].
      * destruct (seekState sc) as [k|] eqn:Hk.
        { destruct (Hsk k eq_refl) as [_ Hb]. specialize (Hb st eq_refl).
          congruence. }
        simpl in Hch. rewrite app_nil_r in Hch.
        rewrite concat_app. simpl. rewrite app_nil_r. eauto.
    + split; [assumption|].
      destruct Hst as [(_ & Hch & _) | (Hss' & _)]; [|congruence].
      rewrite <- app_assoc in Hch. apply chain_prefix in Hch. eauto.
  - split; [assumption|]. apply chain_prefix in Hst. eauto.
Qed.

End Scan.

Lemma in_concat_split (A : Type) (g : list A) out :
  In g out -> exists l1 l2, concat out = l1 ++ g ++ l2.
Proof.
  intros H. apply in_split in H as (o1 & o2 & ->).
  exists (concat o1), (concat o2). now rewrite concat_app.
Qed.

Lemma last_In (A : Type) (l : list A) d : l <> [] -> In (last l d) l.
Proof.
  induction l as [|x l IH]; [contradiction|]. intros _.
  destruct l as [|y l]; [now left|].
  right. apply IH. discriminate.
Qed.

Section Groups.

Variable str : jstr.

(** The text of a chain of segments is never longer than its span, and as
    long exactly when the segments are contiguous. *)
Lemma chain_vals r :
  forall x lo hi,
    chain str lo (x :: r) hi ->
    from x < to (last r x)
    /\ to (last r x) <= length str
    /\ length (vals (x :: r)) <= to (last r x) - from x
    /\ (contiguous (x :: r) ->
        vals (x :: r) = slice str (from x) (to (last r x)))
    /\ (length (vals (x :: r)) = to (last r x) - from x ->
        contiguous (x :: r)).
Proof.
  induction r as [|y r IH]; intros x lo hi (Hlo & (Hf & Ht & Hv) & Hr).
  - unfold vals. simpl. rewrite app_nil_r, Hv.
    rewrite slice_length by lia. repeat split; auto; lia.
  - destruct (IH y _ _ Hr) as (H1 & H2 & H3 & H4 & H5).
    destruct Hr as (Hxy & _ & _).
    assert (Hlast : last (y :: r) x = last r y)
      by (clear; revert y; induction r as [|z r IHr]; intros y;
          [reflexivity | simpl in *; destruct r; [reflexivity | apply IHr]]).
    rewrite Hlast.
    assert (Hlen : length (vals (x :: y :: r))
                   = (to x - from x) + length (vals (y :: r))).
    { unfold vals. simpl. rewrite length_app, Hv, slice_length by lia.
      reflexivity. }
    split; [lia|]. split; [lia|]. split; [lia|]. split.
    + intros [Hc Hcr]. specialize (H4 Hcr).
      change (vals (x :: y :: r)) with (val x ++ vals (y :: r)).
      rewrite H4, Hv, Hc. apply slice_app; lia.
    + intros E. split; [lia|]. apply H5. lia.
Qed.

Lemma group_round_trip g lo hi :
  chain str lo g hi ->
  g <> [] ->
  exists a b,
    span g = Some (a, b)
    /\ (vals g = slice str a b <-> contiguous g).
Proof.
  intros Hch Hne. destruct g as [|x r]; [contradiction|].
  destruct (chain_vals r x lo hi Hch) as (H1 & H2 & H3 & H4 & H5).
  assert (Hlast : last (x :: r) x = last r x)
    by (destruct r; reflexivity).
  exists (from x), (to (last r x)). split.
  - unfold span. now rewrite Hlast.
  - split; [|exact H4]. intros E. apply H5.
    rewrite E, slice_length; lia.
Qed.

End Groups.

(** C3: every segment of every emitted group has [from < to]; the segments
    of a group are sorted by position and pairwise disjoint; and of two
    consecutive groups the first ends before the second starts.  The
    expression [locators], which is not among the sources, is assumed to
    match as the scanner reads its matches ([locators_ok]). *)
Theorem segments_ordered :
  forall U locators str ignoreLinks out,
    locators_ok locators ->
    getCitationSegments U locators str ignoreLinks = Some out ->
    (forall g s, In g out -> In s g -> from s < to s)
    /\ (forall g, In g out -> sorted g)
    /\ (forall n g g',
          nth_error out n = Some g ->
          nth_error out (S n) = Some g' ->
          exists a b a' b',
            span g = Some (a, b) /\ span g' = Some (a', b') /\ b <= a').
Proof.
  intros U locators str il out Hgood Hout.
  destruct (output_chain U locators Hgood str il out Hout)
    as (Hne & hi & Hch).
  split; [|split].
  - intros g s Hg Hs.
    assert (Hin : In s (concat out)) by (apply in_concat; eauto).
    destruct (chain_In _ _ _ _ _ Hch Hin) as (_ & _ & (H & _)). exact H.
  - intros g Hg. destruct (in_concat_split _ g out Hg) as (l1 & l2 & E).
    rewrite E in Hch. apply chain_suffix in Hch. apply chain_prefix in Hch.
    eapply chain_sorted; eauto.
  - intros n g g' Hg Hg'.
    destruct (nth_error_split _ _ Hg) as (o1 & o2 & -> & Hlen).
    assert (Ho2 : exists o3, o2 = g' :: o3).
    { rewrite nth_error_app2 in Hg' by lia.
      replace (S n - length o1) with 1 in Hg' by lia.
      simpl in Hg'. destruct o2 as [|x o3]; [discriminate|].
      injection Hg' as ->. eauto. }
    destruct Ho2 as (o3 & ->).
    rewrite Forall_forall in Hne.
    assert (Hgne : g <> []) by (apply Hne; apply in_or_app; right; now left).
    assert (Hgne' : g' <> [])
      by (apply Hne; apply in_or_app; right; right; now left).
    destruct g as [|x r]; [contradiction|].
    destruct g' as [|x' r']; [contradiction|].
    exists (from x), (to (last (x :: r) x)), (from x'),
      (to (last (x' :: r') x')).
    split; [reflexivity|]. split; [reflexivity|].
    rewrite concat_app in Hch. simpl in Hch.
    apply chain_suffix in Hch.
    eapply chain_before
      with (a := x :: r) (b := (x' :: r') ++ concat o3);
      [exact Hch | |].
    + apply last_In. discriminate.
    + now left.
Qed.

(** ** The sample of [locators] and the theorems at particular texts *)

Lemma span_app p s : fst (Sample.span p s) ++ snd (Sample.span p s) = s.
Proof.
  induction s as [|c s IH]; simpl; [reflexivity|].
  destruct (p c); [|reflexivity].
  destruct (Sample.span p s) as [a b]. simpl in *. now rewrite IH.
Qed.

Lemma starts_with_app l :
  forall s, starts_with l s = true -> s = l ++ skipn (length l) s.
Proof.
  induction l as [|x l IH]; intros s H; [reflexivity|].
  destruct s as [|c s]; [discriminate|]. simpl in H.
  apply andb_true_iff in H as [Hx Hl]. apply N.eqb_eq in Hx. subst c.
  simpl. f_equal. now apply IH.
Qed.

Lemma sample_locators_ok : locators_ok Sample.locators.
Proof.
  intros v m. unfold Sample.locators.
  pose proof (span_app (Chars.one_of (text ", ")) v) as Hv.
  destruct (Sample.span (Chars.one_of (text ", ")) v) as [sp0 rest].
  simpl in Hv.
  destruct (find (fun l => starts_with l rest) Sample.labels)
    as [label|] eqn:Hfind; [|discriminate].
  apply find_some in Hfind as [Hin Hstart].
  pose proof (span_app Chars.space (skipn (length label) rest)) as Hr.
  destruct (Sample.span Chars.space (skipn (length label) rest))
    as [sp1 rest1].
  simpl in Hr. intros [= <-]. simpl.
  split; [reflexivity|]. split; [reflexivity|]. split.
  - exists rest1. rewrite <- !app_assoc, Hr.
    now rewrite <- (starts_with_app label rest Hstart).
  - intros ->. simpl in Hin.
    repeat (destruct Hin as [Hin | Hin]; [discriminate Hin|]).
    contradiction.
Qed.

Lemma segments_ordered_witness :
  locators_ok Sample.locators
  /\ getCitationSegments Sample.unicode Sample.locators MergedExamples.two false
     = Some MergedExamples.two_groups
  /\ (forall g s, In g MergedExamples.two_groups -> In s g ->
        from s < to s)
  /\ (forall g, In g MergedExamples.two_groups -> sorted g)
  /\ (forall n g g',
        nth_error MergedExamples.two_groups n = Some g ->
        nth_error MergedExamples.two_groups (S n) = Some g' ->
        exists a b a' b',
          span g = Some (a, b) /\ span g' = Some (a', b') /\ b <= a').
Proof.
  assert (H : getCitationSegments Sample.unicode Sample.locators
                MergedExamples.two false
              = Some MergedExamples.two_groups)
    by (vm_compute; reflexivity).
  split; [exact sample_locators_ok|]. split; [exact H|].
  exact (segments_ordered Sample.unicode Sample.locators
           MergedExamples.two false MergedExamples.two_groups
           sample_locators_ok H).
Defined.

(** C2, as stated, fails on its own example, the merged group of
    [@key [p. 4]]: the [val]s spell [@key[p. 4]], without the blank between
    the key and the bracket, while the group spans the whole text. *)
Lemma merged_group_round_trip_counterexample :
  ~ (forall str ignoreLinks out g a b,
       getCitationSegments Sample.unicode Sample.locators str ignoreLinks
       = Some out ->
       In g out ->
       span g = Some (a, b) ->
       vals g = slice str a b).
Proof.
  intros H.
  specialize (H MergedExamples.input false [MergedExamples.group]
                MergedExamples.group 0 11).
  assert (H1 : getCitationSegments Sample.unicode Sample.locators
                 MergedExamples.input false
               = Some [MergedExamples.group])
    by (vm_compute; reflexivity).
  specialize (H H1 (or_introl eq_refl) eq_refl).
  vm_compute in H. discriminate H.
Qed.

(** The gap of a merged group does not depend on [locators]. *)
Example merged_group_gap :
  forall U locators,
    getCitationSegments U locators (text "@a []") false
      = Some [Examples.merged]
    /\ span Examples.merged = Some (0, 5)
    /\ vals Examples.merged = text "@a[]"
    /\ slice (text "@a []") 0 5 = text "@a []".
Proof. intros. repeat split; vm_compute; reflexivity. Qed.

(** The scan can end in a [TypeError], which is why the theorems about its
    output speak of a scan that returns: after a bare citation, an opening
    bracket and a line break, [seekState] is set and [state] is [null]; the
    next ['@'] reads [state.shouldCancelSeek]. *)
Example scan_type_error :
  forall U locators ignoreLinks,
    getCitationSegments U locators
      (text "@a [" ++ [Chars.LF] ++ text "@b") ignoreLinks
    = None.
Proof. intros. vm_compute. reflexivity. Qed.

(** ** More on the Aggregator and on [getSegmentData] *)

Lemma has_type_true ty s : has_type ty s = true <-> type s = ty.
Proof.
  unfold has_type. destruct (type s), ty; simpl; split; congruence.
Qed.

Lemma has_type_false ty s : has_type ty s = false <-> type s <> ty.
Proof.
  rewrite <- has_type_true. destruct (has_type ty s); split; congruence.
Qed.

Lemma count_type_cons ty s segs :
  count_type ty (s :: segs)
  = (if has_type ty s then 1 else 0) + count_type ty segs.
Proof. unfold count_type; simpl. now destruct (has_type ty s). Qed.

Lemma count_type_none ty segs :
  count_type ty segs = 0 <-> forall s, In s segs -> type s <> ty.
Proof.
  induction segs as [|s segs IH]; [simpl; tauto|].
  rewrite count_type_cons. split.
  - intros H x [<- | Hx].
    + apply has_type_false. destruct (has_type ty s); [discriminate|easy].
    + apply IH; [|exact Hx]. destruct (has_type ty s); simpl in H; lia.
  - intros H. assert (Hs : has_type ty s = false)
      by (apply has_type_false, H; now left).
    rewrite Hs. simpl. apply IH. intros x Hx. apply H. now right.
Qed.

Lemma last_of_snoc ty segs s :
  last_of ty (segs ++ [s])
  = if has_type ty s then Some s else last_of ty segs.
Proof. unfold last_of. now rewrite rev_app_distr. Qed.

Lemma last_of_cons ty s segs :
  last_of ty (s :: segs)
  = match last_of ty segs with
    | Some x => Some x
    | None => if has_type ty s then Some s else None
    end.
Proof.
  unfold last_of; simpl.
  induction (rev segs) as [|x l IH]; simpl; [reflexivity|].
  now destruct (has_type ty x).
Qed.


(** *** White space at the ends *)

Lemma trimStart_hd s c :
  hd_error (trimStart s) = Some c -> white c = false.
Proof.
  induction s as [|x s IH]; simpl; [discriminate|].
  destruct (white x) eqn:E; [exact IH|].
  simpl. now intros [= <-].
Qed.

Lemma hd_error_app (A : Type) (a b : list A) :
  a <> [] -> hd_error (a ++ b) = hd_error a.
Proof. now destruct a. Qed.

Lemma trimStart_last s :
  trimStart s <> [] -> hd_error (rev (trimStart s)) = hd_error (rev s).
Proof.
  induction s as [|x s IH]; simpl; [reflexivity|].
  destruct (white x); [|reflexivity].
  intros H. rewrite IH by exact H.
  symmetry. apply hd_error_app.
  intros E. apply (f_equal (@rev N)) in E. rewrite rev_involutive in E.
  subst s. now apply H.
Qed.

Lemma trim_tight s : trim s <> [] -> tight (trim s).
Proof.
  unfold trim. intros H. split; [exact H|]. split.
  - intros c Hc.
    assert (Hne : trimStart (rev (trimStart s)) <> [])
      by (intros E; now rewrite E in H).
    rewrite trimStart_last, rev_involutive in Hc by exact Hne.
    now apply trimStart_hd in Hc.
  - intros c Hc. rewrite rev_involutive in Hc. now apply trimStart_hd in Hc.
Qed.

Lemma trimmed_tight x : tight_field (trimmed x).
Proof.
  unfold trimmed. destruct x as [v|]; [|exact I].
  destruct (truthy (trim v)) eqn:E; [|exact I].
  apply trim_tight. now destruct (trim v).
Qed.

Lemma nonempty_some x v : nonempty x = Some v -> v <> [].
Proof.
  unfold nonempty. destruct x as [w|]; [|discriminate].
  destruct w; [discriminate|]. now intros [= <-].
Qed.

Section AggregatorMore.

Variable locatorToTerm : jstr -> option (jstr -> option jstr).
Variable locale : jstr.

(** *** How many records *)

Lemma visit_count i seg v :
  length (cites v)
    + (if has_type SegmentType.separator seg then 1 else 0)
  <= length (cites (visit locatorToTerm locale i seg v))
  /\ length (cites (visit locatorToTerm locale i seg v))
     <= length (cites v)
        + (if has_type SegmentType.separator seg then 1 else 0)
        + (if has_type SegmentType.suppressor seg then 1 else 0).
Proof.
  unfold visit, has_type. destruct (type seg); simpl; try lia.
  - destruct (i =? 0); simpl; lia.
  - destruct (composite v); simpl; rewrite ?length_app; simpl; lia.
  - rewrite length_app; simpl; lia.
Qed.

Lemma visit_all_count segs :
  forall i v,
    length (cites v) + count_type SegmentType.separator segs
    <= length (cites (visit_all locatorToTerm locale i segs v))
    /\ length (cites (visit_all locatorToTerm locale i segs v))
       <= length (cites v) + count_type SegmentType.separator segs
          + count_type SegmentType.suppressor segs.
Proof.
  induction segs as [|seg rest IH]; intros i v.
  - unfold count_type; simpl; lia.
  - simpl visit_all. rewrite !count_type_cons.
    specialize (IH (S i) (visit locatorToTerm locale i seg v)).
    pose proof (visit_count i seg v). lia.
Qed.

(** *** Where the identifiers come from *)

Lemma visit_keyed all i seg v :
  In seg all ->
  keyed all (key v) ->
  Forall (fun c => keyed all (Citation.id c)) (cites v) ->
  keyed all (key (visit locatorToTerm locale i seg v))
  /\ Forall (fun c => keyed all (Citation.id c))
       (cites (visit locatorToTerm locale i seg v)).
Proof.
  intros Hin Hk Hc. unfold visit.
  destruct (type seg) eqn:Hty; simpl; try (split; assumption).
  - destruct (i =? 0); split; assumption.
  - split; [|assumption]. right. exists seg. auto.
  - destruct (composite v); simpl; [|split; assumption].
    split; [assumption|].
    apply Forall_app; split; [assumption|].
    constructor; [exact Hk | constructor].
  - split; [assumption|].
    apply Forall_app; split; [assumption|].
    constructor; [exact Hk | constructor].
Qed.

Lemma visit_all_keyed all segs :
  (forall s, In s segs -> In s all) ->
  forall i v,
    keyed all (key v) ->
    Forall (fun c => keyed all (Citation.id c)) (cites v) ->
    keyed all (key (visit_all locatorToTerm locale i segs v))
    /\ Forall (fun c => keyed all (Citation.id c))
         (cites (visit_all locatorToTerm locale i segs v)).
Proof.
  induction segs as [|seg rest IH]; simpl; intros Hall i v Hk Hc; auto.
  destruct (visit_keyed all i seg v) as [Hk' Hc']; auto.
Qed.

Lemma visit_all_last_key segs :
  forall i v,
    key (visit_all locatorToTerm locale i segs v)
    = match last_of SegmentType.key segs with
      | Some s => Some (val s)
      | None => key v
      end.
Proof.
  induction segs as [|seg rest IH]; intros i v; [reflexivity|].
  simpl visit_all. rewrite IH, last_of_cons.
  destruct (last_of SegmentType.key rest); [reflexivity|].
  destruct (has_type SegmentType.key seg) eqn:E.
  - apply has_type_true in E. unfold visit. now rewrite E.
  - now apply visit_key.
Qed.

(** *** The shape of the text fields *)

Lemma visit_infix i seg v :
  infix v = None -> infix (visit locatorToTerm locale i seg v) = None.
Proof.
  intros H. unfold visit. destruct (type seg); simpl; auto.
  - now destruct (i =? 0).
  - now destruct (composite v).
Qed.

Lemma visit_no_infix i seg v :
  infix v = None ->
  Forall (fun c => Citation.infix c = None) (cites v) ->
  Forall (fun c => Citation.infix c = None)
    (cites (visit locatorToTerm locale i seg v)).
Proof.
  intros H Hc. unfold visit. destruct (type seg); simpl; auto.
  - now destruct (i =? 0).
  - destruct (composite v); simpl; auto.
    apply Forall_app; split; [assumption|].
    constructor; [simpl; now rewrite H | constructor].
  - apply Forall_app; split; [assumption|].
    constructor; [simpl; now rewrite H | constructor].
Qed.

Lemma visit_all_no_infix segs :
  forall i v,
    infix v = None ->
    Forall (fun c => Citation.infix c = None) (cites v) ->
    infix (visit_all locatorToTerm locale i segs v) = None
    /\ Forall (fun c => Citation.infix c = None)
         (cites (visit_all locatorToTerm locale i segs v)).
Proof.
  induction segs as [|seg rest IH]; simpl; intros i v H Hc; auto.
  apply IH; [now apply visit_infix | now apply visit_no_infix].
Qed.

Lemma resolve_some x v : resolve locatorToTerm locale x = Some v -> v <> [].
Proof.
  unfold resolve. destruct (nonempty x); [|discriminate].
  destruct (locatorToTerm locale); [|discriminate].
  apply nonempty_some.
Qed.

(** *** The flag [composite] *)

Lemma visit_not_composite i seg v :
  (i = 0 -> type seg <> SegmentType.at_) ->
  type seg <> SegmentType.litNote ->
  composite v = false ->
  Forall (fun c => Citation.composite c = None) (cites v) ->
  composite (visit locatorToTerm locale i seg v) = false
  /\ Forall (fun c => Citation.composite c = None)
       (cites (visit locatorToTerm locale i seg v)).
Proof.
  intros Hat Hlit Hv Hc. unfold visit.
  destruct (type seg) eqn:Hty; simpl; try (split; assumption);
    try congruence.
  - destruct (i =? 0) eqn:E; [|split; assumption].
    apply Nat.eqb_eq in E. now destruct (Hat E).
  - rewrite Hv. split; assumption.
  - split; [reflexivity|].
    apply Forall_app; split; [assumption|].
    constructor; [simpl; now rewrite Hv | constructor].
Qed.

Lemma visit_all_not_composite segs :
  forall i v,
    (i = 0 -> forall s, hd_error segs = Some s ->
              type s <> SegmentType.at_) ->
    count_type SegmentType.litNote segs = 0 ->
    composite v = false ->
    Forall (fun c => Citation.composite c = None) (cites v) ->
    composite (visit_all locatorToTerm locale i segs v) = false
    /\ Forall (fun c => Citation.composite c = None)
         (cites (visit_all locatorToTerm locale i segs v)).
Proof.
  induction segs as [|seg rest IH]; simpl; intros i v Hat Hlit Hv Hc; auto.
  rewrite count_type_cons in Hlit.
  destruct (has_type SegmentType.litNote seg) eqn:E; [simpl in Hlit; lia|].
  apply has_type_false in E.
  destruct (visit_not_composite i seg v) as [Hv' Hc']; auto.
  apply IH; auto. discriminate.
Qed.

Lemma visit_bare_first i seg v :
  bare_first v -> bare_first (visit locatorToTerm locale i seg v).
Proof.
  intros [(Hc & Hm & Hs) | (c & rest & Hc & Hf)]; unfold visit.
  - destruct (type seg); simpl; try (left; now auto).
    + destruct (i =? 0); left; auto.
    + rewrite Hm. simpl. right. rewrite Hc. simpl.
      eexists _, _. split; [reflexivity|]. right. simpl. now rewrite Hs.
    + right. rewrite Hc. simpl. eexists _, _. split; [reflexivity|].
      left. simpl. now rewrite Hm.
  - right. exists c.
    destruct (type seg); simpl; try (now exists rest).
    + destruct (i =? 0); simpl; now exists rest.
    + destruct (composite v); simpl; [|now exists rest].
      rewrite Hc. simpl. eexists; split; [reflexivity | assumption].
    + rewrite Hc. simpl. eexists; split; [reflexivity | assumption].
Qed.

Lemma visit_all_bare_first segs :
  forall i v,
    bare_first v -> bare_first (visit_all locatorToTerm locale i segs v).
Proof.
  induction segs as [|seg rest IH]; simpl; intros i v H; auto.
  apply IH. now apply visit_bare_first.
Qed.

(** Without a [suppressor] nothing sets [onlyAuthor]. *)
Lemma visit_all_not_author_only segs :
  forall i v,
    count_type SegmentType.suppressor segs = 0 ->
    onlyAuthor v = false ->
    Forall (fun c => Citation.author_only c = None) (cites v) ->
    onlyAuthor (visit_all locatorToTerm locale i segs v) = false
    /\ Forall (fun c => Citation.author_only c = None)
         (cites (visit_all locatorToTerm locale i segs v)).
Proof.
  induction segs as [|s l IH]; simpl; intros i v H0 Hv Hcs; auto.
  rewrite count_type_cons in H0.
  destruct (has_type SegmentType.suppressor s) eqn:E;
    [simpl in H0; lia|].
  apply has_type_false in E.
  apply IH; [exact H0 | |]; unfold visit;
    destruct (type s); simpl; try assumption; try congruence;
    try (now destruct (i =? 0)).
  apply Forall_app; split; [assumption|].
  constructor; [|constructor]. simpl. rewrite Hv.
  now rewrite !andb_false_r.
Qed.

(** *** [getCitations] and [getSegmentData] on a single citation *)

Lemma visit_agree b i seg v d :
  type seg <> SegmentType.separator ->
  type seg <> SegmentType.suppressor ->
  (b = true -> type seg <> SegmentType.locator) ->
  agree b v d ->
  agree b (visit locatorToTerm locale i seg v) (SegmentData.assign d seg).
Proof.
  intros Hsep Hsup Hloc (Hc & Hk & Hp & Hl & Hb & Hn & Ht & Hs).
  unfold visit, SegmentData.assign, agree.
  destruct (type seg); simpl; try congruence;
    try (repeat split; solve [assumption | reflexivity]).
  - destruct (i =? 0); simpl; repeat split; assumption.
  - repeat split; try assumption. intros E. now destruct (Hloc E).
Qed.

Lemma visit_all_agree b segs :
  forall i v d,
    count_type SegmentType.separator segs = 0 ->
    count_type SegmentType.suppressor segs = 0 ->
    (b = true -> count_type SegmentType.locator segs = 0) ->
    agree b v d ->
    agree b (visit_all locatorToTerm locale i segs v)
      (fold_left SegmentData.assign segs d).
Proof.
  induction segs as [|seg rest IH]; simpl; intros i v d Hsep Hsup Hloc H;
    [assumption|].
  rewrite count_type_cons in Hsep, Hsup.
  destruct (has_type SegmentType.separator seg) eqn:E1;
    [simpl in Hsep; lia|].
  destruct (has_type SegmentType.suppressor seg) eqn:E2;
    [simpl in Hsup; lia|].
  apply has_type_false in E1, E2.
  assert (Hl : b = true ->
               type seg <> SegmentType.locator
               /\ count_type SegmentType.locator rest = 0).
  { intros Hb. specialize (Hloc Hb). rewrite count_type_cons in Hloc.
    destruct (has_type SegmentType.locator seg) eqn:E3;
      [simpl in Hloc; lia|].
    apply has_type_false in E3. auto. }
  apply IH; auto.
  - intros Hb. now apply Hl.
  - apply visit_agree; auto. intros Hb. now apply Hl.
Qed.

(** The facts above, for the result of [getCitations]. *)
Lemma getCitations_inv (P : Vars -> Prop) (Q : Citation.t -> Prop) segs G :
  getCitations locatorToTerm locale segs = Some G ->
  P (visit_all locatorToTerm locale 0 segs init) ->
  (P (visit_all locatorToTerm locale 0 segs init) ->
   Forall Q (cites (visit_all locatorToTerm locale 0 segs init))
   /\ Q (cite_of locatorToTerm locale
          (visit_all locatorToTerm locale 0 segs init))) ->
  Forall Q (citations G).
Proof.
  intros HG HP HQ.
  destruct segs as [|first rest]; [discriminate|].
  destruct (getCitations_some locatorToTerm locale (first :: rest))
    as (G' & HG' & _ & Hc); [discriminate|].
  rewrite HG in HG'. injection HG' as <-. rewrite Hc.
  destruct (HQ HP) as [H1 H2].
  apply Forall_app; split; [assumption|].
  constructor; [assumption | constructor].
Qed.

End AggregatorMore.

(** X14: [getCitations] makes one record for each [separator] and one at the
    end of the group; a [suppressor] adds at most one more (the one that
    follows a composite citation). So a group without a [suppressor] has as
    many citations as it has separators, plus one. *)
Theorem getCitations_one_citation_per_separator :
  forall locatorToTerm locale segs G,
    getCitations locatorToTerm locale segs = Some G ->
    1 + count_type SegmentType.separator segs <= length (citations G)
    /\ length (citations G)
       <= 1 + count_type SegmentType.separator segs
          + count_type SegmentType.suppressor segs.
Proof.
  intros T locale segs G HG.
  destruct segs as [|first rest]; [discriminate|].
  destruct (getCitations_some T locale (first :: rest))
    as (G' & HG' & _ & Hc); [discriminate|].
  rewrite HG in HG'. injection HG' as <-.
  rewrite Hc, length_app. cbn [length].
  pose proof (visit_all_count T locale (first :: rest) 0 init) as H.
  change (length (cites init)) with 0 in H. lia.
Qed.

Lemma getCitations_one_citation_per_separator_witness :
  getCitations SampleTerms.locatorToTerm (text "en-US")
    CrossrefExamples.mixed_segments = Some CrossrefExamples.mixed
  /\ 1 + count_type SegmentType.separator CrossrefExamples.mixed_segments
     <= length (citations CrossrefExamples.mixed)
  /\ length (citations CrossrefExamples.mixed)
     <= 1 + count_type SegmentType.separator CrossrefExamples.mixed_segments
        + count_type SegmentType.suppressor CrossrefExamples.mixed_segments.
Proof.
  assert (H : getCitations SampleTerms.locatorToTerm (text "en-US")
                CrossrefExamples.mixed_segments
              = Some CrossrefExamples.mixed) by reflexivity.
  split; [exact H|].
  exact (getCitations_one_citation_per_separator _ _ _ _ H).
Defined.

(** X15: The [id] of every citation of a group is undefined or the text of one
    of the group's [key] segments, and the [id] of the last citation is the
    text of the last [key] segment: [getCitations] keeps the key from one
    citation to the next and makes up none. *)
Theorem getCitations_ids_are_key_texts :
  forall locatorToTerm locale segs G,
    getCitations locatorToTerm locale segs = Some G ->
    (forall c, In c (citations G) ->
       Citation.id c = None
       \/ exists s, In s segs /\ type s = SegmentType.key
                    /\ Citation.id c = Some (val s))
    /\ exists front final,
         citations G = front ++ [final]
         /\ Citation.id final
            = option_map val (last_of SegmentType.key segs).
Proof.
  intros T locale segs G HG.
  destruct segs as [|first rest]; [discriminate|].
  set (segs := first :: rest) in *.
  destruct (getCitations_some T locale segs) as (G' & HG' & _ & Hc);
    [discriminate|].
  rewrite HG in HG'. injection HG' as <-.
  split.
  - destruct (visit_all_keyed T locale segs segs (fun s H => H) 0 init)
      as [Hk Hcs]; [now left | constructor |].
    intros c Hin. rewrite Hc in Hin. apply in_app_or in Hin as [Hin | Hin].
    + rewrite Forall_forall in Hcs. now apply Hcs.
    + destruct Hin as [<- | []]. exact Hk.
  - eexists _, _. split; [exact Hc|].
    unfold cite_of. cbn [Citation.id]. rewrite visit_all_last_key.
    now destruct (last_of SegmentType.key segs).
Qed.

Lemma getCitations_ids_are_key_texts_witness :
  getCitations SampleTerms.locatorToTerm (text "en-US")
    CrossrefExamples.mixed_segments = Some CrossrefExamples.mixed
  /\ (forall c, In c (citations CrossrefExamples.mixed) ->
        Citation.id c = None
        \/ exists s, In s CrossrefExamples.mixed_segments
                     /\ type s = SegmentType.key
                     /\ Citation.id c = Some (val s))
  /\ exists front final,
       citations CrossrefExamples.mixed = front ++ [final]
       /\ Citation.id final
          = option_map val
              (last_of SegmentType.key CrossrefExamples.mixed_segments).
Proof.
  assert (H : getCitations SampleTerms.locatorToTerm (text "en-US")
                CrossrefExamples.mixed_segments
              = Some CrossrefExamples.mixed) by reflexivity.
  split; [exact H|].
  exact (getCitations_ids_are_key_texts _ _ _ _ H).
Defined.

(** X16: What [getCitations] stores in a citation is never blank: a [prefix],
    [suffix], [litNote] or [citeType] that is present is not empty and neither
    starts nor ends with white space, a [locator] or a [label] that is present
    is not empty, and [infix] is never present. *)
Theorem getCitations_stores_trimmed_text :
  forall locatorToTerm locale segs G c,
    getCitations locatorToTerm locale segs = Some G ->
    In c (citations G) ->
    tight_field (Citation.prefix c)
    /\ tight_field (Citation.suffix c)
    /\ tight_field (Citation.litNote c)
    /\ tight_field (Citation.citeType c)
    /\ Citation.locator c <> Some []
    /\ Citation.label c <> Some []
    /\ Citation.infix c = None.
Proof.
  intros T locale segs G c HG Hin.
  assert (Hall : Forall
                   (fun c =>
                      tight_field (Citation.prefix c)
                      /\ tight_field (Citation.suffix c)
                      /\ tight_field (Citation.litNote c)
                      /\ tight_field (Citation.citeType c)
                      /\ Citation.locator c <> Some []
                      /\ Citation.label c <> Some [])
                   (citations G)).
  { eapply getCitations_cites; [|exact HG].
    intros w. simpl.
    repeat (split; [apply trimmed_tight|]). split.
    - intros E. now apply nonempty_some in E.
    - intros E. now apply resolve_some in E. }
  assert (Hinf : Forall (fun c => Citation.infix c = None) (citations G)).
  { apply (getCitations_inv T locale (fun v => infix v = None) _ segs G HG).
    - now apply visit_all_no_infix.
    - intros Hv. split.
      + now apply visit_all_no_infix.
      + simpl. now rewrite Hv. }
  rewrite Forall_forall in Hall, Hinf.
  specialize (Hall c Hin). specialize (Hinf c Hin). tauto.
Qed.

Lemma getCitations_stores_trimmed_text_witness :
  getCitations SampleTerms.locatorToTerm (text "en-US")
    (Examples.labelled "p.")
  = Some (mkGroup (Examples.labelled "p.")
            [Citation.mk None None None (Some (text "12"))
               (Some (text "page")) None None None None None
               (Some (text "doe2020"))] 0 17)
  /\ In (Citation.mk None None None (Some (text "12"))
           (Some (text "page")) None None None None None
           (Some (text "doe2020")))
       (citations
          (mkGroup (Examples.labelled "p.")
             [Citation.mk None None None (Some (text "12"))
                (Some (text "page")) None None None None None
                (Some (text "doe2020"))] 0 17))
  /\ tight_field None /\ tight_field None /\ tight_field None
  /\ tight_field None
  /\ Some (text "12") <> Some []
  /\ Some (text "page") <> Some []
  /\ @None jstr = None.
Proof.
  assert (H1 : getCitations SampleTerms.locatorToTerm (text "en-US")
                 (Examples.labelled "p.")
               = Some (mkGroup (Examples.labelled "p.")
                         [Citation.mk None None None (Some (text "12"))
                            (Some (text "page")) None None None None None
                            (Some (text "doe2020"))] 0 17))
    by reflexivity.
  split; [exact H1|].
  assert (H2 : In (Citation.mk None None None (Some (text "12"))
                     (Some (text "page")) None None None None None
                     (Some (text "doe2020")))
                 (citations
                    (mkGroup (Examples.labelled "p.")
                       [Citation.mk None None None (Some (text "12"))
                          (Some (text "page")) None None None None None
                          (Some (text "doe2020"))] 0 17)))
    by (simpl; auto).
  split; [exact H2|].
  exact (getCitations_stores_trimmed_text _ _ _ _ _ H1 H2).
Defined.

(** X17: A group that does not start with ['@'] and holds no [litNote], as
    every bracketed citation without a link, gives no composite citation,
    however many citations it holds. *)
Theorem bracketed_group_has_no_composite_citation :
  forall locatorToTerm locale segs G,
    getCitations locatorToTerm locale segs = Some G ->
    (forall s, hd_error segs = Some s -> type s <> SegmentType.at_) ->
    count_type SegmentType.litNote segs = 0 ->
    Forall (fun c => Citation.composite c = None) (citations G).
Proof.
  intros T locale segs G HG Hat Hlit.
  destruct (visit_all_not_composite T locale segs 0 init (fun _ => Hat) Hlit
              eq_refl (Forall_nil _)) as [Hv Hc].
  apply (getCitations_inv T locale (fun v => composite v = false) _ segs G
           HG Hv).
  intros _. split; [exact Hc|]. simpl. now rewrite Hv.
Qed.

Lemma bracketed_group_has_no_composite_citation_witness :
  getCitations SampleTerms.locatorToTerm (text "en-US")
    CrossrefExamples.mixed_segments = Some CrossrefExamples.mixed
  /\ (forall s, hd_error CrossrefExamples.mixed_segments = Some s ->
        type s <> SegmentType.at_)
  /\ count_type SegmentType.litNote CrossrefExamples.mixed_segments = 0
  /\ Forall (fun c => Citation.composite c = None)
       (citations CrossrefExamples.mixed).
Proof.
  assert (H1 : getCitations SampleTerms.locatorToTerm (text "en-US")
                 CrossrefExamples.mixed_segments
               = Some CrossrefExamples.mixed) by reflexivity.
  assert (H2 : forall s, hd_error CrossrefExamples.mixed_segments = Some s ->
                 type s <> SegmentType.at_)
    by (intros s [= <-]; discriminate).
  assert (H3 : count_type SegmentType.litNote CrossrefExamples.mixed_segments
               = 0) by reflexivity.
  split; [exact H1|]. split; [exact H2|]. split; [exact H3|].
  exact (bracketed_group_has_no_composite_citation _ _ _ _ H1 H2 H3).
Defined.

(** X18: The first citation of a group that starts with ['@'], as every bare
    citation, is composite; or it is author-only, when a [suppressor] comes
    before the first [separator]. *)
Theorem bare_group_first_citation_is_composite :
  forall locatorToTerm locale segs G first,
    getCitations locatorToTerm locale segs = Some G ->
    hd_error segs = Some first ->
    type first = SegmentType.at_ ->
    exists c rest,
      citations G = c :: rest
      /\ (Citation.composite c = Some true
          \/ (Citation.author_only c = Some true
              /\ 0 < count_type SegmentType.suppressor segs)).
Proof.
  intros T locale segs G first HG Hhd Hat.
  destruct segs as [|s rest]; [discriminate|].
  injection Hhd as ->.
  destruct (getCitations_some T locale (first :: rest))
    as (G' & HG' & _ & Hc); [discriminate|].
  rewrite HG in HG'. injection HG' as <-.
  assert (Hb : bare_first (visit_all T locale 0 (first :: rest) init)).
  { simpl visit_all. apply visit_all_bare_first.
    left. unfold visit. rewrite Hat. simpl. auto. }
  assert (Hex : exists c r,
             citations G = c :: r
             /\ (Citation.composite c = Some true
                 \/ Citation.author_only c = Some true)).
  { rewrite Hc. destruct Hb as [(He & Hm & Hs) | (c & r & He & Hf)].
    - rewrite He. cbn [app]. eexists _, _. split; [reflexivity|].
      left. unfold cite_of. cbn [Citation.composite]. now rewrite Hm.
    - rewrite He. cbn [app]. eauto. }
  destruct Hex as (c & r & He & [Hf | Hf]); exists c, r;
    (split; [exact He|]); [now left|].
  destruct (count_type SegmentType.suppressor (first :: rest)) eqn:En;
    [|right; split; [assumption | lia]].
  left.
  assert (Hfl : Forall (fun c => Citation.author_only c = None
                                 \/ Citation.composite c = Some true)
                  (citations G)).
  { clear c r He Hf.
    destruct (visit_all_not_author_only T locale (first :: rest) 0 init
                En eq_refl) as [Ho Hcs];
      [constructor|].
    rewrite Hc. apply Forall_app; split.
    - eapply Forall_impl; [|exact Hcs]. intros a Ha. now left.
    - constructor; [|constructor]. left.
      unfold cite_of. cbn [Citation.author_only]. rewrite Ho.
      now rewrite !andb_false_r. }
  rewrite He in Hfl. apply Forall_cons_iff in Hfl as [[Hn | Hm] _].
  - congruence.
  - exact Hm.
Qed.

Lemma bare_group_first_citation_is_composite_witness :
  getCitations SampleTerms.locatorToTerm (text "en-US") Examples.bare
    = Some (mkGroup Examples.bare [Examples.cite "doe2020" true None] 0 8)
  /\ hd_error Examples.bare = Some (mkSegment SegmentType.at_ 0 1 (text "@"))
  /\ type (mkSegment SegmentType.at_ 0 1 (text "@")) = SegmentType.at_
  /\ exists c rest,
       citations
         (mkGroup Examples.bare [Examples.cite "doe2020" true None] 0 8)
       = c :: rest
       /\ (Citation.composite c = Some true
           \/ (Citation.author_only c = Some true
               /\ 0 < count_type SegmentType.suppressor Examples.bare)).
Proof.
  assert (H1 : getCitations SampleTerms.locatorToTerm (text "en-US")
                 Examples.bare
               = Some (mkGroup Examples.bare
                         [Examples.cite "doe2020" true None] 0 8))
    by reflexivity.
  assert (H2 : hd_error Examples.bare
               = Some (mkSegment SegmentType.at_ 0 1 (text "@")))
    by reflexivity.
  assert (H3 : type (mkSegment SegmentType.at_ 0 1 (text "@"))
               = SegmentType.at_) by reflexivity.
  split; [exact H1|]. split; [exact H2|]. split; [exact H3|].
  exact (bare_group_first_citation_is_composite _ _ _ _ _ H1 H2 H3).
Defined.

(** ** [getSegmentData] *)

Lemma getSegmentData_snoc segs s :
  getSegmentData (segs ++ [s])
  = SegmentData.assign (getSegmentData segs) s.
Proof. unfold getSegmentData. now rewrite fold_left_app. Qed.

(** X19: Each field of the result of [getSegmentData] is the text of the last
    segment of its type, and undefined when there is none; but [suffix] is the
    empty string when a [locator] comes after the last [suffix] segment (or
    when there is a [locator] and no [suffix] at all). *)
Theorem getSegmentData_last_wins :
  forall segs,
    SegmentData.key (getSegmentData segs)
    = option_map val (last_of SegmentType.key segs)
    /\ SegmentData.locator (getSegmentData segs)
       = option_map val (last_of SegmentType.locator segs)
    /\ SegmentData.locatorLabel (getSegmentData segs)
       = option_map val (last_of SegmentType.locatorLabel segs)
    /\ SegmentData.prefix (getSegmentData segs)
       = option_map val (last_of SegmentType.prefix segs)
    /\ SegmentData.litNote (getSegmentData segs)
       = option_map val (last_of SegmentType.litNote segs)
    /\ SegmentData.citeType (getSegmentData segs)
       = option_map val (last_of SegmentType.citeType segs)
    /\ SegmentData.suffix (getSegmentData segs)
       = match find (fun s => has_type SegmentType.suffix s
                              || has_type SegmentType.locator s)
                 (rev segs) with
         | Some s =>
             if has_type SegmentType.suffix s then Some (val s) else Some []
         | None => None
         end.
Proof.
  induction segs as [|s segs IH] using rev_ind.
  - repeat split.
  - destruct IH as (Hk & Hl & Hb & Hp & Hn & Ht & Hs).
    rewrite getSegmentData_snoc, !last_of_snoc, rev_app_distr.
    unfold SegmentData.assign, has_type in *. cbn [rev app find].
    destruct (type s) eqn:E;
      cbn [SegmentType.eqb orb option_map SegmentData.key
           SegmentData.locator SegmentData.locatorLabel SegmentData.prefix
           SegmentData.suffix SegmentData.litNote SegmentData.citeType];
      rewrite ?E; cbn [SegmentType.eqb];
      repeat split; first [assumption | reflexivity].
Qed.

(** X20: For a group with one citation (no [separator], no [suppressor]) the
    two readers of a segment list agree: the citation of [getCitations] has
    the key of [getSegmentData] as its [id], and its other fields are the
    fields of [getSegmentData] trimmed, or looked up in the table for the
    label. The suffixes agree when the group has no [locator], which is where
    [getSegmentData] alone empties the suffix. *)
Theorem single_citation_agrees_with_getSegmentData :
  forall locatorToTerm locale segs G,
    getCitations locatorToTerm locale segs = Some G ->
    count_type SegmentType.separator segs = 0 ->
    count_type SegmentType.suppressor segs = 0 ->
    exists c,
      citations G = [c]
      /\ Citation.id c = SegmentData.key (getSegmentData segs)
      /\ Citation.prefix c
         = trimmed (SegmentData.prefix (getSegmentData segs))
      /\ Citation.locator c
         = nonempty (SegmentData.locator (getSegmentData segs))
      /\ Citation.label c
         = resolve locatorToTerm locale
             (SegmentData.locatorLabel (getSegmentData segs))
      /\ Citation.litNote c
         = trimmed (SegmentData.litNote (getSegmentData segs))
      /\ Citation.citeType c
         = trimmed (SegmentData.citeType (getSegmentData segs))
      /\ (count_type SegmentType.locator segs = 0 ->
          Citation.suffix c
          = trimmed (SegmentData.suffix (getSegmentData segs))).
Proof.
  intros T locale segs G HG Hsep Hsup.
  destruct segs as [|first rest]; [discriminate|].
  set (segs := first :: rest) in *.
  destruct (getCitations_some T locale segs) as (G' & HG' & _ & Hc);
    [discriminate|].
  rewrite HG in HG'. injection HG' as <-.
  assert (Hstart : forall b, agree b init SegmentData.undefined)
    by (intros b; repeat split).
  destruct (visit_all_agree T locale false segs 0 init SegmentData.undefined
              Hsep Hsup) as (He & Hk & Hp & Hl & Hb & Hn & Ht & _);
    [discriminate | apply Hstart |].
  fold (getSegmentData segs) in Hk, Hp, Hl, Hb, Hn, Ht.
  rewrite He in Hc. cbn [app] in Hc.
  eexists. split; [exact Hc|].
  unfold cite_of.
  cbn [Citation.id Citation.prefix Citation.locator Citation.label
       Citation.litNote Citation.citeType Citation.suffix].
  rewrite Hk, Hp, Hl, Hb, Hn, Ht. repeat (split; [reflexivity|]).
  intros Hloc.
  destruct (visit_all_agree T locale true segs 0 init SegmentData.undefined
              Hsep Hsup) as (_ & _ & _ & _ & _ & _ & _ & Hs);
    [intros _; exact Hloc | apply Hstart |].
  fold (getSegmentData segs) in Hs. now rewrite Hs.
Qed.

Lemma single_citation_agrees_with_getSegmentData_witness :
  getCitations SampleTerms.locatorToTerm (text "en-US") Examples.figure
  = Some (mkGroup Examples.figure
            [Examples.cite "plot1" false (Some "fig"%string)] 0 12)
  /\ count_type SegmentType.separator Examples.figure = 0
  /\ count_type SegmentType.suppressor Examples.figure = 0
  /\ exists c,
      citations
        (mkGroup Examples.figure
           [Examples.cite "plot1" false (Some "fig"%string)] 0 12) = [c]
      /\ Citation.id c = SegmentData.key (getSegmentData Examples.figure)
      /\ Citation.prefix c
         = trimmed (SegmentData.prefix (getSegmentData Examples.figure))
      /\ Citation.locator c
         = nonempty (SegmentData.locator (getSegmentData Examples.figure))
      /\ Citation.label c
         = resolve SampleTerms.locatorToTerm (text "en-US")
             (SegmentData.locatorLabel (getSegmentData Examples.figure))
      /\ Citation.litNote c
         = trimmed (SegmentData.litNote (getSegmentData Examples.figure))
      /\ Citation.citeType c
         = trimmed (SegmentData.citeType (getSegmentData Examples.figure))
      /\ (count_type SegmentType.locator Examples.figure = 0 ->
          Citation.suffix c
          = trimmed (SegmentData.suffix (getSegmentData Examples.figure))).
Proof.
  assert (H1 : getCitations SampleTerms.locatorToTerm (text "en-US")
                 Examples.figure
               = Some (mkGroup Examples.figure
                         [Examples.cite "plot1" false (Some "fig"%string)]
                         0 12)) by reflexivity.
  assert (H2 : count_type SegmentType.separator Examples.figure = 0)
    by reflexivity.
  assert (H3 : count_type SegmentType.suppressor Examples.figure = 0)
    by reflexivity.
  split; [exact H1|]. split; [exact H2|]. split; [exact H3|].
  exact (single_citation_agrees_with_getSegmentData _ _ _ _ H1 H2 H3).
Defined.

(** With a [locator] after the suffix the two readers differ: for the
    segments of [[@a, see p. 4]] scanned as suffix, label and locator,
    [getCitations] keeps the suffix and [getSegmentData] has emptied it. *)
Example suffix_emptied_by_locator :
  let segs :=
    [mkSegment SegmentType.key 0 1 (text "a");
     mkSegment SegmentType.suffix 1 6 (text ", see");
     mkSegment SegmentType.locator 6 7 (text "4")] in
  SegmentData.suffix (getSegmentData segs) = Some []
  /\ option_map (map Citation.suffix)
       (option_map citations
          (getCitations SampleTerms.locatorToTerm (text "en-US") segs))
     = Some [Some (text ", see")].
Proof. split; reflexivity. Qed.

(** ** The citations of a group, one by one *)

Section Pieces.

Variable locatorToTerm : jstr -> option (jstr -> option jstr).
Variable locale : jstr.










End Pieces.



(** The group of the witness comes from the Segmenter, and its citations
    are these: the first with the label [page], the second without. *)
Example mixed_labels_example :
  getCitationSegments Sample.unicode Sample.locators
    (text "[@a, p. 2; @b, chap. 1]") false
  = Some [LabelExamples.first ++ LabelExamples.second]
  /\ option_map citations
       (getCitations SampleTerms.locatorToTerm (text "en-US")
          (LabelExamples.first ++ LabelExamples.second))
     = Some LabelExamples.cites.
Proof. split; vm_compute; reflexivity. Qed.

(** ** More on the Segmenter *)

Lemma has_at_app a b : has_at (a ++ b) = has_at a || has_at b.
Proof. apply existsb_app. Qed.

Lemma has_at_In g :
  has_at g = true <-> exists s, In s g /\ type s = SegmentType.at_.
Proof.
  unfold has_at. rewrite existsb_exists. split; intros (s & H1 & H2);
    exists s; (split; [assumption|]); now apply has_type_true.
Qed.

(** [endCurrent] adds segments to [state.segment], at least one, and may
    replace [currentSegment] and [seekingLocator]; whatever [locators]
    matches, the rest of the state stays as it is, and a current segment
    for an ['@'] is among the segments added. *)
Lemma endCurrent_frame U locators i sk st :
  exists new cur sl,
    endCurrent U locators i sk st
    = mkState (inBrackets st) (inExplicitKey st) (inExplicitLocator st)
        (inKey st) (inLink st) (inSuffix st) (seekingSuffix st) sl
        (encounteredKey st) (shouldCancelSeek st) (segment st ++ new) cur
        (bracketDepth st)
    /\ (has_type SegmentType.at_ (currentSegment st) = true ->
        has_at new = true)
    /\ new <> [].
Proof.
  assert (Hpush : forall ty,
            (has_type SegmentType.at_ (currentSegment st) = true ->
             ty = type (currentSegment st)) ->
            exists new cur sl,
              push_current i (retype ty st)
              = mkState (inBrackets st) (inExplicitKey st)
                  (inExplicitLocator st) (inKey st) (inLink st) (inSuffix st)
                  (seekingSuffix st) sl (encounteredKey st)
                  (shouldCancelSeek st) (segment st ++ new) cur
                  (bracketDepth st)
              /\ (has_type SegmentType.at_ (currentSegment st) = true ->
                  has_at new = true)
              /\ new <> []).
  { intros ty Hty. eexists _, _, _. split; [reflexivity|].
    split; [|discriminate].
    intros H. rewrite (Hty H). unfold has_at, has_type in *. simpl.
    now rewrite H. }
  assert (Hplain : push_current i st
                   = push_current i (retype (type (currentSegment st)) st)).
  { destruct st as [? ? ? ? ? ? ? ? ? ? ? [] ?]; reflexivity. }
  unfold endCurrent.
  destruct (seekingLocator st || opt_flag seekingLocator sk);
    [|rewrite Hplain; now apply Hpush].
  destruct (SegmentType.eqb (type (currentSegment st)) SegmentType.suffix)
    eqn:E1.
  { destruct (truthy (parsePossibleLocator U locators st)) eqn:Ht;
      [|rewrite Hplain; now apply Hpush].
    eexists _, _, _. split; [reflexivity|]. split.
    - unfold has_type. destruct (type (currentSegment st)); discriminate.
    - intros E. now rewrite E in Ht. }
  destruct (SegmentType.eqb (type (currentSegment st))
              SegmentType.locatorSuffix) eqn:E2;
    [|rewrite Hplain; now apply Hpush].
  assert (Hno : has_type SegmentType.at_ (currentSegment st) = true -> False)
    by (unfold has_type; destruct (type (currentSegment st)); discriminate).
  destruct (parseExplicitLocator locators st) as [segs st'] eqn:Hp.
  destruct (parseExplicitLocator_state locators st) as (ty & Hst).
  rewrite Hp in Hst. simpl in Hst. subst st'.
  destruct (truthy segs) eqn:Ht.
  - eexists _, _, _. split; [reflexivity|]. split.
    + intros H. now destruct (Hno H).
    + intros E. now rewrite E in Ht.
  - apply Hpush. intros H. now destruct (Hno H).
Qed.

(** Replace each call of [endCurrent] by the state that [endCurrent_frame]
    describes. *)
Ltac frame :=
  repeat match goal with
  | |- context [endCurrent ?u ?l ?j ?sk ?s] =>
      let new := fresh "new" in
      let cur := fresh "cur" in
      let sl := fresh "sl" in
      let E := fresh "E" in
      let Hn := fresh "Hnew" in
      destruct (endCurrent_frame u l j sk s)
        as (new & cur & sl & E & Hn & _);
      rewrite E in *; clear E; fields
  end.

(** Use the values of the tests at hand. *)
Ltac flags :=
  repeat match goal with
         | H : ?x = true |- context [?x] => rewrite H
         | H : ?x = false |- context [?x] => rewrite H
         end;
  cbn [andb orb negb].

(** Follow the tests of a block, the outermost first. *)
Ltac split_test :=
  match goal with
  | |- context [if ?b then _ else _] => destruct b eqn:?
  | |- context [match ?x with Some _ => _ | None => _ end] =>
      destruct x eqn:?
  end.

Section Quiet.

Variable U : Unicode.
Variable locators : jstr -> option RegExpMatch.
Variable str : jstr.
Variable ignoreLinks : bool.

Lemma quiet_none : quiet (mkScan None None []).
Proof. split; [reflexivity | split; [reflexivity | discriminate]]. Qed.

Lemma quiet_state st : calm st -> quiet (mkScan (Some st) None []).
Proof.
  intros H. split; [reflexivity | split; [reflexivity|]].
  now intros ? [= <-].
Qed.

Lemma inBracketsBlock_quiet i st :
  calm st ->
  quiet (inBracketsBlock U locators str ignoreLinks i st None []).
Proof.
  intros (He & Hk & Hs).
  unfold inBracketsBlock, restart, endSegment. cbv zeta.
  repeat split_test.
  all: try congruence.
  all: frame; fields; try congruence; flags.
  all: first [ apply quiet_none
             | apply quiet_state; unfold calm; fields; auto ].
Qed.

Lemma openBracket_calm i : calm (openBracket str i).
Proof.
  unfold openBracket. cbv zeta.
  destruct (chr_is (charAt str (Z.of_nat i - 1)) "["); repeat split.
Qed.

(** The loop body where no citation starts: it returns, and the variables
    stay quiet. *)
Lemma step_quiet i sc :
  opens_citation str i = false ->
  quiet sc ->
  exists sc',
    step U locators str ignoreLinks i sc = Some sc' /\ quiet sc'.
Proof.
  intros Hc (Hsk & Hout & Hst). destruct sc as [s sk out].
  simpl in Hsk, Hout. subst sk out. unfold opens_citation in Hc.
  unfold step, afterBracket. cbv zeta. rewrite Hc.
  destruct s as [st|]; fields.
  - destruct (Hst st eq_refl) as (He & Hk & Hs). rewrite Hs, Hk.
    cbn [andb negb].
    assert (Hcalm : calm (set_bracketDepth (bracketDepth st + 1) st))
      by (repeat split; assumption).
    repeat split_test; eexists; (split; [reflexivity|]).
    all: first [ apply quiet_none
               | apply quiet_state, openBracket_calm
               | apply inBracketsBlock_quiet; first [exact Hcalm | now split]
               ].
  - repeat split_test; eexists; (split; [reflexivity|]);
      first [apply quiet_none | apply quiet_state, openBracket_calm].
Qed.

Lemma loop_quiet n :
  (forall j, opens_citation str j = false) ->
  forall i sc,
    quiet sc ->
    exists sc',
      loop U locators str ignoreLinks n i sc = Some sc' /\ quiet sc'.
Proof.
  intros Hno. induction n as [|n IH]; simpl; intros i sc Hq; [eauto|].
  destruct (step_quiet i sc (Hno i) Hq) as (sc1 & -> & Hq1).
  now apply IH.
Qed.

End Quiet.

Lemma chr_is_not_in (s : jstr) (x : ascii) j :
  ~ In (ch x) s -> chr_is (charAt s (Z.of_nat j)) x = false.
Proof.
  intros Hno. rewrite charAt_nat.
  destruct (nth_error s j) as [y|] eqn:E; [|reflexivity].
  simpl. apply N.eqb_neq. intros ->. apply Hno.
  eapply nth_error_In; eauto.
Qed.

Lemma no_citation_start_at str j :
  no_citation_start str = true -> opens_citation str j = false.
Proof.
  intros H. destruct (Nat.lt_ge_cases j (length str)) as [Hj | Hj].
  - unfold no_citation_start in H. rewrite forallb_forall in H.
    apply negb_true_iff. apply H. apply in_seq. lia.
  - unfold opens_citation.
    rewrite charAt_nat, (proj2 (nth_error_None str j)) by exact Hj.
    reflexivity.
Qed.

(** X1: A text holds no citation unless an ['@'] in it stands at the start of
    the text or after a character of [preKey] (a blank, a tab or vertical
    tab, an opening bracket, a dash, a line break, a semicolon or a bar):
    [getCitationSegments] returns the empty list, and raises no error, on a
    text without ['@'] and on one whose only ['@'] are those of e-mail
    addresses, whatever it holds besides (brackets, braces, links). *)
Theorem text_without_citation_start_has_no_citation :
  forall U locators str ignoreLinks,
    no_citation_start str = true ->
    getCitationSegments U locators str ignoreLinks = Some [].
Proof.
  intros U locators str il Hno. unfold getCitationSegments.
  destruct (loop_quiet U locators str il (length str + 1)
              (fun j => no_citation_start_at str j Hno) 0
              (mkScan None None []) (quiet_none))
    as (sc & -> & Hsk & Hout & Hst).
  rewrite Hout. destruct (state sc) as [st|]; [|reflexivity].
  destruct (Hst st eq_refl) as (_ & _ & Hs). simpl. now rewrite Hs.
Qed.

Lemma text_without_citation_start_has_no_citation_witness :
  no_citation_start (text "mail doe@example.org [the book](http://x)")
  = true
  /\ getCitationSegments Sample.unicode Sample.locators
       (text "mail doe@example.org [the book](http://x)") true = Some [].
Proof.
  assert (H : no_citation_start
                (text "mail doe@example.org [the book](http://x)") = true)
    by (vm_compute; reflexivity).
  split; [exact H|].
  exact (text_without_citation_start_has_no_citation Sample.unicode
           Sample.locators _ true H).
Defined.

(** *** Every group holds its ['@'] *)

(** A list that holds an ['@'] holds it when extended. *)
Ltac at_has :=
  rewrite ?has_at_app; flags; rewrite ?orb_true_r;
  first [reflexivity | assumption].

(** The output so far, with or without one more group. *)
Ltac at_out :=
  first
    [ assumption
    | apply Forall_app; split;
      [assumption | constructor; [at_has | constructor]] ].

(** The invariant after one path through a block, for a state whose
    segments hold an ['@'] or that has met none. *)
Ltac at_leaf Hsk :=
  try match type of Hsk with
      | forall k, Some ?s = Some k -> _ => pose proof (Hsk s eq_refl)
      end;
  split; [at_out|]; split;
  [ let k := fresh "k" in
    let E := fresh "E" in
    intros k E;
    first [ discriminate E
          | apply Hsk; exact E
          | injection E as <-; at_has ]
  | let s := fresh "s" in
    let E := fresh "E" in
    let M := fresh "M" in
    intros s E;
    first
      [ discriminate E
      | injection E as <-; unfold holds_at, marked; fields; flags;
        split;
        [ intros; first [discriminate | assumption | reflexivity
                        | congruence]
        | intros M; first [discriminate M | left; at_has] ] ] ].

Section AtInv.

Variable U : Unicode.
Variable locators : jstr -> option RegExpMatch.
Variable str : jstr.
Variable ignoreLinks : bool.
Variable i : nat.

(** The block for a state inside brackets. *)
Lemma inBracketsBlock_at st sk out :
  Forall (fun g => has_at g = true) out ->
  (forall k, sk = Some k -> has_at (segment k) = true) ->
  seekingSuffix st = false ->
  (marked st = true -> has_at (segment st) = true) ->
  At str (S i) (inBracketsBlock U locators str ignoreLinks i st sk out).
Proof.
  intros Hout Hsk Hs Hm. unfold marked in Hm. rewrite Hs in Hm.
  unfold inBracketsBlock, restart, endSegment. cbv zeta.
  destruct (encounteredKey st) eqn:He; destruct (inKey st) eqn:Hk;
    cbn [orb] in Hm; try specialize (Hm eq_refl).
  all: repeat split_test.
  all: frame; fields; try congruence.
  all: at_leaf Hsk.
Qed.

(** The block for a state inside a key. *)
Lemma inKeyBlock_at st sk out :
  Forall (fun g => has_at g = true) out ->
  (forall k, sk = Some k -> has_at (segment k) = true) ->
  inKey st = true ->
  holds_at str i st ->
  At str (S i) (inKeyBlock U locators str ignoreLinks i st sk out).
Proof.
  intros Hout Hsk Hk (Hsb & Hm). unfold marked in Hm.
  rewrite Hk, orb_true_r in Hm. specialize (Hm eq_refl).
  unfold inKeyBlock, punctBlock, closeBare, toSuffix, restart, endSegment.
  cbv zeta.
  destruct Hm as [Hat | (Hty & _ & Hs & Hprev)].
  - destruct (seekingSuffix st) eqn:Hs;
      [pose proof (Hsb eq_refl) as Hbr; rewrite Hbr
      | destruct (inBrackets st) eqn:Hbr].
    all: repeat split_test.
    all: frame; fields; rewrite ?Hbr in *; cbn [negb] in *; try congruence.
    all: try (at_leaf Hsk).
    all: apply inBracketsBlock_at; auto.
  - rewrite Hprev. cbn [orb].
    repeat split_test.
    all: frame; fields; try congruence.
    all: repeat match goal with
                | H : has_type _ _ = true -> _ |- _ => specialize (H Hty)
                end.
    all: at_leaf Hsk.
Qed.

(** The state that the block for ['@'] opens. *)
Lemma fresh_state_at st sk out :
  Forall (fun g => has_at g = true) out ->
  (forall k, sk = Some k -> has_at (segment k) = true) ->
  chr_is (charAt str (Z.of_nat i)) "@" = true ->
  seekingSuffix st = false ->
  At str (S i)
    (mkScan
       (Some (set_encounteredKey true
                (set_inKey true
                   (set_currentSegment
                      (newCurrent i (charAt str (Z.of_nat i))
                         SegmentType.at_) st))))
       sk out).
Proof.
  intros Hout Hsk Hc Hs. split; [exact Hout|]. split; [exact Hsk|].
  intros s [= <-]. unfold holds_at, marked; fields.
  split; [congruence|]. intros _. right. unfold fresh_at; fields.
  split; [reflexivity|]. split; [reflexivity|]. split; [exact Hs|].
  replace (Z.of_nat (S i) - 1)%Z with (Z.of_nat i) by lia. exact Hc.
Qed.

(** The block for ['@']. *)
Lemma atBlock_at sc sc' :
  At str i sc ->
  chr_is (charAt str (Z.of_nat i)) "@" = true ->
  atBlock U locators str i sc = Some sc' ->
  At str (S i) sc'.
Proof.
  intros (Hout & Hsk & Hst) Hc. destruct sc as [s sk out]. fields.
  unfold atBlock. cbv zeta. fields.
  assert (Hnone : forall k, @None State = Some k ->
                            has_at (segment k) = true) by discriminate.
  assert (Hin : forall st, s = Some st -> inBrackets st = true ->
                           seekingSuffix st = false).
  { intros st E Hbr. destruct (Hst st E) as [Hsb _].
    destruct (seekingSuffix st); [|reflexivity].
    rewrite (Hsb eq_refl) in Hbr. discriminate. }
  destruct sk as [k|]; destruct s as [st|]; fields; try discriminate.
  - pose proof (Hsk k eq_refl) as Hk.
    destruct (shouldCancelSeek st); fields;
      destruct (inBrackets st) eqn:Hbr; intros [= <-]; frame;
      apply fresh_state_at; fields; auto; at_out.
  - destruct (inBrackets st) eqn:Hbr; intros [= <-]; frame;
      apply fresh_state_at; fields; auto.
  - intros [= <-]. apply fresh_state_at; auto.
Qed.

(** A state that the iteration leaves alone. *)
Lemma at_idle sc :
  At str i sc ->
  (forall st, state sc = Some st -> inKey st = false) ->
  At str (S i) sc.
Proof.
  intros (Hout & Hsk & Hst) Hidle. split; [exact Hout|]. split; [exact Hsk|].
  intros st E. destruct (Hst st E) as [Hsb Hm]. split; [exact Hsb|].
  intros M. destruct (Hm M) as [H | (_ & Hk & _)]; [now left|].
  rewrite (Hidle st E) in Hk. discriminate.
Qed.

(** The tests after the block for ['[']. *)
Lemma afterBracket_at sc sc' :
  At str i sc ->
  afterBracket U locators str ignoreLinks i sc = Some sc' ->
  At str (S i) sc'.
Proof.
  intros HA. unfold afterBracket. cbv zeta.
  destruct (chr_is (charAt str (Z.of_nat i)) "@"
            && isValidPreKey (charAt str (Z.of_nat i - 1))) eqn:Hc.
  { apply andb_true_iff in Hc as [Hc _]. now apply atBlock_at. }
  pose proof HA as (Hout & Hsk & Hst).
  destruct (state sc) as [st|] eqn:E.
  2: { intros [= <-]. apply at_idle; [exact HA|]. rewrite E. discriminate. }
  destruct (Hst st eq_refl) as [Hsb Hm]. unfold marked in Hm.
  destruct (seekingSuffix st
            && negb (Chars.test Chars.space (charAt str (Z.of_nat i))))
    eqn:Hseek.
  { apply andb_true_iff in Hseek as [Hs _]. intros [= <-].
    rewrite Hs, !orb_true_r in Hm.
    destruct (Hm eq_refl) as [Hat | (_ & _ & Hs' & _)]; [|congruence].
    unfold endSegment. destruct (encounteredKey st); at_leaf Hsk. }
  destruct (inKey st) eqn:Hk.
  { intros [= <-]. apply inKeyBlock_at; auto. }
  destruct (inBrackets st) eqn:Hbr.
  { intros [= <-].
    assert (Hs : seekingSuffix st = false).
    { destruct (seekingSuffix st);
        [discriminate (Hsb eq_refl) | reflexivity]. }
    apply inBracketsBlock_at; auto.
    unfold marked. rewrite Hk, Hs, !orb_false_r. intros He.
    rewrite He in Hm. destruct (Hm eq_refl) as [H | (_ & Hk' & _)];
      [exact H | congruence]. }
  destruct (negb (seekingSuffix st)); intros [= <-].
  - at_leaf Hsk.
  - apply at_idle; [exact HA|]. rewrite E. now intros ? [= <-].
Qed.

(** A bracket opens a state that has met no ['@']. *)
Lemma openBracket_at sk out :
  Forall (fun g => has_at g = true) out ->
  (forall k, sk = Some k -> has_at (segment k) = true) ->
  At str (S i) (mkScan (Some (openBracket str i)) sk out).
Proof.
  intros Hout Hsk. split; [exact Hout|]. split; [exact Hsk|].
  intros s [= <-]. unfold openBracket. cbv zeta.
  destruct (chr_is (charAt str (Z.of_nat i - 1)) "[");
    (split; [discriminate|]); unfold marked; fields; discriminate.
Qed.

(** The loop body keeps the invariant. *)
Lemma step_at sc sc' :
  At str i sc ->
  step U locators str ignoreLinks i sc = Some sc' ->
  At str (S i) sc'.
Proof.
  intros HA. unfold step. cbv zeta.
  destruct (chr_is (charAt str (Z.of_nat i)) "[") eqn:Hc;
    [|now apply afterBracket_at].
  pose proof HA as (Hout & Hsk & Hst).
  destruct (state sc) as [st|] eqn:E.
  - destruct (Hst st eq_refl) as [Hsb Hm].
    destruct (bracketDepth (set_bracketDepth (bracketDepth st + 1) st) =? 1)%Z.
    + intros [= <-]. fields. apply openBracket_at; [exact Hout|].
      destruct (seekingSuffix st) eqn:Hs; [|exact Hsk].
      intros k [= <-]. unfold marked in Hm. rewrite Hs, !orb_true_r in Hm.
      destruct (Hm eq_refl) as [H | (_ & _ & Hs' & _)];
        [exact H | congruence].
    + apply afterBracket_at.
      split; [exact Hout|]. split; [exact Hsk|].
      intros s [= <-]. split; [exact Hsb|].
      intros M. destruct (Hm M) as [H | H]; [now left | now right].
  - destruct (chr_is (charAt str (Z.of_nat i + 1)) "["); intros [= <-].
    + apply at_idle; [exact HA|]. rewrite E. discriminate.
    + now apply openBracket_at.
Qed.

End AtInv.

Lemma loop_at U locators str ignoreLinks n :
  forall i sc sc',
    At str i sc ->
    loop U locators str ignoreLinks n i sc = Some sc' ->
    At str (i + n) sc'.
Proof.
  induction n as [|n IH]; simpl; intros i sc sc' HA H.
  - injection H as <-. now rewrite Nat.add_0_r.
  - destruct (step U locators str ignoreLinks i sc) as [sc1|] eqn:Hs;
      [|discriminate].
    rewrite <- Nat.add_succ_comm. eapply IH; [|exact H].
    eapply step_at; eauto.
Qed.

(** X3: Every group that [getCitationSegments] returns holds a segment of type
    [at]: the scanner emits nothing but what it read from an ['@'] on. (A
    group may hold nothing else, and no [key].) *)
Theorem every_group_holds_an_at_segment :
  forall U locators str ignoreLinks out g,
    getCitationSegments U locators str ignoreLinks = Some out ->
    In g out ->
    exists s, In s g /\ type s = SegmentType.at_.
Proof.
  intros U locators str il out g Hout Hg. apply has_at_In.
  revert g Hg. apply Forall_forall.
  unfold getCitationSegments in Hout.
  destruct (loop U locators str il (length str + 1) 0 (mkScan None None []))
    as [sc|] eqn:Hl; [|discriminate].
  injection Hout as <-.
  assert (H0 : At str 0 (mkScan None None []))
    by (split; [constructor | split; discriminate]).
  destruct (loop_at _ _ _ _ _ _ _ _ H0 Hl) as (Ho & _ & Hst).
  destruct (state sc) as [st|]; [|exact Ho]. simpl.
  destruct (seekingSuffix st) eqn:Hs; [|exact Ho].
  destruct (Hst st eq_refl) as [_ Hm]. unfold marked in Hm.
  rewrite Hs, !orb_true_r in Hm.
  destruct (Hm eq_refl) as [H | (_ & _ & Hs' & _)]; [|congruence].
  apply Forall_app; split; [exact Ho|]. constructor; [exact H | constructor].
Qed.


(** *** Keys of letters and digits *)

(** A letter or a digit is none of the characters that the scanner gives
    a meaning of their own. *)
Lemma alphaNumeric_plain U c :
  Chars.alphaNumeric U c = true ->
  chr_is (Some c) "[" = false
  /\ chr_is (Some c) "@" = false
  /\ chr_is (Some c) ":" = false
  /\ chr_is (Some c) "{" = false
  /\ chr_is (Some c) "}" = false
  /\ isTerminus (Some c) = false.
Proof.
  intros H.
  assert (Hne : forall x, Chars.alphaNumeric U x = false ->
                          N.eqb c x = false).
  { intros x Hx. apply N.eqb_neq. intros ->. congruence. }
  unfold chr_is, isTerminus. rewrite !Hne by (vm_compute; reflexivity).
  repeat split.
Qed.

Lemma loop_app U locators str il n m :
  forall i sc,
    loop U locators str il (n + m) i sc
    = match loop U locators str il n i sc with
      | Some sc' => loop U locators str il m (i + n) sc'
      | None => None
      end.
Proof.
  induction n as [|n IH]; simpl; intros i sc.
  - now rewrite Nat.add_0_r.
  - destruct (step U locators str il i sc) as [sc1|]; [|reflexivity].
    rewrite IH. now rewrite Nat.add_succ_comm.
Qed.

(** The state after [val += c] for each character of [rest]. *)
Lemma append_all rest :
  forall st,
    fold_left (fun s c => append (Some c) s) rest st
    = set_currentSegment
        (mkSegment (type (currentSegment st)) (from (currentSegment st))
           (to (currentSegment st)) (val (currentSegment st) ++ rest)) st.
Proof.
  induction rest as [|c rest IH]; intros st.
  - simpl. rewrite app_nil_r.
    destruct st as [? ? ? ? ? ? ? ? ? ? ? [] ?]; reflexivity.
  - simpl fold_left. rewrite IH. unfold append; fields.
    now rewrite <- app_assoc.
Qed.

Section KeyRuns.

Variable U : Unicode.
Variable locators : jstr -> option RegExpMatch.
Variable str : jstr.
Variable ignoreLinks : bool.

(** A letter or digit after a letter or digit of a key is appended to the
    key. *)
Lemma step_key_char i st sk out p c :
  charAt str (Z.of_nat i - 1) = Some p ->
  charAt str (Z.of_nat i) = Some c ->
  Chars.alphaNumeric U p = true ->
  Chars.alphaNumeric U c = true ->
  inKey st = true ->
  seekingSuffix st = false ->
  inExplicitKey st = false ->
  step U locators str ignoreLinks i (mkScan (Some st) sk out)
  = Some (mkScan (Some (append (Some c) st)) sk out).
Proof.
  intros Hp Hc Hap Hac Hk Hs He.
  destruct (alphaNumeric_plain U p Hap) as (_ & P1 & P2 & _).
  destruct (alphaNumeric_plain U c Hac) as (C1 & C2 & _ & C3 & C4 & C5).
  unfold step, afterBracket, inKeyBlock. cbv zeta. fields.
  rewrite Hp, Hc, C1, C2, Hs, Hk, C5, P1, P2, He, C4, C3.
  cbn [andb orb negb Chars.test]. now rewrite Hac.
Qed.

(** The first letter or digit after ['@'], or after the [':'] of a
    citation type, opens the key. *)
Lemma step_key_first i st sk out c :
  chr_is (charAt str (Z.of_nat i - 1)) "@"
  || chr_is (charAt str (Z.of_nat i - 1)) ":" = true ->
  charAt str (Z.of_nat i) = Some c ->
  Chars.alphaNumeric U c = true ->
  inKey st = true ->
  seekingSuffix st = false ->
  step U locators str ignoreLinks i (mkScan (Some st) sk out)
  = Some (mkScan
            (Some (set_currentSegment (newCurrent i (Some c) SegmentType.key)
                     (endCurrent U locators i sk st)))
            sk out).
Proof.
  intros Hp Hc Hac Hk Hs.
  destruct (alphaNumeric_plain U c Hac) as (C1 & C2 & _ & C3 & C4 & C5).
  unfold step, afterBracket, inKeyBlock, restart. cbv zeta. fields.
  rewrite Hp, Hc, C1, C2, Hs, Hk, C5.
  cbn [andb orb negb Chars.test]. now rewrite Hac.
Qed.

(** A run of letters and digits is appended to the key. *)
Lemma loop_key_chars rest :
  forall pre p post st sk out,
    str = pre ++ [p] ++ rest ++ post ->
    Chars.alphaNumeric U p = true ->
    forallb (Chars.alphaNumeric U) rest = true ->
    inKey st = true ->
    seekingSuffix st = false ->
    inExplicitKey st = false ->
    loop U locators str ignoreLinks (length rest) (S (length pre))
      (mkScan (Some st) sk out)
    = Some (mkScan
              (Some (fold_left (fun s c => append (Some c) s) rest st))
              sk out).
Proof.
  induction rest as [|c rest IH]; intros pre p post st sk out Hstr Hp Hr Hk
    Hs He; [reflexivity|].
  simpl in Hr. apply andb_true_iff in Hr as [Hc Hr].
  simpl loop.
  rewrite (step_key_char (S (length pre)) st sk out p c); auto.
  - replace (S (S (length pre))) with (S (length (pre ++ [p])))
      by (rewrite length_app; simpl; lia).
    simpl fold_left. apply (IH (pre ++ [p]) c post).
    + rewrite Hstr, <- !app_assoc. reflexivity.
    + exact Hc.
    + exact Hr.
    + exact Hk.
    + exact Hs.
    + exact He.
  - replace (Z.of_nat (S (length pre)) - 1)%Z with (Z.of_nat (length pre))
      by lia.
    rewrite charAt_nat, Hstr, nth_error_app2, Nat.sub_diag by lia.
    reflexivity.
  - rewrite charAt_nat, Hstr, nth_error_app2 by lia.
    replace (S (length pre) - length pre) with 1 by lia. reflexivity.
Qed.

(** Without a locator to look for, [endCurrent] closes the current
    segment at [i]. *)
Lemma endCurrent_plain i st :
  seekingLocator st = false ->
  endCurrent U locators i None st = push_current i st.
Proof. intros H. unfold endCurrent. now rewrite H. Qed.

(** An ['@'] outside brackets opens a state. *)
Lemma step_at_bare i out :
  charAt str (Z.of_nat i) = Some (ch "@") ->
  isValidPreKey (charAt str (Z.of_nat i - 1)) = true ->
  step U locators str ignoreLinks i (mkScan None None out)
  = Some (mkScan
            (Some (set_encounteredKey true
                     (set_inKey true
                        (set_currentSegment
                           (newCurrent i (Some (ch "@")) SegmentType.at_)
                           newState))))
            None out).
Proof.
  intros Hc Hp. unfold step, afterBracket, atBlock. cbv zeta. fields.
  rewrite Hc, Hp. ev (chr_is (Some (ch "@")) "[").
  ev (chr_is (Some (ch "@")) "@").
  reflexivity.
Qed.

(** An ['@'] inside brackets closes the current segment and opens a
    key. *)
Lemma step_at_bracket i st out :
  charAt str (Z.of_nat i) = Some (ch "@") ->
  isValidPreKey (charAt str (Z.of_nat i - 1)) = true ->
  inBrackets st = true ->
  step U locators str ignoreLinks i (mkScan (Some st) None out)
  = Some (mkScan
            (Some (set_encounteredKey true
                     (set_inKey true
                        (set_currentSegment
                           (newCurrent i (Some (ch "@")) SegmentType.at_)
                           (endCurrent U locators i None st)))))
            None out).
Proof.
  intros Hc Hp Hb. unfold step, afterBracket, atBlock. cbv zeta. fields.
  rewrite Hc, Hp, Hb. ev (chr_is (Some (ch "@")) "[").
  ev (chr_is (Some (ch "@")) "@"). reflexivity.
Qed.

(** The end of the text closes a bare key and emits its group. *)
Lemma step_key_end i st out :
  charAt str (Z.of_nat i) = None ->
  inKey st = true ->
  seekingSuffix st = false ->
  inBrackets st = false ->
  step U locators str ignoreLinks i (mkScan (Some st) None out)
  = Some (endSegment (endCurrent U locators i None st) None out).
Proof.
  intros Hc Hk Hs Hb.
  unfold step, afterBracket, inKeyBlock, closeBare. cbv zeta. fields.
  rewrite Hc, Hs, Hk, Hb. reflexivity.
Qed.

(** A bracket outside a state opens one, unless it is the first of two. *)
Lemma step_open i sk out :
  charAt str (Z.of_nat i) = Some (ch "[") ->
  chr_is (charAt str (Z.of_nat i + 1)) "[" = false ->
  step U locators str ignoreLinks i (mkScan None sk out)
  = Some (mkScan (Some (openBracket str i)) sk out).
Proof.
  intros Hc Hn. unfold step. cbv zeta. fields. rewrite Hc, Hn.
  ev (chr_is (Some (ch "[")) "["). reflexivity.
Qed.

(** The bracket that closes the group after a key of letters and digits
    ends the key and emits the group. *)
Lemma step_key_close i st out p :
  charAt str (Z.of_nat i) = Some (ch "]") ->
  charAt str (Z.of_nat i - 1) = Some p ->
  Chars.alphaNumeric U p = true ->
  inKey st = true ->
  seekingSuffix st = false ->
  inExplicitKey st = false ->
  inBrackets st = true ->
  bracketDepth st = 1%Z ->
  ignoreLinks && (inLink st || chr_is (charAt str (Z.of_nat i + 1)) "(")
  = false ->
  step U locators str ignoreLinks i (mkScan (Some st) None out)
  = Some (endSegment
            (let st' :=
               endCurrent U locators i None (set_bracketDepth 0 st) in
             set_segment
               (segment st'
                  ++ [newCurrent i (Some (ch "]")) SegmentType.bracket])
               st')
            None out).
Proof.
  intros Hc Hp Hap Hk Hs He Hb Hd Hl.
  destruct (alphaNumeric_plain U p Hap) as (_ & P1 & P2 & _).
  unfold step, afterBracket, inKeyBlock, inBracketsBlock. cbv zeta. fields.
  rewrite Hc, Hp, Hs, Hk, P1, P2, He, Hb.
  ev (chr_is (Some (ch "]")) "["). ev (chr_is (Some (ch "]")) "@").
  ev (isTerminus (Some (ch "]"))). ev (chr_is (Some (ch "]")) "}").
  ev (chr_is (Some (ch "]")) "{"). ev (chr_is (Some (ch "]")) "]").
  ev (Chars.test (Chars.alphaNumeric U) (Some (ch "]"))).
  ev (Chars.test Chars.space (Some (ch "]"))).
  ev (Chars.test Chars.punct (Some (ch "]"))).
  cbn [andb orb negb]. cbv iota. fields. rewrite Hd.
  ev ((1 - 1 =? 0)%Z). cbv iota. rewrite Hl. reflexivity.
Qed.

(** Past the end of the text nothing happens to an empty state. *)
Lemma step_idle i sk out :
  charAt str (Z.of_nat i) = None ->
  step U locators str ignoreLinks i (mkScan None sk out)
  = Some (mkScan None sk out).
Proof.
  intros Hc. unfold step, afterBracket. cbv zeta. fields. now rewrite Hc.
Qed.

End KeyRuns.

(** X4: The text [@key], for a key of letters and digits, is one group of an
    [at] and a [key] segment that cover the text, whatever [locators] and
    [ignoreLinks] are; its one citation has the key as [id] and is composite. *)
Theorem bare_key_is_one_composite_citation :
  forall U locators locatorToTerm locale ignoreLinks k,
    k <> [] ->
    forallb (Chars.alphaNumeric U) k = true ->
    getCitationSegments U locators (ch "@" :: k) ignoreLinks
    = Some [[mkSegment SegmentType.at_ 0 1 [ch "@"];
             mkSegment SegmentType.key 1 (1 + length k) k]]
    /\ option_map citations
         (getCitations locatorToTerm locale
            [mkSegment SegmentType.at_ 0 1 [ch "@"];
             mkSegment SegmentType.key 1 (1 + length k) k])
       = Some [Citation.mk None None None None None None None None None
                 (Some true) (Some k)].
Proof.
  intros U locators T locale il k Hne Hk. split; [|reflexivity].
  destruct k as [|k0 kt]; [contradiction|].
  simpl in Hk. apply andb_true_iff in Hk as [Hk0 Hkt].
  unfold getCitationSegments.
  set (str := ch "@" :: k0 :: kt).
  replace (length str + 1) with (1 + (1 + (length kt + 1)))
    by (subst str; simpl; lia).
  rewrite loop_app. cbn [loop].
  rewrite step_at_bare by reflexivity.
  rewrite loop_app. cbn [loop].
  rewrite (step_key_first U locators str il 1 _ None [] k0)
    by (try reflexivity; exact Hk0).
  rewrite endCurrent_plain by reflexivity.
  rewrite loop_app.
  rewrite (loop_key_chars U locators str il kt [ch "@"] k0 [])
    by (try reflexivity; try assumption;
        subst str; simpl; now rewrite app_nil_r).
  rewrite append_all. cbn [loop].
  rewrite step_key_end; [| | reflexivity | reflexivity | reflexivity].
  - rewrite endCurrent_plain by reflexivity. simpl.
    repeat f_equal; lia.
  - rewrite charAt_nat. apply nth_error_None. subst str. simpl. lia.
Qed.

Lemma bare_key_is_one_composite_citation_witness :
  text "doe2020" <> []
  /\ forallb (Chars.alphaNumeric Sample.unicode) (text "doe2020") = true
  /\ getCitationSegments Sample.unicode Sample.locators
       (ch "@" :: text "doe2020") false
     = Some [[mkSegment SegmentType.at_ 0 1 [ch "@"];
              mkSegment SegmentType.key 1 (1 + length (text "doe2020"))
                (text "doe2020")]]
  /\ option_map citations
       (getCitations SampleTerms.locatorToTerm (text "en-US")
          [mkSegment SegmentType.at_ 0 1 [ch "@"];
           mkSegment SegmentType.key 1 (1 + length (text "doe2020"))
             (text "doe2020")])
     = Some [Citation.mk None None None None None None None None None
               (Some true) (Some (text "doe2020"))].
Proof.
  assert (H1 : text "doe2020" <> []) by discriminate.
  assert (H2 : forallb (Chars.alphaNumeric Sample.unicode) (text "doe2020")
               = true) by (vm_compute; reflexivity).
  split; [exact H1|]. split; [exact H2|].
  exact (bare_key_is_one_composite_citation Sample.unicode Sample.locators
           SampleTerms.locatorToTerm (text "en-US") false (text "doe2020")
           H1 H2).
Defined.

(** X5: The text [[@key]], for a key of letters and digits, is one group of a
    bracket, an [at], a [key] and a bracket segment that cover the text,
    whatever [locators] and [ignoreLinks] are; its one citation has the key as
    [id] and no flag. *)
Theorem bracketed_key_is_one_plain_citation :
  forall U locators locatorToTerm locale ignoreLinks k,
    k <> [] ->
    forallb (Chars.alphaNumeric U) k = true ->
    getCitationSegments U locators (ch "[" :: ch "@" :: k ++ [ch "]"])
      ignoreLinks
    = Some [[mkSegment SegmentType.bracket 0 1 [ch "["];
             mkSegment SegmentType.at_ 1 2 [ch "@"];
             mkSegment SegmentType.key 2 (2 + length k) k;
             mkSegment SegmentType.bracket (2 + length k) (3 + length k)
               [ch "]"]]]
    /\ option_map citations
         (getCitations locatorToTerm locale
            [mkSegment SegmentType.bracket 0 1 [ch "["];
             mkSegment SegmentType.at_ 1 2 [ch "@"];
             mkSegment SegmentType.key 2 (2 + length k) k;
             mkSegment SegmentType.bracket (2 + length k) (3 + length k)
               [ch "]"]])
       = Some [Citation.of_id (Some k)].
Proof.
  intros U locators T locale il k Hne Hk. split; [|reflexivity].
  destruct (exists_last Hne) as (front & p & Hlast).
  assert (Hp : Chars.alphaNumeric U p = true).
  { rewrite Hlast, forallb_app in Hk. apply andb_true_iff in Hk as [_ Hk].
    simpl in Hk. now rewrite andb_true_r in Hk. }
  assert (Hlen : length k = S (length front))
    by (rewrite Hlast, length_app; simpl; lia).
  destruct k as [|k0 kt]; [contradiction|].
  simpl in Hk. apply andb_true_iff in Hk as [Hk0 Hkt].
  simpl in Hlen. injection Hlen as Hlen.
  unfold getCitationSegments.
  set (str := ch "[" :: ch "@" :: (k0 :: kt) ++ [ch "]"]).
  assert (Hend : nth_error str (3 + length kt) = Some (ch "]")).
  { subst str. simpl. rewrite nth_error_app2, Nat.sub_diag by lia.
    reflexivity. }
  assert (Hprev : nth_error str (2 + length kt) = Some p).
  { subst str. rewrite Hlast, Hlen. simpl.
    rewrite <- app_assoc, nth_error_app2, Nat.sub_diag by lia.
    reflexivity. }
  assert (Hpast : nth_error str (4 + length kt) = None).
  { apply nth_error_None. subst str. simpl. rewrite length_app. simpl. lia. }
  replace (length str + 1)
    with (1 + (1 + (1 + (length kt + (1 + 1)))))
    by (subst str; simpl; rewrite length_app; simpl; lia).
  rewrite loop_app. cbn [loop]. rewrite step_open by reflexivity.
  rewrite loop_app. cbn [loop]. rewrite step_at_bracket by reflexivity.
  rewrite endCurrent_plain by reflexivity.
  rewrite loop_app. cbn [loop].
  rewrite (step_key_first U locators str il 2 _ None [] k0)
    by (try reflexivity; exact Hk0).
  rewrite endCurrent_plain by reflexivity.
  rewrite loop_app.
  rewrite (loop_key_chars U locators str il kt [ch "["; ch "@"] k0 [ch "]"])
    by (try reflexivity; assumption).
  rewrite append_all. rewrite loop_app. cbn [loop].
  rewrite (step_key_close U locators str il _ _ [] p);
    [ | | | exact Hp | reflexivity | reflexivity | reflexivity | reflexivity
      | reflexivity | ].
  - rewrite endCurrent_plain by reflexivity.
    unfold endSegment, push_current, openBracket. cbv zeta.
    ev (chr_is (charAt str (Z.of_nat 0 - 1)) "["). cbv iota. fields.
    cbn [encounteredKey newState]. rewrite step_idle.
    + unfold newCurrent. simpl. repeat f_equal; lia.
    + rewrite charAt_nat. rewrite <- Hpast. f_equal. lia.
  - rewrite charAt_nat. exact Hend.
  - replace (Z.of_nat (0 + 1 + 1 + 1 + length kt) - 1)%Z
      with (Z.of_nat (2 + length kt)) by lia.
    rewrite charAt_nat. exact Hprev.
  - replace (Z.of_nat (0 + 1 + 1 + 1 + length kt) + 1)%Z
      with (Z.of_nat (4 + length kt)) by lia.
    rewrite charAt_nat, Hpast. simpl. now rewrite andb_false_r.
Qed.

Lemma bracketed_key_is_one_plain_citation_witness :
  text "doe2020" <> []
  /\ forallb (Chars.alphaNumeric Sample.unicode) (text "doe2020") = true
  /\ getCitationSegments Sample.unicode Sample.locators
       (ch "[" :: ch "@" :: text "doe2020" ++ [ch "]"]) true
     = Some [[mkSegment SegmentType.bracket 0 1 [ch "["];
              mkSegment SegmentType.at_ 1 2 [ch "@"];
              mkSegment SegmentType.key 2 (2 + length (text "doe2020"))
                (text "doe2020");
              mkSegment SegmentType.bracket (2 + length (text "doe2020"))
                (3 + length (text "doe2020")) [ch "]"]]]
  /\ option_map citations
       (getCitations SampleTerms.locatorToTerm (text "en-US")
          [mkSegment SegmentType.bracket 0 1 [ch "["];
           mkSegment SegmentType.at_ 1 2 [ch "@"];
           mkSegment SegmentType.key 2 (2 + length (text "doe2020"))
             (text "doe2020");
           mkSegment SegmentType.bracket (2 + length (text "doe2020"))
             (3 + length (text "doe2020")) [ch "]"]])
     = Some [Citation.of_id (Some (text "doe2020"))].
Proof.
  assert (H1 : text "doe2020" <> []) by discriminate.
  assert (H2 : forallb (Chars.alphaNumeric Sample.unicode) (text "doe2020")
               = true) by (vm_compute; reflexivity).
  split; [exact H1|]. split; [exact H2|].
  exact (bracketed_key_is_one_plain_citation Sample.unicode Sample.locators
           SampleTerms.locatorToTerm (text "en-US") true (text "doe2020")
           H1 H2).
Defined.

(** *** Where the scanner can fail *)

Section NoBracket.

Variable U : Unicode.
Variable locators : jstr -> option RegExpMatch.
Variable str : jstr.
Variable ignoreLinks : bool.

(** The blocks for a state pass [seekState] on or empty it. *)
Lemma inBracketsBlock_seek i st out :
  seekState (inBracketsBlock U locators str ignoreLinks i st None out)
  = None.
Proof.
  unfold inBracketsBlock, restart, endSegment. cbv zeta.
  repeat split_test; reflexivity.
Qed.

Lemma inKeyBlock_seek i st out :
  seekState (inKeyBlock U locators str ignoreLinks i st None out) = None.
Proof.
  unfold inKeyBlock, punctBlock, closeBare, toSuffix, restart, endSegment.
  cbv zeta.
  repeat split_test; first [reflexivity | apply inBracketsBlock_seek].
Qed.

(** The loop body on a character other than ['[']: without a [seekState]
    it returns, and leaves none. *)
Lemma step_seek i sc :
  chr_is (charAt str (Z.of_nat i)) "[" = false ->
  seekState sc = None ->
  exists sc',
    step U locators str ignoreLinks i sc = Some sc' /\ seekState sc' = None.
Proof.
  intros Hc Hsk. destruct sc as [s sk out]. simpl in Hsk. subst sk.
  unfold step, afterBracket, atBlock. cbv zeta. rewrite Hc. fields.
  repeat split_test; eexists; (split; [reflexivity|]);
    first [reflexivity | apply inKeyBlock_seek | apply inBracketsBlock_seek].
Qed.

Lemma loop_seek n :
  (forall j, chr_is (charAt str (Z.of_nat j)) "[" = false) ->
  forall i sc,
    seekState sc = None ->
    exists sc',
      loop U locators str ignoreLinks n i sc = Some sc'
      /\ seekState sc' = None.
Proof.
  intros Hno. induction n as [|n IH]; simpl; intros i sc Hq; [eauto|].
  destruct (step_seek i sc (Hno i) Hq) as (sc1 & -> & Hq1).
  now apply IH.
Qed.

End NoBracket.

(** X2: [getCitationSegments] raises no error on a text without ['[']: the
    [TypeError] of the scanner needs a bare citation that a bracket follows. *)
Theorem text_without_bracket_is_scanned :
  forall U locators str ignoreLinks,
    ~ In (ch "[") str ->
    exists out, getCitationSegments U locators str ignoreLinks = Some out.
Proof.
  intros U locators str il Hno. unfold getCitationSegments.
  destruct (loop_seek U locators str il (length str + 1)
              (fun j => chr_is_not_in str "[" j Hno) 0 (mkScan None None [])
              eq_refl)
    as (sc & -> & _).
  eauto.
Qed.

Lemma text_without_bracket_is_scanned_witness :
  ~ In (ch "[") (text "as @doe2020 and @roe99, p. 4 say")
  /\ exists out,
       getCitationSegments Sample.unicode Sample.locators
         (text "as @doe2020 and @roe99, p. 4 say") false = Some out.
Proof.
  assert (H : ~ In (ch "[") (text "as @doe2020 and @roe99, p. 4 say")).
  { intros H. vm_compute in H.
    repeat (destruct H as [H | H]; [discriminate H|]). exact H. }
  split; [exact H|].
  exact (text_without_bracket_is_scanned Sample.unicode Sample.locators
           _ false H).
Defined.

(** *** A key with a citation type *)

Lemma charAt_here (pre post : jstr) c i :
  i = length pre -> charAt (pre ++ c :: post) (Z.of_nat i) = Some c.
Proof.
  intros ->. rewrite charAt_nat, nth_error_app2, Nat.sub_diag by lia.
  reflexivity.
Qed.

Lemma charAt_before (pre post : jstr) c i :
  i = S (length pre) ->
  charAt (pre ++ c :: post) (Z.of_nat i - 1) = Some c.
Proof.
  intros ->. replace (Z.of_nat (S (length pre)) - 1)%Z
    with (Z.of_nat (length pre)) by lia.
  now apply charAt_here.
Qed.

Lemma charAt_after (pre post : jstr) c i :
  S i = length pre ->
  charAt (pre ++ c :: post) (Z.of_nat i + 1) = Some c.
Proof.
  intros H. replace (Z.of_nat i + 1)%Z with (Z.of_nat (length pre)) by lia.
  now apply charAt_here.
Qed.

Lemma charAt_past (s : jstr) i :
  length s <= i -> charAt s (Z.of_nat i) = None.
Proof. intros H. rewrite charAt_nat. now apply nth_error_None. Qed.

Lemma alphaNumeric_last U (k : jstr) :
  k <> [] ->
  forallb (Chars.alphaNumeric U) k = true ->
  exists front p, k = front ++ [p] /\ Chars.alphaNumeric U p = true.
Proof.
  intros Hne Hk. destruct (exists_last Hne) as (front & p & E).
  exists front, p. split; [exact E|].
  rewrite E, forallb_app in Hk. apply andb_true_iff in Hk as [_ Hk].
  simpl in Hk. now rewrite andb_true_r in Hk.
Qed.

Section TypedKey.

Variable U : Unicode.
Variable locators : jstr -> option RegExpMatch.
Variable str : jstr.
Variable ignoreLinks : bool.

(** A run of letters and digits from index [i] on is appended to the
    key. *)
Lemma loop_key_chars_at rest pre p post st sk out i :
  i = S (length pre) ->
  str = pre ++ [p] ++ rest ++ post ->
  Chars.alphaNumeric U p = true ->
  forallb (Chars.alphaNumeric U) rest = true ->
  inKey st = true ->
  seekingSuffix st = false ->
  inExplicitKey st = false ->
  loop U locators str ignoreLinks (length rest) i (mkScan (Some st) sk out)
  = Some (mkScan
            (Some (set_currentSegment
                     (mkSegment (type (currentSegment st))
                        (from (currentSegment st)) (to (currentSegment st))
                        (val (currentSegment st) ++ rest)) st))
            sk out).
Proof.
  intros -> Hstr Hp Hr Hk Hs He.
  rewrite (loop_key_chars U locators str ignoreLinks rest pre p post);
    auto.
  now rewrite append_all.
Qed.

(** The [':'] after a key in which a citation type occurs turns the key
    into a [citeType] segment and is itself a [typeSeparator]. *)
Lemma step_type_separator i st sk out p n :
  charAt str (Z.of_nat i) = Some (ch ":") ->
  charAt str (Z.of_nat i - 1) = Some p ->
  charAt str (Z.of_nat i + 1) = Some n ->
  Chars.alphaNumeric U p = true ->
  Chars.alphaNumeric U n = true ->
  inKey st = true ->
  seekingSuffix st = false ->
  inExplicitKey st = false ->
  citeTypes_test (val (currentSegment st)) = true ->
  step U locators str ignoreLinks i (mkScan (Some st) sk out)
  = Some (mkScan
            (Some (set_currentSegment
                     (newCurrent i (Some (ch ":")) SegmentType.typeSeparator)
                     (endCurrent U locators i sk
                        (retype SegmentType.citeType st))))
            sk out).
Proof.
  intros Hc Hp Hn Hap Han Hk Hs He Hty.
  destruct (alphaNumeric_plain U p Hap) as (_ & P1 & P2 & _).
  destruct (alphaNumeric_plain U n Han) as (_ & _ & _ & _ & _ & N1).
  unfold step, afterBracket, inKeyBlock, punctBlock, restart. cbv zeta.
  fields. rewrite Hc, Hp, Hn, Hs, Hk, P1, P2, He, N1, Hty.
  ev (chr_is (Some (ch ":")) "["). ev (chr_is (Some (ch ":")) "@").
  ev (isTerminus (Some (ch ":"))). ev (chr_is (Some (ch ":")) "}").
  ev (chr_is (Some (ch ":")) "{").
  ev (Chars.test (Chars.alphaNumeric U) (Some (ch ":"))).
  ev (Chars.test Chars.space (Some (ch ":"))).
  ev (Chars.test Chars.punct (Some (ch ":"))).
  reflexivity.
Qed.

End TypedKey.

(** The text [[@type:key]], for a type and a key of letters and digits
    where [fig], [tbl], [eq] or [sec] occurs in the type: one group, in
    which the type is a [citeType] segment, the colon a [typeSeparator]
    and the key a [key]. *)
Lemma typed_key_scan U locators ignoreLinks ty k :
  ty <> [] ->
  forallb (Chars.alphaNumeric U) ty = true ->
  citeTypes_test ty = true ->
  k <> [] ->
  forallb (Chars.alphaNumeric U) k = true ->
  getCitationSegments U locators
    (ch "[" :: ch "@" :: ty ++ ch ":" :: k ++ [ch "]"]) ignoreLinks
  = Some [[mkSegment SegmentType.bracket 0 1 [ch "["];
           mkSegment SegmentType.at_ 1 2 [ch "@"];
           mkSegment SegmentType.citeType 2 (2 + length ty) ty;
           mkSegment SegmentType.typeSeparator (2 + length ty)
             (3 + length ty) [ch ":"];
           mkSegment SegmentType.key (3 + length ty)
             (3 + length ty + length k) k;
           mkSegment SegmentType.bracket (3 + length ty + length k)
             (4 + length ty + length k) [ch "]"]]].
Proof.
  intros Hty Hta Htt Hk Hka.
  destruct (alphaNumeric_last U ty Hty Hta) as (tf & tl & Etl & Htl).
  destruct (alphaNumeric_last U k Hk Hka) as (kf & kl & Ekl & Hkl).
  assert (Ltf : length ty = S (length tf))
    by (rewrite Etl, length_app; simpl; lia).
  assert (Lkf : length k = S (length kf))
    by (rewrite Ekl, length_app; simpl; lia).
  destruct ty as [|t0 tt]; [contradiction|].
  destruct k as [|k0 kt]; [contradiction|].
  simpl in Hta, Hka, Ltf, Lkf.
  apply andb_true_iff in Hta as [Ht0 Htt'].
  apply andb_true_iff in Hka as [Hk0 Hkt].
  unfold getCitationSegments.
  set (str := ch "[" :: ch "@" :: (t0 :: tt) ++ ch ":" :: (k0 :: kt)
                ++ [ch "]"]).
  assert (Hcolon : forall i, i = 3 + length tt ->
                     charAt str (Z.of_nat i) = Some (ch ":")).
  { intros i Hi.
    apply (charAt_here (ch "[" :: ch "@" :: t0 :: tt)). simpl. lia. }
  assert (Hcolon_prev : forall i, i = 3 + length tt ->
                          charAt str (Z.of_nat i - 1) = Some tl).
  { intros i Hi. subst str. rewrite Etl, <- app_assoc.
    apply (charAt_before (ch "[" :: ch "@" :: tf)). simpl. lia. }
  assert (Hcolon_next : forall i, i = 3 + length tt ->
                          charAt str (Z.of_nat i + 1) = Some k0).
  { intros i Hi.
    replace str
      with ((ch "[" :: ch "@" :: (t0 :: tt) ++ [ch ":"])
              ++ k0 :: kt ++ [ch "]"])
      by (subst str; simpl; rewrite <- !app_assoc; reflexivity).
    apply charAt_after. simpl. rewrite length_app. simpl. lia. }
  assert (Hk0_here : forall i, i = 4 + length tt ->
                       charAt str (Z.of_nat i) = Some k0).
  { intros i Hi.
    replace str
      with ((ch "[" :: ch "@" :: (t0 :: tt) ++ [ch ":"])
              ++ k0 :: kt ++ [ch "]"])
      by (subst str; simpl; rewrite <- !app_assoc; reflexivity).
    apply charAt_here. simpl. rewrite length_app. simpl. lia. }
  assert (Hk0_prev : forall i, i = 4 + length tt ->
                       charAt str (Z.of_nat i - 1) = Some (ch ":")).
  { intros i Hi.
    apply (charAt_before (ch "[" :: ch "@" :: t0 :: tt)). simpl. lia. }
  assert (Hclose : forall i, i = 5 + length tt + length kt ->
                     charAt str (Z.of_nat i) = Some (ch "]")).
  { intros i Hi.
    replace str
      with ((ch "[" :: ch "@" :: (t0 :: tt) ++ ch ":" :: k0 :: kt)
              ++ ch "]" :: [])
      by (subst str; simpl; rewrite <- !app_assoc; reflexivity).
    apply charAt_here. simpl. rewrite length_app. simpl. lia. }
  assert (Hclose_prev : forall i, i = 5 + length tt + length kt ->
                          charAt str (Z.of_nat i - 1) = Some kl).
  { intros i Hi. subst str. rewrite Ekl.
    replace (ch "[" :: ch "@" :: (t0 :: tt) ++ ch ":" :: (kf ++ [kl])
               ++ [ch "]"])
      with ((ch "[" :: ch "@" :: (t0 :: tt) ++ ch ":" :: kf)
              ++ kl :: [ch "]"])
      by (simpl; rewrite <- !app_assoc; reflexivity).
    apply charAt_before. simpl. rewrite length_app. simpl. lia. }
  assert (Hlen : length str = 6 + length tt + length kt).
  { subst str. simpl. rewrite length_app. simpl. rewrite length_app.
    simpl. lia. }
  assert (Hclose_next : forall i, i = 5 + length tt + length kt ->
                          charAt str (Z.of_nat i + 1) = None).
  { intros i Hi. replace (Z.of_nat i + 1)%Z with (Z.of_nat (S i)) by lia.
    apply charAt_past. lia. }
  replace (length str + 1)
    with (1 + (1 + (1 + (length tt + (1 + (1 + (length kt + (1 + 1))))))))
    by lia.
  rewrite loop_app. cbn [loop]. rewrite step_open by reflexivity.
  rewrite loop_app. cbn [loop]. rewrite step_at_bracket by reflexivity.
  rewrite endCurrent_plain by reflexivity.
  rewrite loop_app. cbn [loop].
  rewrite (step_key_first U locators str ignoreLinks 2 _ None [] t0)
    by (try reflexivity; exact Ht0).
  rewrite endCurrent_plain by reflexivity.
  rewrite loop_app.
  rewrite (loop_key_chars_at U locators str ignoreLinks tt
             [ch "["; ch "@"] t0 (ch ":" :: (k0 :: kt) ++ [ch "]"]))
    by (try reflexivity; assumption).
  rewrite loop_app. cbn [loop].
  rewrite (step_type_separator U locators str ignoreLinks _ _ None [] tl k0);
    [ | apply Hcolon; lia | apply Hcolon_prev; lia | apply Hcolon_next; lia
      | exact Htl | exact Hk0 | reflexivity | reflexivity | reflexivity
      | exact Htt ].
  rewrite endCurrent_plain by reflexivity.
  rewrite loop_app. cbn [loop].
  rewrite (step_key_first U locators str ignoreLinks _ _ None [] k0);
    [ | rewrite Hk0_prev by lia; reflexivity | apply Hk0_here; lia
      | exact Hk0 | reflexivity | reflexivity ].
  rewrite endCurrent_plain by reflexivity.
  rewrite loop_app.
  rewrite (loop_key_chars_at U locators str ignoreLinks kt
             (ch "[" :: ch "@" :: (t0 :: tt) ++ [ch ":"]) k0 [ch "]"]);
    [ | simpl; rewrite length_app; simpl; lia
      | subst str; simpl; rewrite <- !app_assoc; reflexivity
      | exact Hk0 | exact Hkt | reflexivity | reflexivity | reflexivity ].
  rewrite loop_app. cbn [loop].
  rewrite (step_key_close U locators str ignoreLinks _ _ [] kl);
    [ | apply Hclose; lia | apply Hclose_prev; lia | exact Hkl
      | reflexivity | reflexivity | reflexivity | reflexivity | reflexivity
      | ].
  - rewrite endCurrent_plain by reflexivity.
    unfold endSegment, push_current, openBracket. cbv zeta.
    ev (chr_is (charAt str (Z.of_nat 0 - 1)) "["). cbv iota. fields.
    cbn [encounteredKey newState]. rewrite step_idle.
    + unfold newCurrent, set_to, set_type. simpl. repeat f_equal; lia.
    + apply charAt_past. lia.
  - rewrite Hclose_next by lia. simpl. now rewrite andb_false_r.
Qed.

Lemma every_group_holds_an_at_segment_witness :
  getCitationSegments Sample.unicode Sample.locators MergedExamples.input
    false
  = Some [MergedExamples.group]
  /\ In MergedExamples.group [MergedExamples.group]
  /\ exists s, In s MergedExamples.group /\ type s = SegmentType.at_.
Proof.
  assert (H : getCitationSegments Sample.unicode Sample.locators
                MergedExamples.input false
              = Some [MergedExamples.group])
    by (vm_compute; reflexivity).
  assert (Hin : In MergedExamples.group [MergedExamples.group])
    by (left; reflexivity).
  split; [exact H|]. split; [exact Hin|].
  exact (every_group_holds_an_at_segment Sample.unicode Sample.locators
           MergedExamples.input false _ _ H Hin).
Defined.

(** *** A citation without its author *)

(** A dash before ['@'] inside brackets closes the current segment and
    opens a [suppressor]. *)
Lemma step_suppressor U locators str ignoreLinks i st sk out :
  charAt str (Z.of_nat i) = Some (ch "-") ->
  charAt str (Z.of_nat i + 1) = Some (ch "@") ->
  inBrackets st = true ->
  inKey st = false ->
  seekingSuffix st = false ->
  step U locators str ignoreLinks i (mkScan (Some st) sk out)
  = Some (mkScan
            (Some (set_currentSegment
                     (newCurrent i (Some (ch "-")) SegmentType.suppressor)
                     (endCurrent U locators i sk
                        (set_shouldCancelSeek false st))))
            sk out).
Proof.
  intros Hc Hn Hb Hk Hs.
  unfold step, afterBracket, inBracketsBlock, restart. cbv zeta. fields.
  rewrite Hc, Hn, Hs, Hk, Hb.
  ev (chr_is (Some (ch "-")) "["). ev (chr_is (Some (ch "-")) "@").
  ev (isTerminus (Some (ch "-"))). ev (chr_is (Some (ch "-")) "]").
  ev (chr_is (Some (ch "-")) ";"). ev (chr_is (Some (ch "-")) "-").
  ev (chr_is (Some (ch "@")) "@"). reflexivity.
Qed.

(** X6: The text [[-@key]], for a key of letters and digits, is one group in
    which the dash is a [suppressor] segment, whatever [locators] and
    [ignoreLinks] are; its one citation has the key as [id] and the flag
    [suppress-author], and no other flag. *)
Theorem suppressed_key_is_a_suppress_author_citation :
  forall U locators locatorToTerm locale ignoreLinks k,
    k <> [] ->
    forallb (Chars.alphaNumeric U) k = true ->
    getCitationSegments U locators
      (ch "[" :: ch "-" :: ch "@" :: k ++ [ch "]"]) ignoreLinks
    = Some [[mkSegment SegmentType.bracket 0 1 [ch "["];
             mkSegment SegmentType.suppressor 1 2 [ch "-"];
             mkSegment SegmentType.at_ 2 3 [ch "@"];
             mkSegment SegmentType.key 3 (3 + length k) k;
             mkSegment SegmentType.bracket (3 + length k) (4 + length k)
               [ch "]"]]]
    /\ option_map citations
         (getCitations locatorToTerm locale
            [mkSegment SegmentType.bracket 0 1 [ch "["];
             mkSegment SegmentType.suppressor 1 2 [ch "-"];
             mkSegment SegmentType.at_ 2 3 [ch "@"];
             mkSegment SegmentType.key 3 (3 + length k) k;
             mkSegment SegmentType.bracket (3 + length k) (4 + length k)
               [ch "]"]])
       = Some [Citation.mk None None None None None None None (Some true)
                 None None (Some k)].
Proof.
  intros U locators T locale il k Hne Hk. split; [|reflexivity].
  destruct (alphaNumeric_last U k Hne Hk) as (kf & kl & Ekl & Hkl).
  assert (Lkf : length k = S (length kf))
    by (rewrite Ekl, length_app; simpl; lia).
  destruct k as [|k0 kt]; [contradiction|].
  simpl in Hk, Lkf. apply andb_true_iff in Hk as [Hk0 Hkt].
  unfold getCitationSegments.
  set (str := ch "[" :: ch "-" :: ch "@" :: (k0 :: kt) ++ [ch "]"]).
  assert (Hclose : forall i, i = 4 + length kt ->
                     charAt str (Z.of_nat i) = Some (ch "]")).
  { intros i Hi.
    apply (charAt_here (ch "[" :: ch "-" :: ch "@" :: k0 :: kt)).
    simpl. lia. }
  assert (Hclose_prev : forall i, i = 4 + length kt ->
                          charAt str (Z.of_nat i - 1) = Some kl).
  { intros i Hi. subst str. rewrite Ekl, <- app_assoc.
    apply (charAt_before (ch "[" :: ch "-" :: ch "@" :: kf)). simpl. lia. }
  assert (Hlen : length str = 5 + length kt).
  { subst str. simpl. rewrite length_app. simpl. lia. }
  assert (Hclose_next : forall i, i = 4 + length kt ->
                          charAt str (Z.of_nat i + 1) = None).
  { intros i Hi. replace (Z.of_nat i + 1)%Z with (Z.of_nat (S i)) by lia.
    apply charAt_past. lia. }
  replace (length str + 1)
    with (1 + (1 + (1 + (1 + (length kt + (1 + 1))))))
    by lia.
  rewrite loop_app. cbn [loop]. rewrite step_open by reflexivity.
  rewrite loop_app. cbn [loop]. rewrite step_suppressor by reflexivity.
  rewrite endCurrent_plain by reflexivity.
  rewrite loop_app. cbn [loop]. rewrite step_at_bracket by reflexivity.
  rewrite endCurrent_plain by reflexivity.
  rewrite loop_app. cbn [loop].
  rewrite (step_key_first U locators str il 3 _ None [] k0)
    by (try reflexivity; exact Hk0).
  rewrite endCurrent_plain by reflexivity.
  rewrite loop_app.
  rewrite (loop_key_chars_at U locators str il kt
             [ch "["; ch "-"; ch "@"] k0 [ch "]"])
    by (try reflexivity; assumption).
  rewrite loop_app. cbn [loop].
  rewrite (step_key_close U locators str il _ _ [] kl);
    [ | apply Hclose; lia | apply Hclose_prev; lia | exact Hkl
      | reflexivity | reflexivity | reflexivity | reflexivity | reflexivity
      | ].
  - rewrite endCurrent_plain by reflexivity.
    unfold endSegment, push_current, openBracket. cbv zeta.
    ev (chr_is (charAt str (Z.of_nat 0 - 1)) "["). cbv iota. fields.
    cbn [encounteredKey newState]. rewrite step_idle.
    + unfold newCurrent, set_to, set_type. simpl. repeat f_equal; lia.
    + apply charAt_past. lia.
  - rewrite Hclose_next by lia. simpl. now rewrite andb_false_r.
Qed.

Lemma suppressed_key_is_a_suppress_author_citation_witness :
  text "doe2020" <> []
  /\ forallb (Chars.alphaNumeric Sample.unicode) (text "doe2020") = true
  /\ getCitationSegments Sample.unicode Sample.locators
       (ch "[" :: ch "-" :: ch "@" :: text "doe2020" ++ [ch "]"]) false
     = Some [[mkSegment SegmentType.bracket 0 1 [ch "["];
              mkSegment SegmentType.suppressor 1 2 [ch "-"];
              mkSegment SegmentType.at_ 2 3 [ch "@"];
              mkSegment SegmentType.key 3 (3 + length (text "doe2020"))
                (text "doe2020");
              mkSegment SegmentType.bracket (3 + length (text "doe2020"))
                (4 + length (text "doe2020")) [ch "]"]]]
  /\ option_map citations
       (getCitations SampleTerms.locatorToTerm (text "en-US")
          [mkSegment SegmentType.bracket 0 1 [ch "["];
           mkSegment SegmentType.suppressor 1 2 [ch "-"];
           mkSegment SegmentType.at_ 2 3 [ch "@"];
           mkSegment SegmentType.key 3 (3 + length (text "doe2020"))
             (text "doe2020");
           mkSegment SegmentType.bracket (3 + length (text "doe2020"))
             (4 + length (text "doe2020")) [ch "]"]])
     = Some [Citation.mk None None None None None None None (Some true)
               None None (Some (text "doe2020"))].
Proof.
  assert (H1 : text "doe2020" <> []) by discriminate.
  assert (H2 : forallb (Chars.alphaNumeric Sample.unicode) (text "doe2020")
               = true) by (vm_compute; reflexivity).
  split; [exact H1|]. split; [exact H2|].
  exact (suppressed_key_is_a_suppress_author_citation Sample.unicode
           Sample.locators SampleTerms.locatorToTerm (text "en-US") false
           (text "doe2020") H1 H2).
Defined.

(** ** The pipeline of the callers *)





(** X7: A bracketed citation [[@type:key]] with one of the four types [fig],
    [eq], [tbl], [sec] and a key of letters and digits goes through the
    Segmenter, the Aggregator and the Crossref Renderer without error and is
    rendered as the label of its type and the key, in brackets: [[@fig:plot1]]
    as [[Figure plot1]]. *)
Theorem typed_key_renders_with_its_label :
  forall U locators locatorToTerm locale ignoreLinks ty label k,
    In (ty, label) crossref_types ->
    k <> [] ->
    forallb (Chars.alphaNumeric U) k = true ->
    rendered_vals U locators locatorToTerm locale
      (ch "[" :: ch "@" :: text ty ++ ch ":" :: k ++ [ch "]"]) ignoreLinks
    = Some [text "[" ++ text label ++ k ++ text "]"].
Proof.
  intros U locators T locale il ty label k Hin Hk Hka.
  unfold rendered_vals.
  assert (Hscan : forall t : string,
            In t ["fig"; "eq"; "tbl"; "sec"]%string ->
            text t <> []
            /\ forallb (Chars.alphaNumeric U) (text t) = true
            /\ citeTypes_test (text t) = true).
  { intros t Ht. simpl in Ht.
    repeat (destruct Ht as [<- | Ht];
            [split; [discriminate | split; vm_compute; reflexivity]|]).
    contradiction. }
  assert (Hty : In ty ["fig"; "eq"; "tbl"; "sec"]%string).
  { unfold crossref_types in Hin. simpl in Hin |- *.
    repeat (destruct Hin as [[= <- _] | Hin]; [tauto|]). contradiction. }
  destruct (Hscan ty Hty) as (H1 & H2 & H3).
  rewrite (typed_key_scan U locators il (text ty) k H1 H2 H3 Hk Hka).
  unfold crossref_types in Hin. simpl in Hin.
  repeat (destruct Hin as [[= <- <-] | Hin]; [reflexivity|]).
  contradiction.
Qed.

Lemma typed_key_renders_with_its_label_witness :
  In ("fig"%string, "Figure "%string) crossref_types
  /\ text "plot1" <> []
  /\ forallb (Chars.alphaNumeric Sample.unicode) (text "plot1") = true
  /\ rendered_vals Sample.unicode Sample.locators SampleTerms.locatorToTerm
       (text "en-US")
       (ch "[" :: ch "@" :: text "fig" ++ ch ":" :: text "plot1" ++ [ch "]"])
       false
     = Some [text "[" ++ text "Figure " ++ text "plot1" ++ text "]"].
Proof.
  assert (H1 : In ("fig"%string, "Figure "%string) crossref_types)
    by (left; reflexivity).
  assert (H2 : text "plot1" <> []) by discriminate.
  assert (H3 : forallb (Chars.alphaNumeric Sample.unicode) (text "plot1")
               = true) by (vm_compute; reflexivity).
  split; [exact H1|]. split; [exact H2|]. split; [exact H3|].
  exact (typed_key_renders_with_its_label Sample.unicode Sample.locators
           SampleTerms.locatorToTerm (text "en-US") false _ _ _ H1 H2 H3).
Defined.

(** ** More on the Crossref Renderer and on [onlyKey] *)

Lemma pick_label_in label G first :
  In (to_string label) crossref_labels ->
  In (to_string (pick_label label G first)) crossref_labels.
Proof.
  intros H. unfold pick_label.
  destruct (Citation.citeType first) as [ty|]; [|exact H].
  destruct (1 <? length (citations G));
    repeat match goal with
           | |- context [if ?b then _ else _] => destruct b
           end;
    first [exact H | simpl; tauto].
Qed.

Lemma render_all_format l :
  forall label out,
    In (to_string label) crossref_labels ->
    render_all label l = Some out ->
    Forall
      (fun r =>
         exists lbl,
           In lbl crossref_labels
           /\ rendered_val r
              = text "[" ++ lbl
                  ++ join (text ", ")
                       (map Citation.id (citations (rendered_group r)))
                  ++ text "]")
      out.
Proof.
  induction l as [|G l IH]; simpl; intros label out Hl Hout.
  - injection Hout as <-. constructor.
  - destruct (citations G) as [|c cs] eqn:Hc; [discriminate|].
    destruct (render_all (pick_label label G c) l) as [cites|] eqn:Hr;
      [|discriminate].
    injection Hout as <-.
    pose proof (pick_label_in label G c Hl) as Hp.
    constructor; [|now apply (IH _ _ Hp)].
    exists (to_string (pick_label label G c)). split; [exact Hp|].
    cbn [rendered_val rendered_group]. now rewrite Hc.
Qed.

(** X21: Every string that [renderCrossrefType] makes is a label, the [id]s of
    the group's citations joined by [", "], and square brackets around them;
    the label is one of the eight of the [switch] or, when no group so far had
    a first citation of one of the four types, [undefined]. *)
Theorem renderCrossrefType_val_format :
  forall groups out r,
    renderCrossrefType groups = Some out ->
    In r out ->
    exists lbl,
      In lbl crossref_labels
      /\ rendered_val r
         = text "[" ++ lbl
             ++ join (text ", ")
                  (map Citation.id (citations (rendered_group r)))
             ++ text "]".
Proof.
  intros groups out r Hout Hin.
  assert (H0 : In (to_string None) crossref_labels) by (left; reflexivity).
  pose proof (render_all_format _ _ _ H0 Hout) as Hall.
  rewrite Forall_forall in Hall. now apply Hall.
Qed.

Lemma renderCrossrefType_val_format_witness :
  renderCrossrefType [CrossrefExamples.mixed]
  = Some [mkRendered CrossrefExamples.mixed (text "[undefineda, b]")]
  /\ In (mkRendered CrossrefExamples.mixed (text "[undefineda, b]"))
       [mkRendered CrossrefExamples.mixed (text "[undefineda, b]")]
  /\ exists lbl,
       In lbl crossref_labels
       /\ rendered_val
            (mkRendered CrossrefExamples.mixed (text "[undefineda, b]"))
          = text "[" ++ lbl
              ++ join (text ", ")
                   (map Citation.id
                      (citations
                         (rendered_group
                            (mkRendered CrossrefExamples.mixed
                               (text "[undefineda, b]")))))
              ++ text "]".
Proof.
  assert (H1 : renderCrossrefType [CrossrefExamples.mixed]
               = Some [mkRendered CrossrefExamples.mixed
                         (text "[undefineda, b]")])
    by (vm_compute; reflexivity).
  assert (H2 : In (mkRendered CrossrefExamples.mixed (text "[undefineda, b]"))
                 [mkRendered CrossrefExamples.mixed (text "[undefineda, b]")])
    by (left; reflexivity).
  split; [exact H1|]. split; [exact H2|].
  exact (renderCrossrefType_val_format _ _ _ H1 H2).
Defined.

Lemma onlyKey_key_vals segs :
  onlyKey segs = map (fun v => (SegmentType.key, v)) (key_vals segs).
Proof.
  unfold onlyKey, key_vals, has_type.
  induction segs as [|s segs IH]; [reflexivity|].
  cbn [map filter fst]. destruct (type s) eqn:E; cbn [SegmentType.eqb];
    rewrite IH; reflexivity.
Qed.

(** X22: [onlyKey] gives equal lists for two groups exactly when their [key]
    segments have the same texts in the same order: the positions of the
    segments and every other segment (locator, prefix, suffix) play no part
    when the callers look up the rendered citation of a group. *)
Theorem onlyKey_compares_key_texts :
  forall a b, onlyKey a = onlyKey b <-> key_vals a = key_vals b.
Proof.
  intros a b. rewrite !onlyKey_key_vals. split; [|now intros ->].
  generalize (key_vals a) (key_vals b).
  induction l as [|x l IH]; intros [|y l']; simpl; try discriminate;
    [reflexivity|].
  intros [= -> H]. f_equal. now apply IH.
Qed.

(** ** More on the locator parsers and on [endCurrent] *)






Section ParserShapes.

Variable U : Unicode.
Variable locators : jstr -> option RegExpMatch.
Hypothesis locators_good : locators_ok locators.

(** The pieces of a successful [parsePossibleLocator]. *)
Lemma parsePossibleLocator_pieces st :
  parsePossibleLocator U locators st <> [] ->
  exists m loc rest,
    parsePossibleLocator U locators st
    = tile (from (currentSegment st))
        ((label_pieces m ++ [(SegmentType.locator, loc)])
           ++ piece_if SegmentType.suffix rest)
    /\ val (currentSegment st)
       = texts ((label_pieces m ++ [(SegmentType.locator, loc)])
                  ++ piece_if SegmentType.suffix rest)
    /\ Forall (fun p : SegmentType.t * jstr => snd p <> [])
         ((label_pieces m ++ [(SegmentType.locator, loc)])
            ++ piece_if SegmentType.suffix rest).
Proof.
  intros Hne. unfold parsePossibleLocator in *.
  destruct (locators (val (currentSegment st))) as [m|] eqn:Hm;
    [|contradiction].
  pose proof (sliced_spec locators locators_good _ _ Hm) as Hs.
  pose proof (label_pieces_nonempty locators locators_good _ _ Hm) as Hp.
  set (sliced := skipn (index m + length (whole m))
                   (val (currentSegment st))) in *.
  destruct (LocatorRe.exec U sliced) as [loc|] eqn:Hloc; [|contradiction].
  apply locatorRe_exec_sound in Hloc as (Hl & rest & Hrest).
  exists m, loc, rest.
  rewrite label_spans_tile, push_span_tile.
  replace (skipn (0 + length loc) sliced) with rest
    by (rewrite Hrest; simpl; now rewrite skipn_app, skipn_all,
          Nat.sub_diag).
  rewrite push_span_if_tile. split; [reflexivity|]. split.
  - rewrite !texts_app, texts_piece_if. unfold texts at 2. simpl.
    rewrite app_nil_r, <- app_assoc, <- Hrest. exact Hs.
  - apply Forall_app; split; [|apply piece_if_nonempty].
    apply Forall_app; split; [assumption|].
    constructor; [exact Hl | constructor].
Qed.

End ParserShapes.



(** What [parsePossibleLocator] makes of the suffix [, p. 12 and more]
    under the sample of [locators]. *)
Example parsePossibleLocator_example :
  map (fun s => (type s, from s, to s, val s))
    (parsePossibleLocator Sample.unicode Sample.locators
       ParserExamples.in_suffix)
  = [(SegmentType.locatorSuffix, 9, 11, text ", ");
     (SegmentType.locatorLabel, 11, 13, text "p.");
     (SegmentType.locatorSuffix, 13, 14, text " ");
     (SegmentType.locator, 14, 16, text "12");
     (SegmentType.suffix, 16, 25, text " and more")].
Proof. vm_compute. reflexivity. Qed.

Section ExplicitShapes.

Variable locators : jstr -> option RegExpMatch.
Hypothesis locators_good : locators_ok locators.

(** The pieces of a successful [parseExplicitLocator]. *)
Lemma parseExplicitLocator_pieces st :
  fst (parseExplicitLocator locators st) <> [] ->
  exists m loc,
    parseExplicitLocator locators st
    = (tile (from (currentSegment st))
         (label_pieces m ++ [(SegmentType.locator, loc)]), st)
    /\ val (currentSegment st)
       = texts (label_pieces m ++ [(SegmentType.locator, loc)])
    /\ Forall (fun p : SegmentType.t * jstr => snd p <> [])
         (label_pieces m ++ [(SegmentType.locator, loc)]).
Proof.
  intros Hne. unfold parseExplicitLocator in *.
  destruct (locators (val (currentSegment st))) as [m|] eqn:Hm;
    [|contradiction].
  pose proof (sliced_spec locators locators_good _ _ Hm) as Hs.
  pose proof (label_pieces_nonempty locators locators_good _ _ Hm) as Hp.
  set (sliced := skipn (index m + length (whole m))
                   (val (currentSegment st))) in *.
  destruct (truthy sliced) eqn:Ht; [|contradiction].
  exists m, sliced. rewrite label_spans_tile, push_span_tile.
  split; [reflexivity|]. split.
  - rewrite texts_app. unfold texts at 2. simpl. now rewrite app_nil_r.
  - apply Forall_app; split; [assumption|].
    constructor; [|constructor]. simpl. now destruct sliced.
Qed.

End ExplicitShapes.



(** X9: [endCurrent] never loses what the state has collected: the segments of
    the state stay, in order, and at least one is added after them; and of the
    flags of the state it changes none but [seekingLocator], whatever
    [locators] matches. *)
Theorem endCurrent_only_adds_segments :
  forall U locators i seekState st,
    (exists new,
       segment (endCurrent U locators i seekState st) = segment st ++ new
       /\ new <> [])
    /\ inBrackets (endCurrent U locators i seekState st) = inBrackets st
    /\ inKey (endCurrent U locators i seekState st) = inKey st
    /\ inExplicitKey (endCurrent U locators i seekState st)
       = inExplicitKey st
    /\ inExplicitLocator (endCurrent U locators i seekState st)
       = inExplicitLocator st
    /\ inLink (endCurrent U locators i seekState st) = inLink st
    /\ inSuffix (endCurrent U locators i seekState st) = inSuffix st
    /\ seekingSuffix (endCurrent U locators i seekState st)
       = seekingSuffix st
    /\ encounteredKey (endCurrent U locators i seekState st)
       = encounteredKey st
    /\ shouldCancelSeek (endCurrent U locators i seekState st)
       = shouldCancelSeek st
    /\ bracketDepth (endCurrent U locators i seekState st)
       = bracketDepth st.
Proof.
  intros U locators i sk st.
  destruct (endCurrent_frame U locators i sk st)
    as (new & cur & sl & -> & _ & Hne).
  split; [exists new; split; [reflexivity | exact Hne]|].
  repeat split.
Qed.

(** ** More on the matcher of [locatorRe] *)

Lemma forallb_weaken (A : Type) (p q : A -> bool) l :
  (forall x, p x = true -> q x = true) ->
  forallb p l = true -> forallb q l = true.
Proof.
  intros H. induction l as [|x l IH]; simpl; [reflexivity|].
  intros E. apply andb_true_iff in E as [E1 E2].
  now rewrite (H x E1), IH.
Qed.

(** What a successful run consumed is made of code units that the
    expression accepts. *)
Lemma run_accepts r :
  forall s k x,
    Re.run r s k = Some x ->
    exists p s', s = p ++ s' /\ k s' = Some x
                 /\ forallb (accepts r) p = true.
Proof.
  induction r as [p q | a IHa b IHb | a IHa b IHb | a IHa | a IHa];
    intros s k x H; simpl in H.
  - destruct s as [|c s']; [discriminate|].
    destruct s' as [|d s''].
    + destruct (p c) eqn:Ep; [|discriminate].
      exists [c], []. simpl. now rewrite Ep.
    + destruct (Chars.high c && Chars.low d) eqn:Eh.
      * destruct (q c d); [|discriminate].
        exists [c; d], s''. simpl.
        apply andb_true_iff in Eh as [Eh El].
        assert (Hc : Chars.surrogate c = true).
        { unfold Chars.high, Chars.surrogate, Chars.between in *.
          apply andb_true_iff in Eh as [E1 E2].
          apply N.leb_le in E1, E2. apply andb_true_iff.
          split; apply N.leb_le; lia. }
        assert (Hd : Chars.surrogate d = true).
        { unfold Chars.low, Chars.surrogate, Chars.between in *.
          apply andb_true_iff in El as [E1 E2].
          apply N.leb_le in E1, E2. apply andb_true_iff.
          split; apply N.leb_le; lia. }
        now rewrite Hc, Hd, !orb_true_r.
      * destruct (p c) eqn:Ep; [|discriminate].
        exists [c], (d :: s''). simpl. now rewrite Ep.
  - apply IHa in H as (p1 & s1 & -> & H & A1).
    apply IHb in H as (p2 & s2 & -> & H & A2).
    exists (p1 ++ p2), s2. rewrite app_assoc. split; [reflexivity|].
    split; [exact H|]. rewrite forallb_app. apply andb_true_iff. split.
    + eapply forallb_weaken; [|exact A1]. simpl. now intros c ->.
    + eapply forallb_weaken; [|exact A2]. simpl. intros c ->.
      apply orb_true_r.
  - destruct (Re.run a s k) eqn:Ea.
    + injection H as ->. apply IHa in Ea as (p & s' & -> & H & A).
      exists p, s'. repeat split; auto.
      eapply forallb_weaken; [|exact A]. simpl. now intros c ->.
    + apply IHb in H as (p & s' & -> & H & A).
      exists p, s'. repeat split; auto.
      eapply forallb_weaken; [|exact A]. simpl. intros c ->.
      apply orb_true_r.
  - destruct (Re.run a s k) eqn:Ea.
    + injection H as ->. apply IHa in Ea as (p & s' & -> & H & A).
      exists p, s'. split; [reflexivity|]. split; [exact H|].
      eapply forallb_weaken; [|exact A]. intros c Hc. exact Hc.
    + exists [], s. repeat split; auto.
  - remember (length s) as n eqn:En. clear En.
    revert s x H. induction n as [|n IHn]; intros s x H.
    + exists [], s. repeat split; auto.
    + match type of H with
      | match ?e with _ => _ end = _ => destruct e eqn:Ea
      end.
      * injection H as ->. apply IHa in Ea as (p1 & s1 & -> & H & A1).
        destruct (length s1 <? length (p1 ++ s1)); [|discriminate].
        apply IHn in H as (p2 & s2 & -> & H & A2).
        exists (p1 ++ p2), s2. rewrite app_assoc. split; [reflexivity|].
        split; [exact H|]. rewrite forallb_app. apply andb_true_iff.
        split; [|exact A2].
        eapply forallb_weaken; [|exact A1]. intros c Hc. exact Hc.
      * exists [], s. repeat split; auto.
Qed.

Lemma one_of_incl l l' c :
  incl l l' -> Chars.one_of l c = true -> Chars.one_of l' c = true.
Proof.
  unfold Chars.one_of. intros Hi H.
  apply existsb_exists in H as (x & Hin & E).
  apply existsb_exists. exists x. split; [now apply Hi | exact E].
Qed.

Lemma roman_az c :
  Chars.one_of (text "mdclxviMDCLXVI") c = true -> LocatorRe.az c = true.
Proof.
  unfold Chars.one_of. intros H.
  apply existsb_exists in H as (x & Hin & E). apply N.eqb_eq in E. subst x.
  vm_compute in Hin.
  repeat (destruct Hin as [<- | Hin]; [reflexivity|]). contradiction.
Qed.

Lemma accepts_locatorRe U c :
  accepts (LocatorRe.locatorRe U) c = true -> locator_char U c = true.
Proof.
  unfold locator_char. cbn -[Chars.one_of LocatorRe.az Chars.cat_N
                              Chars.surrogate text N.eqb].
  intros H.
  assert (Hb : forall c, Chars.one_of (text "[(") c = true
                         \/ Chars.one_of (text "])") c = true ->
                         Chars.one_of (text "()[]") c = true).
  { intros x [Hx | Hx]; revert Hx; apply one_of_incl;
      intros y Hy; vm_compute in Hy |- *; tauto. }
  repeat match type of H with
         | _ || _ = true => apply orb_true_iff in H; destruct H as [H | H]
         end;
    try (apply roman_az in H);
    try (apply (fun x => Hb c (or_introl x)) in H);
    try (apply (fun x => Hb c (or_intror x)) in H);
    rewrite ?H, ?orb_true_r; try reflexivity.
  apply N.eqb_eq in H. subst c. vm_compute. reflexivity.
Qed.

(** X12: What [locatorRe] matches is a prefix of the text, is not empty, and
    holds nothing but the characters of locators: letters from [a] to [z] in
    either case, numbers, brackets and parentheses, dashes, colons, commas,
    blanks and tabs. So a locator ends before the first character of any other
    kind, a full stop or a semicolon for one. *)
Theorem locatorRe_matches_locator_characters :
  forall U s loc,
    LocatorRe.exec U s = Some loc ->
    loc <> []
    /\ (exists rest, s = loc ++ rest)
    /\ forallb (locator_char U) loc = true.
Proof.
  intros U s loc H.
  destruct (locatorRe_exec_sound U s loc H) as (Hne & rest & Hs).
  split; [exact Hne|]. split; [eauto|].
  unfold LocatorRe.exec, Re.match_prefix in H.
  destruct (Re.run (LocatorRe.locatorRe U) s Some) as [r|] eqn:E;
    [|discriminate].
  injection H as H.
  apply run_accepts in E as (p & s' & -> & [= ->] & A).
  rewrite length_app in H.
  replace (length p + length r - length r) with (length p + 0) in H by lia.
  rewrite firstn_app_2 in H. simpl in H. rewrite app_nil_r in H. subst loc.
  eapply forallb_weaken; [|exact A]. apply accepts_locatorRe.
Qed.

Lemma locatorRe_matches_locator_characters_witness :
  LocatorRe.exec Sample.unicode (text "12-15, iv; and more")
  = Some (text "12-15, iv")
  /\ text "12-15, iv" <> []
  /\ (exists rest, text "12-15, iv; and more" = text "12-15, iv" ++ rest)
  /\ forallb (locator_char Sample.unicode) (text "12-15, iv") = true.
Proof.
  assert (H : LocatorRe.exec Sample.unicode (text "12-15, iv; and more")
              = Some (text "12-15, iv")) by (vm_compute; reflexivity).
  split; [exact H|].
  exact (locatorRe_matches_locator_characters _ _ _ H).
Defined.

(** *** Numbers are locators *)

Module ReSteps.
Import Re.

Lemma run_cat a b s k :
  run (Cat a b) s k = run a s (fun s' => run b s' k).
Proof. reflexivity. Qed.

Lemma run_alt a b s k :
  run (Alt a b) s k
  = match run a s k with Some x => Some x | None => run b s k end.
Proof. reflexivity. Qed.

(** A class reads a code unit that it accepts and that starts no pair of
    surrogates. *)
Lemma cls_take p q c s k :
  Chars.high c = false -> p c = true -> run (Cls p q) (c :: s) k = k s.
Proof.
  intros Hh Hp. simpl. rewrite Hh, Hp. now destruct s.
Qed.

(** A class fails at the end of the text and on a code unit that it does
    not accept. *)
Lemma cls_stop p q s k :
  match s with
  | [] => True
  | c :: _ => Chars.high c = false /\ p c = false
  end ->
  run (Cls p q) s k = None.
Proof.
  destruct s as [|c s]; [reflexivity|]. intros [Hh Hp]. simpl.
  rewrite Hh, Hp. now destruct s.
Qed.

(** A starred class that reads a code unit goes on from the next one, and
    comes back to this one when that fails. *)
Lemma star_cls_take p q c s k :
  Chars.high c = false -> p c = true ->
  run (Star (Cls p q)) (c :: s) k
  = match run (Star (Cls p q)) s k with
    | Some x => Some x
    | None => k (c :: s)
    end.
Proof.
  intros Hh Hp.
  assert (Hlt : forall n, (n <? S n) = true)
    by (intros n; apply Nat.ltb_lt; lia).
  destruct s as [|d s].
  - simpl. now rewrite Hp.
  - cbn [run length]. rewrite Hh, Hp. cbn [andb]. now rewrite Hlt.
Qed.

(** A star whose expression fails reads nothing. *)
Lemma star_stop a s k :
  (forall k', run a s k' = None) -> run (Star a) s k = k s.
Proof.
  intros H. simpl. destruct (length s); [reflexivity|]. now rewrite H.
Qed.

End ReSteps.

Section Digits.

Variable U : Unicode.

Lemma surrogate_high c : Chars.surrogate c = false -> Chars.high c = false.
Proof.
  unfold Chars.surrogate, Chars.high, Chars.between. intros H.
  destruct (55296 <=? c)%N eqn:E1; [|reflexivity]. simpl in *.
  apply N.leb_gt in H. apply N.leb_gt. lia.
Qed.

Lemma digit_bounds c : ascii_digit c = true -> (48 <= c <= 57)%N.
Proof.
  unfold ascii_digit, Chars.between. intros H.
  apply andb_true_iff in H as [H1 H2]. apply N.leb_le in H1, H2. lia.
Qed.

Lemma digit_high c : ascii_digit c = true -> Chars.high c = false.
Proof.
  intros H. apply digit_bounds in H. unfold Chars.high, Chars.between.
  replace (55296 <=? c)%N with false; [reflexivity|].
  symmetry. apply N.leb_gt. lia.
Qed.

Lemma digit_number c : ascii_digit c = true -> Chars.cat_N U c = true.
Proof.
  intros H. pose proof (digit_bounds c H) as Hb.
  unfold Chars.cat_N, Chars.category.
  replace (c <? 256)%N with true by (symmetry; apply N.ltb_lt; lia).
  unfold Chars.latin1_N. unfold ascii_digit in H. now rewrite H.
Qed.

(** No digit is among characters that are no digits. *)
Lemma digit_not_one_of l c :
  ascii_digit c = true ->
  forallb (fun x => negb (ascii_digit x)) l = true ->
  Chars.one_of l c = false.
Proof.
  intros Hc Hl. destruct (Chars.one_of l c) eqn:E; [|reflexivity].
  unfold Chars.one_of in E. apply existsb_exists in E as (x & Hin & Hx).
  apply N.eqb_eq in Hx. subst x.
  rewrite forallb_forall in Hl. specialize (Hl c Hin).
  now rewrite Hc in Hl.
Qed.

(** What a character that no locator holds is not. *)
Lemma stop_char c :
  locator_char U c = false ->
  Chars.high c = false
  /\ LocatorRe.az c = false
  /\ Chars.cat_N U c = false
  /\ Chars.one_of (text "()[]") c = false
  /\ Chars.one_of (text "-:") c = false
  /\ (c =? 8212)%N = false
  /\ Chars.one_of [ch " "; Chars.TAB] c = false
  /\ (c =? ch ",")%N = false.
Proof.
  unfold locator_char. intros H.
  repeat match type of H with
         | _ || _ = false =>
             let H' := fresh "H" in
             apply orb_false_iff in H; destruct H as [H H']
         end.
  repeat split; try assumption. now apply surrogate_high.
Qed.

(** A class that accepts neither digits nor the characters that end a
    locator fails on digits followed by the end of a locator. *)
Lemma cls_stop_here p q ds rest k :
  forallb ascii_digit ds = true ->
  ends_locator U rest = true ->
  (forall c, ascii_digit c = true -> p c = false) ->
  (forall c, locator_char U c = false -> p c = false) ->
  Re.run (Re.Cls p q) (ds ++ rest) k = None.
Proof.
  intros Hds Hrest Hd Hs. apply ReSteps.cls_stop.
  destruct ds as [|d ds]; simpl in *.
  - destruct rest as [|c rest]; [exact I|].
    apply negb_true_iff in Hrest. split; [|now apply Hs].
    now apply stop_char in Hrest.
  - apply andb_true_iff in Hds as [Hc _].
    split; [now apply digit_high | now apply Hd].
Qed.

(** A starred class reads nothing at the end of a locator. *)
Lemma star_ends p q rest k :
  ends_locator U rest = true ->
  (forall c, locator_char U c = false -> p c = false) ->
  Re.run (Re.Star (Re.Cls p q)) rest k = k rest.
Proof.
  intros Hrest Hs. apply ReSteps.star_stop. intros k'.
  apply ReSteps.cls_stop. destruct rest as [|c rest]; [exact I|].
  simpl in Hrest. apply negb_true_iff in Hrest.
  split; [now apply stop_char in Hrest | now apply Hs].
Qed.


Variable rest : jstr.
Hypothesis Hrest : ends_locator U rest = true.

(** A starred class that accepts digits reads the digits; when what
    follows fails wherever it is tried, so does the star. *)
Lemma star_digits_fail p q ds K :
  (forall c, ascii_digit c = true -> p c = true) ->
  (forall c, locator_char U c = false -> p c = false) ->
  forallb ascii_digit ds = true ->
  (forall ds', forallb ascii_digit ds' = true -> K (ds' ++ rest) = None) ->
  Re.run (Re.Star (Re.Cls p q)) (ds ++ rest) K = None.
Proof.
  intros Hd Hs Hds HK. induction ds as [|d t IH]; simpl app.
  - rewrite star_ends by assumption. apply (HK []). reflexivity.
  - simpl in Hds. apply andb_true_iff in Hds as [Hc Ht].
    rewrite ReSteps.star_cls_take by (auto using digit_high).
    rewrite IH by exact Ht.
    apply (HK (d :: t)). simpl. now rewrite Hc.
Qed.

Lemma bracket_not_digit l c :
  incl l (text "()[]-:") -> ascii_digit c = true -> Chars.one_of l c = false.
Proof.
  intros Hi Hc. destruct (Chars.one_of l c) eqn:E; [|reflexivity].
  apply (one_of_incl _ _ _ Hi) in E.
  rewrite digit_not_one_of in E; [discriminate | exact Hc|].
  vm_compute. reflexivity.
Qed.

Lemma bracket_not_stop l c :
  incl l (text "()[]") -> locator_char U c = false ->
  Chars.one_of l c = false.
Proof.
  intros Hi Hc. destruct (Chars.one_of l c) eqn:E; [|reflexivity].
  apply (one_of_incl _ _ _ Hi) in E.
  apply stop_char in Hc. destruct Hc as (_ & _ & _ & Hc & _). congruence.
Qed.

Lemma dash_fails ds k :
  forallb ascii_digit ds = true ->
  Re.run LocatorRe.dash (ds ++ rest) k = None.
Proof.
  intros Hds. unfold LocatorRe.dash, Re.Chr.
  apply cls_stop_here; auto.
  - intros c Hc. rewrite (bracket_not_digit (text "-:") c); auto.
    + simpl. apply N.eqb_neq. apply digit_bounds in Hc. lia.
    + intros x Hx. vm_compute in Hx |- *. tauto.
  - intros c Hc. apply stop_char in Hc.
    destruct Hc as (_ & _ & _ & _ & H1 & H2 & _). now rewrite H1, H2.
Qed.

Lemma range_fails ds k :
  ds <> [] ->
  forallb ascii_digit ds = true ->
  Re.run (LocatorRe.range U) (ds ++ rest) k = None.
Proof.
  intros Hne Hds.
  unfold LocatorRe.range, LocatorRe.side at 1. cbn [Re.run].
  unfold Re.Chr at 1. rewrite cls_stop_here; auto.
  2: { intros c Hc. apply bracket_not_digit; auto.
       intros x Hx. vm_compute in Hx |- *. tauto. }
  2: { intros c Hc. apply bracket_not_stop; auto.
       intros x Hx. vm_compute in Hx |- *. tauto. }
  unfold Re.Plus. rewrite ReSteps.run_cat. unfold LocatorRe.azN.
  destruct ds as [|d t]; [contradiction|]. simpl app.
  simpl in Hds. apply andb_true_iff in Hds as [Hc Ht].
  rewrite ReSteps.cls_take;
    [| now apply digit_high | now rewrite digit_number, orb_true_r].
  apply star_digits_fail; auto.
  - intros c Hd. now rewrite digit_number, orb_true_r.
  - intros c Hs. apply stop_char in Hs.
    destruct Hs as (_ & H1 & H2 & _). now rewrite H1, H2.
  - intros ds' Hds'. unfold Re.Chr. rewrite cls_stop_here; auto.
    + now apply dash_fails.
    + intros c Hd. apply bracket_not_digit; auto.
      intros x Hx. vm_compute in Hx |- *. tauto.
    + intros c Hs. apply bracket_not_stop; auto.
      intros x Hx. vm_compute in Hx |- *. tauto.
Qed.

(** A class fails at the end of a locator. *)
Lemma cls_ends p q k :
  (forall c, locator_char U c = false -> p c = false) ->
  Re.run (Re.Cls p q) rest k = None.
Proof.
  intros Hs. apply ReSteps.cls_stop. destruct rest as [|c r]; [exact I|].
  simpl in Hrest. apply negb_true_iff in Hrest.
  split; [now apply stop_char in Hrest | now apply Hs].
Qed.

(** A starred class that accepts digits, before something that needs a
    digit: the star gives back the last digit. *)
Lemma star_leaves_last p q ds K x :
  (forall c, ascii_digit c = true -> p c = true) ->
  (forall c, locator_char U c = false -> p c = false) ->
  ds <> [] ->
  forallb ascii_digit ds = true ->
  K rest = None ->
  (forall d, ascii_digit d = true -> K (d :: rest) = Some x) ->
  Re.run (Re.Star (Re.Cls p q)) (ds ++ rest) K = Some x.
Proof.
  intros Hd Hs Hne Hds HK0 HK1.
  induction ds as [|d t IH]; [contradiction|].
  simpl in Hds. apply andb_true_iff in Hds as [Hc Ht]. simpl app.
  rewrite ReSteps.star_cls_take by (auto using digit_high).
  destruct t as [|d' t].
  - simpl app. rewrite star_ends by assumption. rewrite HK0. now apply HK1.
  - rewrite IH; [reflexivity | discriminate | exact Ht].
Qed.

Lemma numbered_reads_digits ds k x :
  ds <> [] ->
  forallb ascii_digit ds = true ->
  k rest = Some x ->
  Re.run (LocatorRe.numbered U) (ds ++ rest) k = Some x.
Proof.
  intros Hne Hds Hk.
  assert (Hbr : forall c, locator_char U c = false ->
                  LocatorRe.az c || Chars.cat_N U c
                  || Chars.one_of (text "()[]") c = false).
  { intros c Hs. apply stop_char in Hs.
    destruct Hs as (_ & H1 & H2 & H3 & _). now rewrite H1, H2, H3. }
  assert (Hn : forall c, locator_char U c = false ->
                 Chars.cat_N U c = false).
  { intros c Hs. apply stop_char in Hs. tauto. }
  unfold LocatorRe.numbered. rewrite ReSteps.run_cat.
  unfold LocatorRe.azNbr at 1.
  apply star_leaves_last; auto.
  - intros c Hc. now rewrite digit_number, orb_true_r.
  - rewrite ReSteps.run_cat. unfold Re.Plus. rewrite ReSteps.run_cat.
    unfold LocatorRe.digit at 1. now apply cls_ends.
  - intros d Hd. rewrite ReSteps.run_cat. unfold Re.Plus.
    rewrite ReSteps.run_cat. unfold LocatorRe.digit, LocatorRe.azNbr.
    rewrite ReSteps.cls_take;
      [| now apply digit_high | now apply digit_number].
    rewrite star_ends by assumption.
    rewrite star_ends by assumption. exact Hk.
Qed.

Lemma comma_value_ends k :
  Re.run (Re.Cat LocatorRe.comma (LocatorRe.value U)) rest k = None.
Proof.
  rewrite ReSteps.run_cat. unfold LocatorRe.comma. cbv zeta.
  rewrite ReSteps.run_cat. unfold Re.Chr at 1. rewrite star_ends.
  - rewrite ReSteps.run_cat. unfold Re.Chr at 1. apply cls_ends.
    intros c Hs. apply stop_char in Hs.
    destruct Hs as (_ & _ & _ & _ & _ & _ & _ & H). now rewrite N.eqb_sym.
  - exact Hrest.
  - intros c Hs. apply stop_char in Hs. tauto.
Qed.

Lemma locatorRe_reads_digits ds :
  ds <> [] ->
  forallb ascii_digit ds = true ->
  Re.run (LocatorRe.locatorRe U) (ds ++ rest) Some = Some rest.
Proof.
  intros Hne Hds. unfold LocatorRe.locatorRe. rewrite ReSteps.run_cat.
  unfold LocatorRe.value. rewrite ReSteps.run_alt, range_fails by assumption.
  rewrite ReSteps.run_alt.
  rewrite (numbered_reads_digits ds _ rest); auto.
  apply ReSteps.star_stop. apply comma_value_ends.
Qed.

End Digits.

(** X13: A run of decimal digits at the start of a text is a locator, and the
    whole of it when the text ends there or goes on with a character that no
    locator holds (a blank, a full stop, a semicolon): [locatorRe] matches the
    digits and nothing else. *)
Theorem digits_are_a_locator :
  forall U ds rest,
    ds <> [] ->
    forallb ascii_digit ds = true ->
    ends_locator U rest = true ->
    LocatorRe.exec U (ds ++ rest) = Some ds.
Proof.
  intros U ds rest Hne Hds Hrest.
  unfold LocatorRe.exec, Re.match_prefix.
  rewrite (locatorRe_reads_digits U rest Hrest ds Hne Hds).
  rewrite length_app.
  replace (length ds + length rest - length rest) with (length ds + 0)
    by lia.
  rewrite firstn_app_2. simpl. now rewrite app_nil_r.
Qed.

Lemma digits_are_a_locator_witness :
  text "124" <> []
  /\ forallb ascii_digit (text "124") = true
  /\ ends_locator Sample.unicode (text ". See also") = true
  /\ LocatorRe.exec Sample.unicode (text "124" ++ text ". See also")
     = Some (text "124").
Proof.
  assert (H1 : text "124" <> []) by discriminate.
  assert (H2 : forallb ascii_digit (text "124") = true)
    by (vm_compute; reflexivity).
  assert (H3 : ends_locator Sample.unicode (text ". See also") = true)
    by (vm_compute; reflexivity).
  split; [exact H1|]. split; [exact H2|]. split; [exact H3|].
  exact (digits_are_a_locator Sample.unicode _ _ H1 H2 H3).
Defined.

(** ** The text of a group *)

Lemma joined_app a :
  forall f b t,
    joined f (a ++ b) t <-> exists m, joined f a m /\ joined m b t.
Proof.
  induction a as [|x a IH]; intros f b t; simpl.
  - split; [intros H; now exists f | now intros (m & -> & H)].
  - rewrite IH. split.
    + intros (Hf & m & H1 & H2). exists m. auto.
    + intros (m & (Hf & H1) & H2). split; [exact Hf|]. now exists m.
Qed.

Lemma joined_last l :
  forall f t d, joined f l t -> l <> [] -> to (last l d) = t.
Proof.
  induction l as [|x l IH]; intros f t d H Hne; [contradiction|].
  destruct H as [_ H]. destruct l as [|y l]; [exact H|].
  change (last (x :: y :: l) d) with (last (y :: l) d).
  eapply IH; [exact H | discriminate].
Qed.

Lemma joined_contiguous l :
  forall f t, joined f l t -> contiguous l.
Proof.
  induction l as [|x l IH]; intros f t H; [exact I|].
  destruct H as [_ H]. destruct l as [|y l]; [exact I|].
  split; [symmetry; apply H | eapply IH; exact H].
Qed.

Lemma at_first_app l m : at_first l -> l <> [] -> at_first (l ++ m).
Proof. intros H Hne. destruct l; [contradiction | exact H]. Qed.

Lemma at_first_init l m : at_first (l ++ m) -> at_first l.
Proof. intros H. destruct l; [discriminate | exact H]. Qed.

Section Runs.

Variable str : jstr.

Lemma run_snoc br f l t s :
  run str br f l t -> l <> [] -> from s = t ->
  run str br f (l ++ [s]) (to s).
Proof.
  intros [Hj Hb] Hne Hs. split.
  - apply joined_app. exists t. split; [exact Hj|]. simpl. auto.
  - destruct br; [exact Hb | now apply at_first_app].
Qed.

Lemma run_init br f l c t :
  run str br f (l ++ [c]) t -> run str br f l (from c).
Proof.
  intros [Hj Hb]. apply joined_app in Hj as (m & H1 & H2 & _). split.
  - now rewrite H2.
  - destruct br; [exact Hb | eapply at_first_init; exact Hb].
Qed.

(** The current segment replaced by what [endCurrent] makes of it. *)
Lemma run_replace br f l c t new i :
  run str br f (l ++ [c]) t ->
  joined (from c) new i ->
  (br = false -> l = [] -> type c = SegmentType.at_ -> at_first new) ->
  run str br f (l ++ new) i.
Proof.
  intros [Hj Hb] Hn Hty.
  apply joined_app in Hj as (m & H1 & H2 & _). split.
  - apply joined_app. exists m. split; [exact H1 | now rewrite <- H2].
  - destruct br; [exact Hb|].
    destruct l as [|x l]; [|exact Hb].
    simpl. apply Hty; auto; now apply Hb.
Qed.

(** The current segment with another text or, when other segments come
    before it, another type. *)
Lemma run_current br f l c t c' :
  run str br f (l ++ [c]) t ->
  from c' = from c ->
  br = true \/ l <> [] \/ type c' = type c ->
  run str br f (l ++ [c']) (to c').
Proof.
  intros [Hj Hb] Hf Hty.
  apply joined_app in Hj as (m & H1 & H2 & _). split.
  - apply joined_app. exists m. split; [exact H1|]. simpl.
    split; [congruence | reflexivity].
  - destruct br; [exact Hb|].
    destruct Hty as [Hty | [Hne | Hty]]; [discriminate | |].
    + apply at_first_app; [|exact Hne]. eapply at_first_init; exact Hb.
    + destruct l as [|x l]; [|exact Hb].
      intros s [= <-]. rewrite Hty. now apply Hb.
Qed.

Lemma glued_of_run br f l t : run str br f l t -> glued str l.
Proof.
  intros H. destruct br.
  - exists [], l. split; [reflexivity|]. split.
    + exists 0, 0. split; [reflexivity | discriminate].
    + right. eauto.
  - exists l, []. split; [now rewrite app_nil_r|]. split; [eauto|].
    now left.
Qed.

Lemma glued_merge f e bare p t rest :
  run str false f bare e -> run str true p rest t ->
  glued str (bare ++ rest).
Proof.
  intros H1 H2. exists bare, rest. split; [reflexivity|].
  split; [eauto | right; eauto].
Qed.

End Runs.

Lemma tile_joined ps :
  forall f, joined f (tile f ps) (f + length (texts ps)).
Proof.
  induction ps as [|[ty v] ps IH]; intros f.
  - unfold texts. simpl. lia.
  - simpl. split; [reflexivity|].
    replace (f + length (texts ((ty, v) :: ps)))
      with (f + length v + length (texts ps))
      by (unfold texts; simpl; rewrite length_app; lia).
    apply IH.
Qed.

Section EndCurrentGlue.

Variable U : Unicode.
Variable locators : jstr -> option RegExpMatch.
Hypothesis locators_good : locators_ok locators.
Variable str : jstr.

(** What [endCurrent] adds takes the place of the current segment: it is
    joined from the start of that segment to [i], and it starts with the
    segment of an ['@'] when the current segment is one. *)
Lemma endCurrent_glue i sk st :
  exists new cur sl,
    endCurrent U locators i sk st
    = mkState (inBrackets st) (inExplicitKey st) (inExplicitLocator st)
        (inKey st) (inLink st) (inSuffix st) (seekingSuffix st) sl
        (encounteredKey st) (shouldCancelSeek st) (segment st ++ new) cur
        (bracketDepth st)
    /\ new <> []
    /\ (open_ok str i (currentSegment st) ->
        joined (from (currentSegment st)) new i
        /\ (type (currentSegment st) = SegmentType.at_ -> at_first new)).
Proof.
  assert (Hpush : forall ty,
            (type (currentSegment st) = SegmentType.at_ ->
             ty = SegmentType.at_) ->
            exists new cur sl,
              push_current i (retype ty st)
              = mkState (inBrackets st) (inExplicitKey st)
                  (inExplicitLocator st) (inKey st) (inLink st) (inSuffix st)
                  (seekingSuffix st) sl (encounteredKey st)
                  (shouldCancelSeek st) (segment st ++ new) cur
                  (bracketDepth st)
              /\ new <> []
              /\ (open_ok str i (currentSegment st) ->
                  joined (from (currentSegment st)) new i
                  /\ (type (currentSegment st) = SegmentType.at_ ->
                      at_first new))).
  { intros ty Hty. eexists _, _, _. split; [reflexivity|].
    split; [discriminate|]. intros _. split.
    - simpl. auto.
    - intros E s [= <-]. simpl. auto. }
  assert (Hplain : push_current i st
                   = push_current i (retype (type (currentSegment st)) st)).
  { destruct st as [? ? ? ? ? ? ? ? ? ? ? [] ?]; reflexivity. }
  assert (Hlen : open_ok str i (currentSegment st) ->
                 from (currentSegment st) + length (val (currentSegment st))
                 = i).
  { intros (Hf & Hi & Hv). rewrite Hv, slice_length; lia. }
  unfold endCurrent.
  destruct (seekingLocator st || opt_flag seekingLocator sk);
    [|rewrite Hplain; now apply Hpush].
  destruct (SegmentType.eqb (type (currentSegment st)) SegmentType.suffix)
    eqn:E1.
  { destruct (truthy (parsePossibleLocator U locators st)) eqn:Ht;
      [|rewrite Hplain; now apply Hpush].
    assert (Hne : parsePossibleLocator U locators st <> [])
      by (intros E; now rewrite E in Ht).
    eexists _, _, _. split; [reflexivity|]. split; [exact Hne|].
    intros Ho. split.
    - destruct (parsePossibleLocator_pieces U locators locators_good st Hne)
        as (m & loc & rest & -> & Hv & _).
      rewrite <- (Hlen Ho), Hv. apply tile_joined.
    - intros E. rewrite E in E1. discriminate. }
  destruct (SegmentType.eqb (type (currentSegment st))
              SegmentType.locatorSuffix) eqn:E2;
    [|rewrite Hplain; now apply Hpush].
  assert (Hno : type (currentSegment st) <> SegmentType.at_)
    by (intros E; rewrite E in E2; discriminate).
  destruct (parseExplicitLocator locators st) as [segs st'] eqn:Hp.
  destruct (truthy segs) eqn:Ht.
  - assert (Hne : fst (parseExplicitLocator locators st) <> [])
      by (rewrite Hp; intros E; simpl in E; now rewrite E in Ht).
    destruct (parseExplicitLocator_pieces locators locators_good st Hne)
      as (m & loc & Hq & Hv & _).
    rewrite Hp in Hq. injection Hq as -> ->.
    eexists _, _, _. split; [reflexivity|].
    split; [now rewrite Hp in Hne|].
    intros Ho. split; [|intros E; now destruct (Hno E)].
    rewrite <- (Hlen Ho), Hv. apply tile_joined.
  - destruct (parseExplicitLocator_state locators st) as (ty & Hst).
    rewrite Hp in Hst. simpl in Hst. subst st'. apply Hpush.
    intros E. now destruct (Hno E).
Qed.

End EndCurrentGlue.

(** Replace each call of [endCurrent] by the state that [endCurrent_glue]
    describes. *)
Ltac glue_shape good str Hop :=
  repeat match goal with
  | |- context [endCurrent ?u ?l ?j ?sk ?s] =>
      let new := fresh "new" in
      let cur := fresh "cur" in
      let sl := fresh "sl" in
      let E := fresh "E" in
      let Hne := fresh "Hnew" in
      let Hj := fresh "Hj" in
      let Hat := fresh "Hat" in
      destruct (endCurrent_glue u l good str j sk s)
        as (new & cur & sl & E & Hne & Hj);
      rewrite E in *; clear E; fields;
      destruct (Hj Hop) as [Hj' Hat]; clear Hj
  end.

(** A list that ends in a non-empty list is not empty. *)
Ltac not_nil :=
  let E := fresh "E" in
  intros E;
  repeat match type of E with
         | _ ++ _ = [] => apply app_eq_nil in E; destruct E as [? E]
         end;
  first [discriminate | contradiction | congruence | tauto].

(** Past the test of the character after ['@'], the state has segments. *)
Ltac have_segs Hprev :=
  try match goal with
      | H : chr_is ?p "@" || _ = false |- _ =>
          let E := fresh "E" in
          assert (segment _ <> [])
            by (intros E; apply Hprev in E; rewrite E in H; discriminate H)
      end.

(** A run from the runs at hand. *)
Ltac runs n :=
  first
    [ eassumption
    | lazymatch n with
      | S ?m =>
          first
            [ eapply run_snoc; [runs m | not_nil | reflexivity]
            | eapply run_replace;
              [ eassumption
              | eassumption
              | let Hb := fresh in
                let Hl := fresh in
                let Hty := fresh in
                intros Hb Hl Hty;
                first [ discriminate Hb | contradiction
                      | match goal with H : _ -> at_first _ |- _ =>
                          apply H; exact Hty end ] ]
            | eapply run_current;
              [ eassumption | reflexivity
              | first [ left; reflexivity | right; left; assumption
                      | right; right; reflexivity ] ]
            | eapply run_init; eassumption ]
      end ].

(** A group of the output is glued. *)
Ltac glue_group Hsk :=
  first
    [ eapply glued_of_run; runs 3
    | match goal with
      | |- glued _ (segment ?k ++ _) =>
          let f := fresh "f" in
          let t := fresh "t" in
          let H := fresh "H" in
          destruct (Hsk k eq_refl) as (f & t & H);
          eapply glued_merge; [exact H | runs 3]
      end ].

Ltac glue_out Hsk :=
  first
    [ assumption
    | apply Forall_app; split;
      [assumption | constructor; [glue_group Hsk | constructor]] ].

(** The invariant after one path through a block. *)
Ltac glue_leaf Hsk :=
  try match type of Hsk with
      | forall k, Some ?s = Some k -> _ =>
          let f := fresh "f" in
          let t := fresh "t" in
          let H := fresh "H" in
          destruct (Hsk s eq_refl) as (f & t & H)
      end;
  split; [glue_out Hsk|]; split;
  [ let k := fresh "k" in
    let E := fresh "E" in
    intros k E;
    first [ discriminate E | apply Hsk; exact E
          | injection E as <-; fields; eexists _, _; runs 3 ]
  | let s := fresh "s" in
    let E := fresh "E" in
    intros s E;
    first
      [ discriminate E
      | injection E as <-; unfold glued_state, held; fields; flags;
        eexists _, _; runs 3 ] ].

Section GlueInv.

Variable U : Unicode.
Variable locators : jstr -> option RegExpMatch.
Hypothesis locators_good : locators_ok locators.
Variable str : jstr.
Variable ignoreLinks : bool.
Variable i : nat.

(** The block for a state inside brackets. *)
Lemma inBracketsBlock_glue st sk out :
  pre str i st sk out ->
  inBrackets st = true ->
  Forall (glued str) out ->
  (forall k, sk = Some k -> exists f t, run str false f (segment k) t) ->
  glued_state str st ->
  Glue str (inBracketsBlock U locators str ignoreLinks i st sk out).
Proof.
  intros (_ & _ & Hss & _ & Hop & _) Hbr Hout Hsk (f & t & Hrun).
  unfold held in Hrun. rewrite Hss, Hbr in Hrun.
  unfold inBracketsBlock, restart, endSegment. cbv zeta.
  repeat split_test.
  all: glue_shape locators_good str Hop; fields; rewrite ?Hbr, ?Hss in *.
  all: glue_leaf Hsk.
Qed.

(** The block for a state inside a key. *)
Lemma inKeyBlock_glue st sk out :
  pre str i st sk out ->
  inKey st = true ->
  Forall (glued str) out ->
  (forall k, sk = Some k -> exists f t, run str false f (segment k) t) ->
  glued_state str st ->
  Glue str (inKeyBlock U locators str ignoreLinks i st sk out).
Proof.
  intros Hpre Hkey Hout Hsk Hg.
  pose proof Hpre as (_ & Hsk' & Hss & _ & Hop & Hn3).
  pose proof Hg as (f & t & Hrun).
  pose proof (fresh_key_prev str i st Hop Hn3 Hkey) as Hprev.
  unfold held in Hrun. rewrite Hss in Hrun.
  unfold inKeyBlock, punctBlock, closeBare, toSuffix, restart, endSegment.
  cbv zeta.
  destruct (inBrackets st) eqn:Hbr.
  - cbn [negb andb]. repeat split_test.
    all: have_segs Hprev.
    all: glue_shape locators_good str Hop; fields; rewrite ?Hbr, ?Hss in *.
    all: try (glue_leaf Hsk).
    apply inBracketsBlock_glue; auto.
  - assert (sk = None) as ->
      by (destruct sk as [k|]; [destruct (Hsk' k eq_refl); discriminate|];
          reflexivity).
    cbn [negb andb]. repeat split_test.
    all: have_segs Hprev.
    all: glue_shape locators_good str Hop; fields; rewrite ?Hbr, ?Hss in *.
    all: try (glue_leaf Hsk).
Qed.

(** The state that the block for ['@'] opens outside brackets. *)
Lemma fresh_state_glue c :
  glued_state str
    (set_encounteredKey true
       (set_inKey true
          (set_currentSegment (newCurrent i c SegmentType.at_) newState))).
Proof.
  exists i, (i + 1). unfold held; simpl. split.
  - split; reflexivity.
  - now intros s [= <-].
Qed.

(** The block for ['@']. *)
Lemma atBlock_glue sc sc' :
  Inv str i sc ->
  Glue str sc ->
  atBlock U locators str i sc = Some sc' ->
  Glue str sc'.
Proof.
  intros HI (Hout & Hsk & Hst).
  unfold atBlock. cbv zeta.
  destruct sc as [s sk out]. fields.
  destruct s as [st|].
  - destruct (seekingSuffix st) eqn:Hss.
    + destruct (inv_seeking_state str i _ st HI eq_refl Hss) as [Hk Hseek].
      fields. subst sk. fields.
      destruct Hseek as (_ & _ & Hbr & _). rewrite Hbr.
      intros [= <-]. split; [exact Hout|]. split; [exact Hsk|].
      intros s [= <-]. apply fresh_state_glue.
    + pose proof (inv_pre str i _ st HI eq_refl Hss)
        as (_ & Hsk' & _ & _ & Hop & _).
      destruct (Hst st eq_refl) as (f & t & Hrun).
      unfold held in Hrun. rewrite Hss in Hrun.
      fields. destruct sk as [k|].
      * destruct (Hsk' k eq_refl) as [_ Hbr]. rewrite Hbr in Hrun.
        destruct (shouldCancelSeek st); fields; rewrite Hbr;
          intros [= <-];
          glue_shape locators_good str Hop; fields; rewrite ?Hbr, ?Hss in *.
        all: glue_leaf Hsk.
      * fields. destruct (inBrackets st) eqn:Hbr; intros [= <-].
        -- glue_shape locators_good str Hop; fields;
             rewrite ?Hbr, ?Hss in *.
           glue_leaf Hsk.
        -- split; [exact Hout|]. split; [exact Hsk|].
           intros s [= <-]. apply fresh_state_glue.
  - destruct sk as [k|]; [discriminate|]. fields. intros [= <-].
    split; [exact Hout|]. split; [exact Hsk|].
    intros s [= <-]. apply fresh_state_glue.
Qed.

(** [endSegment] emits the run of the state it ends. *)
Lemma glue_endSegment st sk out :
  Forall (glued str) out ->
  (forall k, sk = Some k -> exists f t, run str false f (segment k) t) ->
  (exists br f t, run str br f (segment st) t) ->
  Glue str (endSegment st sk out).
Proof.
  intros Hout Hsk (br & f & t & Hrun). unfold endSegment.
  split; [|split; [exact Hsk | discriminate]]. simpl.
  destruct (encounteredKey st); [|exact Hout].
  apply Forall_app; split; [exact Hout|].
  constructor; [|constructor]. eapply glued_of_run; exact Hrun.
Qed.

(** The tests after the block for ['[']. *)
Lemma afterBracket_glue sc sc' :
  Inv str i sc ->
  Glue str sc ->
  afterBracket U locators str ignoreLinks i sc = Some sc' ->
  Glue str sc'.
Proof.
  intros HI HG. unfold afterBracket. cbv zeta.
  destruct (chr_is (charAt str (Z.of_nat i)) "@"
            && isValidPreKey (charAt str (Z.of_nat i - 1))) eqn:Hat.
  { now apply atBlock_glue. }
  pose proof HG as (Hout & Hsk & Hst).
  destruct (state sc) as [st|] eqn:Hs.
  2: { now intros [= <-]. }
  destruct (Hst st eq_refl) as (f & t & Hrun). unfold held in Hrun.
  destruct (seekingSuffix st) eqn:Hss.
  - destruct (inv_seeking_state str i sc st HI Hs Hss) as [Hk Hseek].
    destruct Hseek as (_ & Hkey & Hbr & _).
    cbn [andb]. rewrite Hkey, Hbr. cbn [negb].
    destruct (negb (Chars.test Chars.space (charAt str (Z.of_nat i))));
      intros [= <-]; [|exact HG].
    apply glue_endSegment; eauto.
  - pose proof (inv_pre str i sc st HI Hs Hss) as Hpre.
    cbn [andb negb].
    destruct (inKey st) eqn:Hkey.
    { intros [= <-]. apply inKeyBlock_glue; auto. }
    destruct (inBrackets st) eqn:Hbr.
    { intros [= <-]. apply inBracketsBlock_glue; auto. }
    intros [= <-]. split; [exact Hout|]. split; [exact Hsk | discriminate].
Qed.

(** A bracket opens a state that starts at it. *)
Lemma openBracket_glue sk out :
  Forall (glued str) out ->
  (forall k, sk = Some k -> exists f t, run str false f (segment k) t) ->
  chr_is (charAt str (Z.of_nat i)) "[" = true ->
  Glue str (mkScan (Some (openBracket str i)) sk out).
Proof.
  intros Hout Hsk Hc. split; [exact Hout|]. split; [exact Hsk|].
  intros s [= <-]. exists i, (i + 1). unfold openBracket. cbv zeta.
  destruct (chr_is (charAt str (Z.of_nat i - 1)) "["); unfold held; simpl;
    (split; [split; reflexivity | exact Hc]).
Qed.

(** The loop body keeps the invariant. *)
Lemma step_glue sc sc' :
  Inv str i sc ->
  Glue str sc ->
  step U locators str ignoreLinks i sc = Some sc' ->
  Glue str sc'.
Proof.
  intros HI HG. unfold step. cbv zeta.
  destruct (chr_is (charAt str (Z.of_nat i)) "[") eqn:Hc;
    [|now apply afterBracket_glue].
  pose proof HG as (Hout & Hsk & Hst).
  destruct (state sc) as [st|] eqn:Hs.
  - destruct (bracketDepth (set_bracketDepth (bracketDepth st + 1) st) =? 1)%Z.
    + intros [= <-]. fields. apply openBracket_glue; [exact Hout | | exact Hc].
      destruct (seekingSuffix st) eqn:Hss; [|exact Hsk].
      intros k [= <-]. fields.
      destruct (inv_seeking_state str i sc st HI Hs Hss) as [_ Hseek].
      destruct Hseek as (_ & _ & Hbr & _).
      destruct (Hst st eq_refl) as (f & t & Hrun). unfold held in Hrun.
      rewrite Hss, Hbr in Hrun. eauto.
    + apply afterBracket_glue.
      * pose proof HI as (Ho & Hk & Hstate).
        split; [exact Ho|]. split.
        -- intros k Hk'. destruct (Hk k Hk') as [H1 H2]. split; [exact H1|].
           intros st0 [= <-]. fields. now apply H2.
        -- fields. rewrite Hs in Hstate.
           destruct Hstate as [Hl | Hl]; [left | right]; exact Hl.
      * split; [exact Hout|]. split; [exact Hsk|].
        intros s [= <-]. destruct (Hst st eq_refl) as (f & t & Hrun).
        exists f, t. exact Hrun.
  - destruct (chr_is (charAt str (Z.of_nat i + 1)) "["); intros [= <-].
    + exact HG.
    + now apply openBracket_glue.
Qed.

End GlueInv.

Section GlueScan.

Variable U : Unicode.
Variable locators : jstr -> option RegExpMatch.
Hypothesis locators_good : locators_ok locators.
Variable str : jstr.
Variable ignoreLinks : bool.

Lemma loop_glue n :
  forall i sc sc',
    Inv str i sc ->
    Glue str sc ->
    loop U locators str ignoreLinks n i sc = Some sc' ->
    Glue str sc'.
Proof.
  induction n as [|n IH]; simpl; intros i sc sc' HI HG H.
  - now injection H as <-.
  - destruct (step U locators str ignoreLinks i sc) as [sc1|] eqn:Hs;
      [|discriminate].
    eapply IH; [| |exact H].
    + eapply step_inv; eauto.
    + eapply step_glue; eauto.
Qed.

(** Every group of the output is glued. *)
Lemma output_glued out :
  getCitationSegments U locators str ignoreLinks = Some out ->
  Forall (glued str) out.
Proof.
  unfold getCitationSegments.
  destruct (loop U locators str ignoreLinks (length str + 1) 0
              (mkScan None None [])) as [sc|] eqn:Hl; [|discriminate].
  intros [= <-].
  assert (H0 : Glue str (mkScan None None []))
    by (split; [constructor | split; discriminate]).
  pose proof (loop_inv U locators locators_good str ignoreLinks _ _ _ _
                (inv_start str) Hl) as HI.
  destruct (loop_glue _ _ _ _ (inv_start str) H0 Hl) as (Hout & _ & Hst).
  destruct (state sc) as [st|] eqn:Hs; simpl; [|exact Hout].
  destruct (seekingSuffix st) eqn:Hss; [|exact Hout].
  destruct (Hst st eq_refl) as (f & t & Hrun). unfold held in Hrun.
  rewrite Hss in Hrun.
  apply Forall_app; split; [exact Hout|].
  constructor; [|constructor]. eapply glued_of_run; exact Hrun.
Qed.

End GlueScan.

(** A chain of contiguous segments carries the text it spans. *)
Lemma contiguous_vals str l :
  forall lo hi a b,
    chain str lo l hi -> contiguous l -> span l = Some (a, b) ->
    vals l = slice str a b.
Proof.
  intros lo hi a b Hch Hc Hs. destruct l as [|x r]; [discriminate|].
  destruct (chain_vals str r x lo hi Hch) as (_ & _ & _ & H4 & _).
  unfold span in Hs.
  assert (Hlast : last (x :: r) x = last r x) by (destruct r; reflexivity).
  rewrite Hlast in Hs. injection Hs as <- <-. now apply H4.
Qed.

(** C2, as amended: in every emitted group each segment's [val] is the
    text between its [from] and its [to], and the [val]s concatenated are
    the text between the first segment's [from] and the last segment's
    [to] exactly when the segments are contiguous.  They are contiguous in
    every group that does not start with the segment of an ['@'].  A group
    that does, a bare citation, may have one gap: it is made of two
    contiguous parts, each of which spells the text it spans, and the
    second part starts at a ['['] of the text (the bracketed continuation
    of the bare citation); what is between the two parts belongs to no
    segment. *)
Theorem group_text :
  forall U locators str ignoreLinks out g,
    locators_ok locators ->
    getCitationSegments U locators str ignoreLinks = Some out ->
    In g out ->
    (forall s, In s g -> val s = slice str (from s) (to s))
    /\ (exists a b,
          span g = Some (a, b)
          /\ (vals g = slice str a b <-> contiguous g)
          /\ ((forall s, hd_error g = Some s -> type s <> SegmentType.at_) ->
              vals g = slice str a b))
    /\ exists bare rest,
         g = bare ++ rest
         /\ contiguous bare
         /\ contiguous rest
         /\ (forall a e, span bare = Some (a, e) -> vals bare = slice str a e)
         /\ (forall p b, span rest = Some (p, b) -> vals rest = slice str p b)
         /\ (bare <> [] -> rest <> [] ->
             (exists s, hd_error bare = Some s
                        /\ type s = SegmentType.at_)
             /\ exists s,
                  hd_error rest = Some s
                  /\ chr_is (charAt str (Z.of_nat (from s))) "[" = true).
Proof.
  intros U locators str il out g Hgood Hout Hg.
  destruct (output_chain U locators Hgood str il out Hout)
    as (Hne & hi & Hch).
  pose proof (output_glued U locators Hgood str il out Hout) as Hgl.
  rewrite Forall_forall in Hne, Hgl.
  specialize (Hne g Hg).
  destruct (Hgl g Hg) as (bare & rest & E & (f & e & Hb1 & Hb2) & Hrest).
  destruct (in_concat_split _ g out Hg) as (l1 & l2 & El).
  rewrite El in Hch. apply chain_suffix in Hch. apply chain_prefix in Hch.
  assert (Hcb : contiguous bare) by (eapply joined_contiguous; exact Hb1).
  assert (Hcr : contiguous rest).
  { destruct Hrest as [-> | (p & t & Hr & _)]; [exact I|].
    eapply joined_contiguous; exact Hr. }
  assert (Hsplit : bare <> [] -> rest <> [] ->
            (exists s, hd_error bare = Some s /\ type s = SegmentType.at_)
            /\ exists s,
                 hd_error rest = Some s
                 /\ chr_is (charAt str (Z.of_nat (from s))) "[" = true).
  { intros Hn1 Hn2. split.
    - destruct bare as [|x bare]; [contradiction|].
      exists x. split; [reflexivity | now apply Hb2].
    - destruct Hrest as [-> | (p & t & Hr & Hp)]; [contradiction|].
      destruct rest as [|y rest]; [contradiction|].
      exists y. split; [reflexivity|]. destruct Hr as [-> _]. exact Hp. }
  destruct (group_round_trip str g _ _ Hch Hne) as (a & b & Hs & Hiff).
  split; [|split].
  - intros s Hs'. destruct (chain_In _ _ _ _ _ Hch Hs') as (_ & _ & H).
    apply H.
  - exists a, b. split; [exact Hs|]. split; [exact Hiff|].
    intros Hhd. apply Hiff.
    destruct bare as [|x bare]; [now subst g|].
    destruct rest as [|y rest]; [subst g; now rewrite app_nil_r|].
    destruct Hsplit as [(s & [= <-] & Hty) _]; try discriminate.
    subst g. now destruct (Hhd x eq_refl).
  - exists bare, rest. subst g.
    split; [reflexivity|]. split; [exact Hcb|]. split; [exact Hcr|].
    split; [|split; [|exact Hsplit]].
    + intros a' e' Hsp. eapply contiguous_vals; [|exact Hcb | exact Hsp].
      eapply chain_prefix; exact Hch.
    + intros p' b' Hsp. eapply contiguous_vals; [|exact Hcr | exact Hsp].
      eapply chain_suffix; exact Hch.
Qed.

Lemma group_text_witness :
  locators_ok Sample.locators
  /\ getCitationSegments Sample.unicode Sample.locators
       MergedExamples.input false
     = Some [MergedExamples.group]
  /\ In MergedExamples.group [MergedExamples.group]
  /\ (forall s, In s MergedExamples.group ->
        val s = slice MergedExamples.input (from s) (to s))
  /\ (exists a b,
        span MergedExamples.group = Some (a, b)
        /\ (vals MergedExamples.group = slice MergedExamples.input a b
            <-> contiguous MergedExamples.group)
        /\ ((forall s, hd_error MergedExamples.group = Some s ->
                       type s <> SegmentType.at_) ->
            vals MergedExamples.group = slice MergedExamples.input a b))
  /\ exists bare rest,
       MergedExamples.group = bare ++ rest
       /\ contiguous bare
       /\ contiguous rest
       /\ (forall a e, span bare = Some (a, e) ->
                       vals bare = slice MergedExamples.input a e)
       /\ (forall p b, span rest = Some (p, b) ->
                       vals rest = slice MergedExamples.input p b)
       /\ (bare <> [] -> rest <> [] ->
           (exists s, hd_error bare = Some s
                      /\ type s = SegmentType.at_)
           /\ exists s,
                hd_error rest = Some s
                /\ chr_is (charAt MergedExamples.input (Z.of_nat (from s)))
                     "[" = true).
Proof.
  assert (H : getCitationSegments Sample.unicode Sample.locators
                MergedExamples.input false
              = Some [MergedExamples.group])
    by (vm_compute; reflexivity).
  assert (Hin : In MergedExamples.group [MergedExamples.group])
    by (left; reflexivity).
  split; [exact sample_locators_ok|]. split; [exact H|].
  split; [exact Hin|].
  exact (group_text Sample.unicode Sample.locators MergedExamples.input false
           [MergedExamples.group] MergedExamples.group sample_locators_ok
           H Hin).
Defined.

(** The two parts of the group of [@key [p. 4]]: the bare citation, which
    ends at index 4, and the bracket group, which starts at index 5; the
    blank between them belongs to no segment. *)
Example merged_group_parts :
  MergedExamples.group
  = firstn 2 MergedExamples.group ++ skipn 2 MergedExamples.group
  /\ span (firstn 2 MergedExamples.group) = Some (0, 4)
  /\ span (skipn 2 MergedExamples.group) = Some (5, 11)
  /\ vals (firstn 2 MergedExamples.group) = text "@key"
  /\ vals (skipn 2 MergedExamples.group) = text "[p. 4]".
Proof. repeat split; vm_compute; reflexivity. Qed.
